(** * LivreMele Debrouilleur: ingestion pipeline and spread layout

    A shallow embedding of [src/utils/fileUtils.ts], of the [displayedPages]
    computation of [src/components/BookReader.tsx], of the [totalSpreads]
    callback and the handlers of the application component and of the
    handlers of the drop zone, with the properties the specification states
    about them and further properties of the code.

    Conventions.
    - A JavaScript string is the list of its UTF-16 code units ([jsstring]).
    - A JavaScript number that is used as an index or a count is a [Z].
    - A [Map<string,string>] is a [gmap jsstring jsstring].
    - A promise that may reject is a value of [result]. *)

From Stdlib Require Import ZArith QArith List Bool Lia String Ascii.
From Stdlib Require Import Sorted Permutation.
From stdpp Require Import base option list gmap.

Local Open Scope Z_scope.
Set Warnings "-register-all".

(** ** JavaScript strings *)

Definition jsstring := list N.

(** An ASCII literal as a JavaScript string. *)
Definition js (s : string) : jsstring :=
  List.map N_of_ascii (list_ascii_of_string s).

(** ** Page records ([ProcessedPage] of the types module) *)

(** The [number] values the dimension fields can hold: the host's doubles,
    over-approximated by the rationals, with the two infinities and NaN. *)
Inductive JSNumber :=
| NaN
| Infinity (negative : bool)
| Fin (q : Q).

Record ProcessedPage := mkPage {
  id : jsstring;
  name : jsstring;
  url : jsstring;
  index : Z;
  width : JSNumber;
  height : JSNumber
}.

(** ** Spread layout engine *)

Module BookReader.

(** The object [displayedPages] evaluates to. The early return for an empty
    book sets neither [isCoverView] nor [leftIsSpacer]; they are [None]
    (undefined) there. *)
Record Displayed := mkDisplayed {
  left : option ProcessedPage;
  right : option ProcessedPage;
  isCoverView : option bool;
  leftIsSpacer : option bool
}.

(** [(i >= 0 && i < pages.length) ? pages[i] : null] *)
Definition pageAt (pages : list ProcessedPage) (i : Z) : option ProcessedPage :=
  if (0 <=? i) && (i <? Z.of_nat (length pages))
  then pages !! Z.to_nat i
  else None.

Definition displayedPages (pages : list ProcessedPage) (spreadIndex : Z)
    (hasCover useSpacer : bool) : Displayed :=
  if Z.of_nat (length pages) =? 0 then mkDisplayed None None None None
  else if hasCover && (spreadIndex =? 0) then
    mkDisplayed None (pages !! 0%nat) (Some true) (Some false)
  else
    let '(leftPageIndex, rightPageIndex, leftIsSpacer) :=
      if hasCover then
        let contentSpreadIndex := spreadIndex - 1 in
        if useSpacer then
          let rightPageIndex := 1 + contentSpreadIndex * 2 in
          let leftPageIndex := rightPageIndex - 1 in
          if leftPageIndex =? 0 then (-1, rightPageIndex, true)
          else (leftPageIndex, rightPageIndex, false)
        else
          let leftPageIndex := 1 + contentSpreadIndex * 2 in
          (leftPageIndex, leftPageIndex + 1, false)
      else
        if useSpacer then
          let rightPageIndex := spreadIndex * 2 in
          let leftPageIndex := rightPageIndex - 1 in
          if leftPageIndex <? 0 then (leftPageIndex, rightPageIndex, true)
          else (leftPageIndex, rightPageIndex, false)
        else
          let leftPageIndex := spreadIndex * 2 in
          (leftPageIndex, leftPageIndex + 1, false) in
    mkDisplayed (pageAt pages leftPageIndex) (pageAt pages rightPageIndex)
                (Some false) (Some leftIsSpacer).

(** What a slot shows: the component draws the page when the field is set,
    the blank filler when [leftIsSpacer] is truthy, and nothing otherwise. *)
Inductive Slot :=
| SlotPage (p : ProcessedPage)
| SlotSpacer
| SlotEmpty.

Definition truthy (b : option bool) : bool :=
  match b with Some true => true | _ => false end.

Definition leftSlot (d : Displayed) : Slot :=
  match left d with
  | Some p => SlotPage p
  | None => if truthy (leftIsSpacer d) then SlotSpacer else SlotEmpty
  end.

Definition rightSlot (d : Displayed) : Slot :=
  match right d with
  | Some p => SlotPage p
  | None => SlotEmpty
  end.

Definition isRealPage (s : Slot) : bool :=
  match s with SlotPage _ => true | _ => false end.

(** Some slot of the spread holds a real page. *)
Definition showsPage (d : Displayed) : bool :=
  isRealPage (leftSlot d) || isRealPage (rightSlot d).

End BookReader.

(** ** Spread count of the application component *)

Module App.

(** [Math.ceil(x / 2)] on an integer [x]. *)
Definition ceilHalf (x : Z) : Z := - ((- x) / 2).

Definition totalSpreads (pages : list ProcessedPage) (hasCover useSpacer : bool) : Z :=
  if Z.of_nat (length pages) =? 0 then 0
  else
    let contentPages := Z.of_nat (length pages) in
    let spreads := 0 in
    if hasCover then
      let spreads := spreads + 1 in
      let contentPages := contentPages - 1 in
      if useSpacer then spreads + ceilHalf (contentPages + 1)
      else spreads + ceilHalf contentPages
    else
      if useSpacer then spreads + ceilHalf (contentPages + 1)
      else spreads + ceilHalf contentPages.

End App.

(** ** The slot formulas as the specification words them

    A second definition, written from the specification's sentences, to be
    compared with [BookReader.displayedPages]. *)

Module SpreadSpec.
Import BookReader.

Record SpreadResult := mkSpread {
  leftS : Slot;
  rightS : Slot;
  coverView : bool
}.

(** "Any computed position outside [0, N) resolves to empty, not spacer." *)
Definition page (pages : list ProcessedPage) (i : Z) : Slot :=
  if (0 <=? i) && (i <? Z.of_nat (length pages)) then
    match pages !! Z.to_nat i with
    | Some p => SlotPage p
    | None => SlotEmpty
    end
  else SlotEmpty.

Definition spread (pages : list ProcessedPage) (spreadIndex : Z)
    (hasCover useSpacer : bool) : SpreadResult :=
  if hasCover then
    if spreadIndex =? 0 then
      (* cover rule *)
      mkSpread SlotEmpty (page pages 0) true
    else
      let c := spreadIndex - 1 in
      if useSpacer then
        let right := 1 + 2 * c in
        mkSpread (if right - 1 =? 0 then SlotSpacer else page pages (right - 1))
                 (page pages right) false
      else
        let left := 1 + 2 * c in
        mkSpread (page pages left) (page pages (left + 1)) false
  else
    if useSpacer then
      let right := 2 * spreadIndex in
      mkSpread (if right - 1 <? 0 then SlotSpacer else page pages (right - 1))
               (page pages right) false
    else
      let left := 2 * spreadIndex in
      mkSpread (page pages left) (page pages (left + 1)) false.

End SpreadSpec.

(** ** Promises and exceptions *)

(** The outcome of an awaited promise or of a call that may throw. *)
Inductive result (A : Type) :=
| Ok (a : A)
| Rejected (reason : jsstring).
Arguments Ok {A} a.
Arguments Rejected {A} reason.

#[global] Instance result_ret : MRet result := @Ok.
#[global] Instance result_bind : MBind result := λ A B f m,
  match m with
  | Ok a => f a
  | Rejected e => Rejected e
  end.

Definition isOk {A} (r : result A) : bool :=
  match r with Ok _ => true | Rejected _ => false end.

(** ** String primitives *)

Definition eqStr (a b : jsstring) : bool := bool_decide (a = b).

(** [rest] when [s = p ++ rest]. *)
Fixpoint stripPrefix (p s : jsstring) : option jsstring :=
  match p, s with
  | [], _ => Some s
  | a :: p', b :: s' => if (a =? b)%N then stripPrefix p' s' else None
  | _ :: _, [] => None
  end.

(** [s.startsWith(p)] *)
Definition startsWith (p s : jsstring) : bool :=
  match stripPrefix p s with Some _ => true | None => false end.

(** [s.endsWith(p)] *)
Definition endsWith (p s : jsstring) : bool := startsWith (rev p) (rev s).

(** [s.split(re)] for a regular expression [re] that matches exactly the
    single code units of the class [sep]. *)
Fixpoint split (sep : N → bool) (s : jsstring) : list jsstring :=
  match s with
  | [] => [[]]
  | c :: s' =>
      if sep c then [] :: split sep s'
      else match split sep s' with
           | p :: ps => (c :: p) :: ps
           | [] => [[c]]
           end
  end.

Definition nonEmpty (s : jsstring) : bool :=
  match s with [] => false | _ :: _ => true end.

(** A string value in a condition: [undefined], [null] and the empty string
    are falsy. *)
Definition truthyStr (o : option jsstring) : bool :=
  match o with Some (_ :: _) => true | _ => false end.

(** [a || b] on values that are strings or undefined. *)
Definition orElse (a b : option jsstring) : option jsstring :=
  if truthyStr a then a else b.

(** The code units of the class [\s] (white space and line terminators),
    which are also the ones [trim] removes. *)
Definition isWhiteSpace (c : N) : bool :=
  ((9 <=? c) && (c <=? 13) || (c =? 32) || (c =? 160) || (c =? 5760)
   || (8192 <=? c) && (c <=? 8202) || (c =? 8232) || (c =? 8233)
   || (c =? 8239) || (c =? 8287) || (c =? 12288) || (c =? 65279))%N.

(** The line terminators, which [.] does not match. *)
Definition isLineTerminator (c : N) : bool :=
  ((c =? 10) || (c =? 13) || (c =? 8232) || (c =? 8233))%N.

Fixpoint trimStart (s : jsstring) : jsstring :=
  match s with
  | c :: s' => if isWhiteSpace c then trimStart s' else s
  | [] => []
  end.

(** [s.trim()] *)
Definition trim (s : jsstring) : jsstring := rev (trimStart (rev (trimStart s))).

(** ** The document tree

    The part of the DOM the transformer reads and writes: elements with
    their attributes and children, text nodes, and the other node kinds
    (comments, CDATA sections, processing instructions), which have no
    children. *)

Record Attr := mkAttr {
  attrNS : option jsstring;   (* namespaceURI *)
  attrName : jsstring;        (* qualified name, prefix included *)
  attrValue : jsstring
}.

Inductive Node :=
| Elem (nodeName : jsstring) (attrs : list Attr) (childNodes : list Node)
| Text (textContent : jsstring)
| Other (nodeType : N) (data : jsstring).

(** ** Files and file-system entries *)

(** A [File] of the browser: its name, its declared media type, and the
    outcomes of the two ways the pipeline reads it. *)
Record File := mkFile {
  fileName : jsstring;           (* file.name *)
  fileType : jsstring;           (* file.type *)
  text : result jsstring;        (* await file.text() *)
  dataURL : result jsstring      (* the result of reader.readAsDataURL(file) *)
}.

(** A [FileSystemEntry]. A file entry carries the outcome of
    [fileEntry.file(...)]; a directory entry carries its reader, that is,
    the outcomes of the successive calls of [readEntries]; once they are
    used up the reader answers with the empty batch. *)
Inductive Entry :=
| FileEntry (file : result File)
| DirectoryEntry (reader : list (result (list Entry)))
| OtherEntry.

(** ** What the host platform provides

    The functions of the JavaScript runtime and of the browser that
    [fileUtils.ts] calls. Their results are inputs of the pipeline; the
    properties below hold for every host. The counter of [random],
    [randomUUID] and [createObjectURL] is the position of the document that
    is being processed. *)

Class Host := {
  toLowerCase : jsstring → jsstring;
  decodeURIComponent : jsstring → result jsstring;
  Number : jsstring → JSNumber;
  parseFloat : jsstring → JSNumber;
  (* [a.localeCompare(b, undefined, { numeric: true, sensitivity: 'base' })] *)
  localeCompare : jsstring → jsstring → Z;
  (* [new DOMParser().parseFromString(text, "image/svg+xml")]: the root *)
  parseFromString : jsstring → result Node;
  (* [new XMLSerializer().serializeToString(doc)] *)
  serializeToString : Node → jsstring;
  (* [Math.random().toString(36).substr(2, 9)] *)
  random : nat → jsstring;
  randomUUID : nat → jsstring;
  (* [URL.createObjectURL(new Blob([content], ...))] *)
  createObjectURL : nat → jsstring → jsstring;
  (* the order in which the concurrent reads of the assets complete *)
  completion : list File → list File
}.

(** ** Filename extraction *)

Section FilenameExtraction.
Context {host : Host}.

Definition isPathSeparator (c : N) : bool := ((c =? 47) || (c =? 92))%N.   (* / \ *)
Definition isQueryOrHash (c : N) : bool := ((c =? 63) || (c =? 35))%N.     (* ? # *)

Definition getFilenameFromPath (path : jsstring) : jsstring :=
  if negb (nonEmpty path) then []
  else if startsWith (js "data:") path || startsWith (js "http://") path
          || startsWith (js "https://") path then []
  else
    let parts := split isPathSeparator path in
    let filename := List.last parts [] in
    let filename := List.hd [] (split isQueryOrHash filename) in
    match decodeURIComponent filename with
    | Ok decoded => decoded
    | Rejected _ => filename      (* catch (e) { return filename; } *)
    end.

End FilenameExtraction.

(** ** The asset registry and its lookups *)

Record Registry := mkRegistry {
  assetMap : gmap jsstring jsstring;
  assetMapLower : gmap jsstring jsstring
}.

Section Lookups.
Context {host : Host}.

(** The lookup of [processAttribute]: exact, lowercase, then decoded. *)
Definition lookupAttribute (reg : Registry) (filename : jsstring) : option jsstring :=
  let assetUrl := assetMap reg !! filename in
  let assetUrl :=
    if negb (truthyStr assetUrl) then assetMapLower reg !! toLowerCase filename
    else assetUrl in
  if negb (truthyStr assetUrl) then
    match decodeURIComponent filename with
    | Ok decoded =>
        orElse (assetMap reg !! decoded) (assetMapLower reg !! toLowerCase decoded)
    | Rejected _ => assetUrl      (* catch (e) {} *)
    end
  else assetUrl.

(** The lookup of the secondary pass over [url(...)]. *)
Definition lookupCssUrl (reg : Registry) (filename : jsstring) : option jsstring :=
  orElse (assetMap reg !! filename) (assetMapLower reg !! toLowerCase filename).

End Lookups.

(** ** A host for closed examples

    A concrete [Host] on which the examples and counterexamples below are
    evaluated. [toLowerCase] folds [A-Z] and leaves every other code unit;
    [decodeURIComponent] decodes percent escapes of UTF-8 and throws on a
    malformed one, as the runtime does; [Number] and [parseFloat] read
    decimal literals (sign, digits, fraction, exponent, [Infinity]) and
    know no other notation; [localeCompare] models the numeric collation of
    base sensitivity on ASCII names: digit runs compare by value, letters
    without regard to case, punctuation sorts before digits and digits
    before letters. Its parser always throws, so that a document processed
    on this host takes the textual path. *)

Module ExampleHost.

Definition isUpper (c : N) : bool := ((65 <=? c) && (c <=? 90))%N.
Definition isLower (c : N) : bool := ((97 <=? c) && (c <=? 122))%N.
Definition isDigit (c : N) : bool := ((48 <=? c) && (c <=? 57))%N.

Definition lowerUnit (c : N) : N := if isUpper c then (c + 32)%N else c.
Definition lower (s : jsstring) : jsstring := List.map lowerUnit s.

(** *** Percent decoding *)

Definition hexValue (c : N) : option N :=
  if isDigit c then Some (c - 48)%N
  else if ((65 <=? c) && (c <=? 70))%N then Some (c - 55)%N
  else if ((97 <=? c) && (c <=? 102))%N then Some (c - 87)%N
  else None.

(** The octet of a leading [%XY]. *)
Definition escapedOctet (s : jsstring) : option (N * jsstring) :=
  match s with
  | 37%N :: h :: l :: rest =>
      match hexValue h, hexValue l with
      | Some a, Some b => Some (16 * a + b, rest)%N
      | _, _ => None
      end
  | _ => None
  end.

(** The payload of a leading continuation octet [%XY], [10xxxxxx]. *)
Definition continuation (s : jsstring) : option (N * jsstring) :=
  match escapedOctet s with
  | Some (b, rest) =>
      if ((128 <=? b) && (b <? 192))%N then Some (b - 128, rest)%N else None
  | None => None
  end.

Definition uriError : jsstring := js "URIError: URI malformed".

(** One code point and what follows it, from an octet of [n] leading ones. *)
Definition codePoint (b : N) (rest : jsstring) : option (N * jsstring) :=
  if (b <? 128)%N then Some (b, rest)
  else if (b <? 192)%N then None
  else if (b <? 224)%N then
    match continuation rest with
    | Some (c1, r1) =>
        let cp := ((b - 192) * 64 + c1)%N in
        if (cp <? 128)%N then None else Some (cp, r1)
    | None => None
    end
  else if (b <? 240)%N then
    match continuation rest with
    | Some (c1, r1) =>
        match continuation r1 with
        | Some (c2, r2) =>
            let cp := ((b - 224) * 4096 + c1 * 64 + c2)%N in
            if ((cp <? 2048) || (55296 <=? cp) && (cp <=? 57343))%N then None
            else Some (cp, r2)
        | None => None
        end
    | None => None
    end
  else if (b <? 248)%N then
    match continuation rest with
    | Some (c1, r1) =>
        match continuation r1 with
        | Some (c2, r2) =>
            match continuation r2 with
            | Some (c3, r3) =>
                let cp := ((b - 240) * 262144 + c1 * 4096 + c2 * 64 + c3)%N in
                if ((cp <? 65536) || (1114111 <? cp))%N then None
                else Some (cp, r3)
            | None => None
            end
        | None => None
        end
    | None => None
    end
  else None.

(** The UTF-16 code units of a code point. *)
Definition codeUnits (cp : N) : jsstring :=
  if (cp <? 65536)%N then [cp]
  else [55296 + (cp - 65536) / 1024; 56320 + (cp - 65536) mod 1024]%N.

Fixpoint decodeLoop (fuel : nat) (s : jsstring) : result jsstring :=
  match fuel, s with
  | _, [] => Ok []
  | O, _ :: _ => Rejected uriError
  | S fuel, c :: s' =>
      if (c =? 37)%N then
        match escapedOctet s with
        | Some (b, rest) =>
            match codePoint b rest with
            | Some (cp, rest') => r ← decodeLoop fuel rest'; Ok (codeUnits cp ++ r)
            | None => Rejected uriError
            end
        | None => Rejected uriError
        end
      else r ← decodeLoop fuel s'; Ok (c :: r)
  end.

Definition decode (s : jsstring) : result jsstring := decodeLoop (length s) s.

(** *** Decimal literals *)

(** The digits at the head of [s]: their value after [acc], their number,
    and the rest. *)
Fixpoint readDigits (acc : Z) (s : jsstring) : Z * nat * jsstring :=
  match s with
  | c :: s' =>
      if isDigit c then
        let '(v, k, rest) := readDigits (10 * acc + Z.of_N (c - 48)) s' in
        (v, S k, rest)
      else (acc, O, s)
  | [] => (acc, O, [])
  end.

Definition readSign (s : jsstring) : bool * jsstring :=
  match s with
  | 45%N :: s' => (true, s')
  | 43%N :: s' => (false, s')
  | _ => (false, s)
  end.

(** An exponent part [e], [E] with optional sign and at least one digit. *)
Definition readExponent (s : jsstring) : Z * jsstring :=
  match s with
  | c :: s' =>
      if ((c =? 101) || (c =? 69))%N then
        let '(neg, s'') := readSign s' in
        match readDigits 0 s'' with
        | (_, O, _) => (0, s)
        | (e, S _, rest) => (if neg then - e else e, rest)
        end
      else (0, s)
  | [] => (0, s)
  end.

Fixpoint pow10 (k : nat) : positive :=
  match k with
  | O => 1%positive
  | S k' => (10 * pow10 k')%positive
  end.

Definition scale (q : Q) (e : Z) : Q :=
  if 0 <=? e then (q * inject_Z (10 ^ e))%Q else (q / inject_Z (10 ^ (- e)))%Q.

(** The longest decimal literal at the head of [s]. *)
Definition readDecimal (s : jsstring) : option (JSNumber * jsstring) :=
  let '(neg, s1) := readSign s in
  match stripPrefix (js "Infinity") s1 with
  | Some rest => Some (Infinity neg, rest)
  | None =>
      let '(int, k1, s2) := readDigits 0 s1 in
      let '(num, k2, s3) :=
        match s2 with
        | 46%N :: s2' =>
            let '(v, k2, rest) := readDigits int s2' in
            if ((k1 + k2)%nat =? 0)%nat then (int, O, s2) else (v, k2, rest)
        | _ => (int, O, s2)
        end in
      if ((k1 + k2)%nat =? 0)%nat then None
      else
        let '(e, s4) := readExponent s3 in
        let q := scale (Qmake num (pow10 k2)) e in
        Some (Fin (if neg then (- q)%Q else q), s4)
  end.

Definition toNumber (s : jsstring) : JSNumber :=
  match trim s with
  | [] => Fin 0
  | t => match readDecimal t with
         | Some (n, []) => n
         | _ => NaN
         end
  end.

Definition toFloat (s : jsstring) : JSNumber :=
  match readDecimal (trimStart s) with
  | Some (n, _) => n
  | None => NaN
  end.

(** *** Natural, case-insensitive comparison *)

(** A name is compared through its keys: one per digit run, with the value
    of the run, and one per other code unit, with its class. *)
Fixpoint keys (s : jsstring) : list (N * N * nat) :=
  match s with
  | [] => []
  | c :: s' =>
      if isDigit c then
        match keys s' with
        | (1%N, v, k) :: ks =>
            match k with
            | S _ => (1, (c - 48) * 10 ^ N.of_nat k + v, S k)%N :: ks
            | O => (1, c - 48, 1%nat)%N :: keys s'
            end
        | _ => (1, c - 48, 1%nat)%N :: keys s'
        end
      else if isUpper c || isLower c then (2%N, lowerUnit c, O) :: keys s'
      else if (c <? 128)%N then (0%N, c, O) :: keys s'
      else (3%N, c, O) :: keys s'
  end.

Definition compareKey (a b : N * N * nat) : comparison :=
  match (a.1.1 ?= b.1.1)%N with
  | Eq => (a.1.2 ?= b.1.2)%N
  | c => c
  end.

Fixpoint compareKeys (a b : list (N * N * nat)) : comparison :=
  match a, b with
  | [], [] => Eq
  | [], _ :: _ => Lt
  | _ :: _, [] => Gt
  | x :: a', y :: b' =>
      match compareKey x y with
      | Eq => compareKeys a' b'
      | c => c
      end
  end.

Definition naturalCompare (a b : jsstring) : Z :=
  match compareKeys (keys a) (keys b) with
  | Lt => -1
  | Eq => 0
  | Gt => 1
  end.

#[export] Instance exampleHost : Host := {|
  toLowerCase := lower;
  decodeURIComponent := decode;
  Number := toNumber;
  parseFloat := toFloat;
  localeCompare := naturalCompare;
  parseFromString := λ _, Rejected (js "no parser");
  serializeToString := λ _, [];
  random := λ _, js "k3x9q0z1a";
  randomUUID := λ k, js "page-" ++ [(48 + N.of_nat k)%N];
  createObjectURL := λ _ content, js "blob:" ++ content;
  completion := λ files, files
|}.

End ExampleHost.

(** ** Attributes of an element *)

Definition XLINK_NS : jsstring := js "http://www.w3.org/1999/xlink".
Definition SVG_NS : jsstring := js "http://www.w3.org/2000/svg".

(** The local part of a qualified name: what follows its colon. *)
Definition localName (qname : jsstring) : jsstring :=
  List.last (split (λ c, (c =? 58)%N) qname) [].

Definition hasName (name : jsstring) (a : Attr) : bool := eqStr (attrName a) name.

Definition hasNameNS (ns local : jsstring) (a : Attr) : bool :=
  bool_decide (attrNS a = Some ns) && eqStr (localName (attrName a)) local.

(** [el.getAttribute(name)]: the first attribute of that qualified name. *)
Definition getAttribute (name : jsstring) (attrs : list Attr) : option jsstring :=
  attrValue <$> List.find (hasName name) attrs.

(** [el.getAttributeNS(ns, local)] *)
Definition getAttributeNS (ns local : jsstring) (attrs : list Attr) : option jsstring :=
  attrValue <$> List.find (hasNameNS ns local) attrs.

(** The value of the first attribute that satisfies [P] becomes [value]. *)
Fixpoint changeFirst (P : Attr → bool) (value : jsstring) (attrs : list Attr) : list Attr :=
  match attrs with
  | [] => []
  | a :: attrs' =>
      if P a then mkAttr (attrNS a) (attrName a) value :: attrs'
      else a :: changeFirst P value attrs'
  end.

(** [el.setAttribute(name, value)]: the value of the first attribute of
    that qualified name changes; without one, an attribute is appended. *)
Definition setAttribute (name value : jsstring) (attrs : list Attr) : list Attr :=
  if List.existsb (hasName name) attrs then changeFirst (hasName name) value attrs
  else attrs ++ [mkAttr None name value].

(** [el.setAttributeNS(ns, qname, value)]: the attribute is found by
    namespace and local name, and only its value changes. *)
Definition setAttributeNS (ns qname value : jsstring) (attrs : list Attr) : list Attr :=
  if List.existsb (hasNameNS ns (localName qname)) attrs
  then changeFirst (hasNameNS ns (localName qname)) value attrs
  else attrs ++ [mkAttr (Some ns) qname value].

(** [node.nodeName] of an element; text nodes are [#text]. *)
Definition nodeNameOf (n : Node) : jsstring :=
  match n with
  | Elem q _ _ => q
  | Text _ => js "#text"
  | Other _ _ => []
  end.

(** The attributes of a node; none for a node that is not an element. *)
Definition attributes (n : Node) : list Attr :=
  match n with Elem _ a _ => a | _ => [] end.

(** ** Dimension extraction *)

Definition zero : JSNumber := Fin 0.

(** A number in a condition: [0] and [NaN] are falsy. *)
Definition falsyNum (n : JSNumber) : bool :=
  match n with
  | NaN => true
  | Infinity _ => false
  | Fin q => Qnum q =? 0
  end.

Section Dimensions.
Context {host : Host}.

(** [viewBox.split(/[\s,]+/).filter(Boolean).map(Number)]. Splitting at
    every separator and dropping the empty pieces gives the pieces that
    splitting at runs of separators and dropping the empty ones gives. *)
Definition viewBoxParts (viewBox : jsstring) : list JSNumber :=
  List.map Number
    (List.filter nonEmpty (split (λ c, isWhiteSpace c || (c =? 44)%N) viewBox)).

Definition extractDimensions (svgElement : Node) : JSNumber * JSNumber :=
  let width := zero in
  let height := zero in
  let viewBox := getAttribute (js "viewBox") (attributes svgElement) in
  let '(width, height) :=
    if truthyStr viewBox then
      let parts := viewBoxParts (default [] viewBox) in
      if (length parts =? 4)%nat
      then (List.nth 2 parts NaN, List.nth 3 parts NaN)
      else (width, height)
    else (width, height) in
  if falsyNum width || falsyNum height then
    let wAttr := getAttribute (js "width") (attributes svgElement) in
    let hAttr := getAttribute (js "height") (attributes svgElement) in
    (if truthyStr wAttr then parseFloat (default [] wAttr) else width,
     if truthyStr hAttr then parseFloat (default [] hAttr) else height)
  else (width, height).

(** [if (!width) width = 595; if (!height) height = 842;] *)
Definition defaultDimensions (dims : JSNumber * JSNumber) : JSNumber * JSNumber :=
  (if falsyNum dims.1 then Fin 595 else dims.1,
   if falsyNum dims.2 then Fin 842 else dims.2).

(** The dimensions of the page record: the extracted ones, each replaced by
    its default when it is falsy. *)
Definition pageDimensions (svgElement : Node) : JSNumber * JSNumber :=
  defaultDimensions (extractDimensions svgElement).

End Dimensions.

(** ** Reference resolution over the elements *)

Section Resources.
Context {host : Host}.

(** The closure [processAttribute] of the element loop, on the attributes
    of the element [el]. *)
Definition processAttribute (reg : Registry) (attrName : jsstring)
    (namespace : option jsstring) (attrs : list Attr) : list Attr :=
  let val :=
    match namespace with
    | Some ns => getAttributeNS ns attrName attrs
    | None => getAttribute attrName attrs
    end in
  if negb (truthyStr val) then attrs
  else
    let filename := getFilenameFromPath (default [] val) in
    if negb (nonEmpty filename) then attrs
    else
      let assetUrl := lookupAttribute reg filename in
      if truthyStr assetUrl then
        match namespace with
        | Some ns =>
            if eqStr ns XLINK_NS
            then setAttributeNS ns (js "xlink:href") (default [] assetUrl) attrs
            else setAttributeNS ns attrName (default [] assetUrl) attrs
        | None => setAttribute attrName (default [] assetUrl) attrs
        end
      else attrs.

(** The four calls of the loop body. *)
Definition processElement (reg : Registry) (attrs : list Attr) : list Attr :=
  let attrs := processAttribute reg (js "href") None attrs in
  let attrs := processAttribute reg (js "src") None attrs in
  let attrs := processAttribute reg (js "href") (Some XLINK_NS) attrs in
  processAttribute reg (js "xlink:href") None attrs.

(** The loop over [doc.getElementsByTagName('*')]: every element of the
    tree, each on its own attributes. *)
Fixpoint processResources (reg : Registry) (n : Node) : Node :=
  match n with
  | Elem q attrs children =>
      Elem q (processElement reg attrs) (List.map (processResources reg) children)
  | _ => n
  end.

End Resources.

(** ** Redaction *)

(** A node of the tree is referred to by the positions of the children
    that lead to it from the root. The passes below change attributes and
    text only, so that a path keeps denoting the node it was taken for. *)
Definition path := list nat.

Fixpoint getAt (p : path) (n : Node) : option Node :=
  match p with
  | [] => Some n
  | i :: p' =>
      match n with
      | Elem _ _ children => children !! i ≫= getAt p'
      | _ => None
      end
  end.

(** The node at [p] is replaced by its image under [f]. *)
Fixpoint updateAt (f : Node → Node) (p : path) (n : Node) : Node :=
  match p with
  | [] => f n
  | i :: p' =>
      match n with
      | Elem q a children => Elem q a (alter (updateAt f p') i children)
      | _ => n
      end
  end.

(** The paths of the elements that satisfy [P], in document order. *)
Fixpoint selectPaths (P : Node → bool) (n : Node) : list path :=
  match n with
  | Elem _ _ children =>
      (if P n then [[]] else []) ++
      (fix inChildren (i : nat) (l : list Node) : list path :=
         match l with
         | [] => []
         | c :: l' => List.map (cons i) (selectPaths P c) ++ inChildren (S i) l'
         end) O children
  | _ => []
  end.

(** [appendChild(new)] on the first element, in document order, that
    satisfies [P]; [None] when there is none. *)
Fixpoint appendToFirst (P : Node → bool) (new : Node) (n : Node) : option Node :=
  match n with
  | Elem q a children =>
      if P n then Some (Elem q a (children ++ [new]))
      else
        Elem q a <$>
        (fix inChildren (l : list Node) : option (list Node) :=
           match l with
           | [] => None
           | c :: l' =>
               match appendToFirst P new c with
               | Some c' => Some (c' :: l')
               | None => cons c <$> inChildren l'
               end
           end) children
  | _ => None
  end.

(** The block glyph, U+25AE. *)
Definition blockGlyph : N := 9646%N.

(** [text.replace(/[^\s]/g, '▮')] *)
Definition redactText (s : jsstring) : jsstring :=
  List.map (λ c, if isWhiteSpace c then c else blockGlyph) s.

Fixpoint redactTextNodes (n : Node) : Node :=
  match n with
  | Text s => if nonEmpty s then Text (redactText s) else n
  | Elem q a children => Elem q a (List.map redactTextNodes children)
  | Other _ _ => n
  end.

(** What [querySelectorAll('[data-tags]')] selects. *)
Definition hasDataTags (n : Node) : bool :=
  match n with
  | Elem _ a _ =>
      List.existsb (λ x, bool_decide (attrNS x = None) && eqStr (attrName x) (js "data-tags")) a
  | _ => false
  end.

(** What [querySelector('defs')] selects. *)
Definition isDefs (n : Node) : bool :=
  match n with
  | Elem q _ _ => eqStr (localName q) (js "defs")
  | _ => false
  end.

Definition filterReference (filterId : jsstring) : jsstring :=
  js "url(#" ++ filterId ++ js ")".

(** The filter definition the transformer creates. *)
Definition blurFilter (filterId : jsstring) : Node :=
  Elem (js "filter")
    [mkAttr None (js "id") filterId;
     mkAttr None (js "x") (js "-50%");
     mkAttr None (js "y") (js "-50%");
     mkAttr None (js "width") (js "200%");
     mkAttr None (js "height") (js "200%")]
    [Elem (js "feGaussianBlur")
       [mkAttr None (js "in") (js "SourceGraphic");
        mkAttr None (js "stdDeviation") (js "150");
        mkAttr None (js "edgeMode") (js "duplicate")]
       []].

(** The body of [images.forEach]. *)
Definition blurImage (filterId : jsstring) (attrs : list Attr) : list Attr :=
  let attrs := setAttribute (js "filter") (filterReference filterId) attrs in
  let existingStyle := default [] (orElse (getAttribute (js "style") attrs) (Some [])) in
  setAttribute (js "style") (existingStyle ++ js "; filter: blur(150px);") attrs.

(** [images.forEach] over [n.getElementsByTagName('image')] and, when [n]
    is itself of that name, over [n]. *)
Fixpoint blurImages (filterId : jsstring) (n : Node) : Node :=
  match n with
  | Elem q a children =>
      Elem q (if eqStr q (js "image") then blurImage filterId a else a)
           (List.map (blurImages filterId) children)
  | _ => n
  end.

Section Redaction.
Context {host : Host}.

(** [tags.some(t => t.startsWith('redact'))] on the tags of an element. *)
Definition isRedactTagged (n : Node) : bool :=
  let tagsStr := default [] (orElse (getAttribute (js "data-tags") (attributes n)) (Some [])) in
  let tags := List.map (λ s, toLowerCase (trim s)) (split (λ c, (c =? 44)%N) tagsStr) in
  List.existsb (startsWith (js "redact")) tags.

(** The body of the second [taggedElements.forEach]. *)
Definition redactElement (filterId : jsstring) (el : Node) : Node :=
  if isRedactTagged el then
    match el with
    | Elem q a children =>
        let el :=
          if eqStr (toLowerCase q) (js "image") then Elem q (blurImage filterId a) children
          else Elem q a (List.map (blurImages filterId) children) in
        redactTextNodes el
    | _ => el
    end
  else el.

(** The definitions container: the first [defs] of the document or, without
    one, a new first child of the root; the filter is appended to it. *)
Definition installFilter (filterId : jsstring) (doc : Node) : Node :=
  match appendToFirst isDefs (blurFilter filterId) doc with
  | Some doc' => doc'
  | None =>
      match doc with
      | Elem q a children => Elem q a (Elem (js "defs") [] [blurFilter filterId] :: children)
      | _ => doc
      end
  end.

(** Step 3 of the structured phase. The node list [taggedElements] holds
    the nodes themselves; the nodes created for the filter carry no
    [data-tags], so the tagged nodes are those of the tree after the filter
    is installed, in the same order, and each is reached there by its path. *)
Definition processRedactions (filterId : jsstring) (doc : Node) : Node :=
  let needsFilter :=
    List.existsb (λ p, from_option isRedactTagged false (getAt p doc))
                 (selectPaths hasDataTags doc) in
  if needsFilter then
    let doc := installFilter filterId doc in
    foldl (λ doc p, updateAt (redactElement filterId) p doc) doc
          (selectPaths hasDataTags doc)
  else doc.

End Redaction.

(** ** The secondary pass over [url(...)]

    [content.replace(re, callback)] for the global expression [re] that
    reads: [url(], an optional single or double quote (group 1), the fewest
    characters other than line terminators (group 2), group 1 again, [)].
    The matcher of the expression is written out. *)

(** The single and the double quote. *)
Definition isQuote (c : N) : bool := ((c =? 39) || (c =? 34))%N.

Definition closeParen : jsstring := [41%N].

(** [(.*?)] followed by [closing]: the shortest run of code units other than
    line terminators after which [closing] stands; the run and what follows
    [closing]. *)
Fixpoint lazyUntil (closing s : jsstring) : option (jsstring * jsstring) :=
  match stripPrefix closing s with
  | Some rest => Some ([], rest)
  | None =>
      match s with
      | c :: s' =>
          if isLineTerminator c then None
          else
            match lazyUntil closing s' with
            | Some (u, rest) => Some (c :: u, rest)
            | None => None
            end
      | [] => None
      end
  end.

(** A match of the expression at the head of [s]: the quote group, the
    second group and what follows the match. The quote group takes a quote
    when one stands there, and is given up for the empty string when no
    match follows from it. *)
Definition matchUrl (s : jsstring) : option (jsstring * jsstring * jsstring) :=
  match stripPrefix (js "url(") s with
  | None => None
  | Some s1 =>
      let unquoted :=
        match lazyUntil closeParen s1 with
        | Some (u, rest) => Some ([], u, rest)
        | None => None
        end in
      match s1 with
      | c :: s2 =>
          if isQuote c then
            match lazyUntil (c :: closeParen) s2 with
            | Some (u, rest) => Some ([c], u, rest)
            | None => unquoted
            end
          else unquoted
      | [] => unquoted
      end
  end.

(** The text of a match. *)
Definition urlText (quote url : jsstring) : jsstring :=
  js "url(" ++ quote ++ url ++ quote ++ closeParen.

(** The global replacement: at a match the callback's string is emitted and
    the scan goes on after the match; elsewhere one code unit is copied.
    [skip] counts the code units of a match that are still to be passed. *)
Fixpoint replaceFrom (callback : jsstring → jsstring → jsstring)
    (skip : nat) (s : jsstring) : jsstring :=
  match s with
  | [] => []
  | c :: s' =>
      match skip with
      | S k => replaceFrom callback k s'
      | O =>
          match matchUrl s with
          | Some (quote, url, rest) =>
              callback quote url
              ++ replaceFrom callback (length s - length rest - 1) s'
          | None => c :: replaceFrom callback O s'
          end
      end
  end.

Section CssUrls.
Context {host : Host}.

(** The callback of the replacement. *)
Definition replaceUrl (reg : Registry) (quote url : jsstring) : jsstring :=
  let filename := getFilenameFromPath url in
  if nonEmpty filename then
    let assetUrl := lookupCssUrl reg filename in
    if truthyStr assetUrl then urlText quote (default [] assetUrl)
    else urlText quote url
  else urlText quote url.

Definition replaceCssUrls (reg : Registry) (content : jsstring) : jsstring :=
  replaceFrom (replaceUrl reg) O content.

End CssUrls.

(** ** Traversal *)

(** [readAllEntries]: batches are read and accumulated until an empty one. *)
Fixpoint readAllEntries {A} (dirReader : list (result (list A))) : result (list A) :=
  match dirReader with
  | [] => Ok []
  | Rejected err :: _ => Rejected err
  | Ok [] :: _ => Ok []
  | Ok (e :: es) :: rest =>
      entries ← readAllEntries rest; Ok ((e :: es) ++ entries)
  end.

(** [traverseFileTree]. The listing of a directory is completed before its
    children are visited; the children are then visited batch by batch,
    which is the order of the accumulated list ([traverseFileTree_directory]
    below states the definition in the source's form). *)
Fixpoint traverseFileTree (entry : Entry) : result (list File) :=
  match entry with
  | FileEntry outcome => file ← outcome; Ok [file]
  | DirectoryEntry dirReader =>
      _ ← readAllEntries dirReader;
      (fix overBatches (batches : list (result (list Entry))) : result (list File) :=
         match batches with
         | Ok (e :: es) :: rest =>
             files ←
               (fix overEntries (entries : list Entry) : result (list File) :=
                  match entries with
                  | [] => Ok []
                  | childEntry :: entries' =>
                      childFiles ← traverseFileTree childEntry;
                      more ← overEntries entries';
                      Ok (childFiles ++ more)
                  end) (e :: es);
             more ← overBatches rest;
             Ok (files ++ more)
         | _ => Ok []
         end) dirReader
  | OtherEntry => Ok []
  end.

(** The loop [for (const childEntry of entries)] of [traverseFileTree], and
    the loop [for (const entry of entries)] of [processFiles]. *)
Fixpoint traverseAll (entries : list Entry) : result (list File) :=
  match entries with
  | [] => Ok []
  | childEntry :: entries' =>
      childFiles ← traverseFileTree childEntry;
      more ← traverseAll entries';
      Ok (childFiles ++ more)
  end.

(** ** The input of [processFiles] *)

Record DataTransferItem := mkItem {
  webkitGetAsEntry : option Entry;
  kind : jsstring;
  getAsFile : option File
}.

Inductive Items :=
| DataTransferItemList (items : list DataTransferItem)
| FileList (files : list File).

(** The first loop over a [DataTransferItemList]: the entries to traverse
    and the files taken directly. *)
Fixpoint collectItems (items : list DataTransferItem) : list Entry * list File :=
  match items with
  | [] => ([], [])
  | item :: items' =>
      let '(entries, allFiles) := collectItems items' in
      match webkitGetAsEntry item with
      | Some entry => (entry :: entries, allFiles)
      | None =>
          if eqStr (kind item) (js "file") then
            match getAsFile item with
            | Some file => (entries, file :: allFiles)
            | None => (entries, allFiles)
            end
          else (entries, allFiles)
      end
  end.

Definition collectFiles (items : Items) : result (list File) :=
  match items with
  | DataTransferItemList items =>
      let '(entries, allFiles) := collectItems items in
      traversed ← traverseAll entries;
      Ok (allFiles ++ traversed)
  | FileList files => Ok files
  end.

(** ** The asset registry *)

Definition readFileAsDataURL (file : File) : result jsstring :=
  match dataURL file with
  | Ok url => Ok url
  | Rejected _ => Rejected (js "Failed to read file: " ++ fileName file)
  end.

Definition emptyRegistry : Registry := mkRegistry ∅ ∅.

(** The read of the asset succeeds. *)
Definition readable (file : File) : bool := isOk (dataURL file).

Section RegistryBuild.
Context {host : Host}.

(** One callback of [assetFiles.map(async (file) => ...)]: the read is
    inside a [try], whose [catch] logs and goes on. *)
Definition registerAsset (reg : Registry) (file : File) : result Registry :=
  match readFileAsDataURL file with
  | Ok dataUrl =>
      Ok (mkRegistry (<[fileName file := dataUrl]> (assetMap reg))
                     (<[toLowerCase (fileName file) := dataUrl]> (assetMapLower reg)))
  | Rejected _ => Ok reg
  end.

(** [await Promise.all(...)]: the callbacks write to the two maps as their
    reads complete; [assetFiles] is given in that order. The whole rejects
    if a callback does. *)
Fixpoint registerAll (reg : Registry) (assetFiles : list File) : result Registry :=
  match assetFiles with
  | [] => Ok reg
  | file :: rest => reg' ← registerAsset reg file; registerAll reg' rest
  end.

Definition buildRegistry (assetFiles : list File) : result Registry :=
  registerAll emptyRegistry assetFiles.

End RegistryBuild.

(** ** The page sequencer *)

(** [Array.prototype.sort] is stable; on a consistent comparator its result
    is the one of this insertion sort. *)
Fixpoint insertSorted {A} (compare : A → A → Z) (x : A) (sorted : list A) : list A :=
  match sorted with
  | [] => [x]
  | y :: sorted' =>
      if compare x y <=? 0 then x :: sorted
      else y :: insertSorted compare x sorted'
  end.

Definition sort {A} (compare : A → A → Z) (l : list A) : list A :=
  foldr (insertSorted compare) [] l.

(** The comparator does not put [b] before [a]. *)
Definition inOrder {A} (compare : A → A → Z) (a b : A) : Prop := compare a b <= 0.

Definition setIndex (i : nat) (page : ProcessedPage) : ProcessedPage :=
  mkPage (id page) (name page) (url page) (Z.of_nat i) (width page) (height page).

Section Sequencer.
Context {host : Host}.

Definition comparePages (a b : ProcessedPage) : Z := localeCompare (name a) (name b).

(** [processedPages.sort(...)] and then [map((page, index) => ...)]. *)
Definition sequencePages (processedPages : list ProcessedPage) : list ProcessedPage :=
  imap setIndex (sort comparePages processedPages).

End Sequencer.

(** ** The document transformer and [processFiles] *)

(** [doc.getElementsByTagName(name)]: the elements of that qualified name,
    in document order. *)
Fixpoint getElementsByTagName (name : jsstring) (n : Node) : list Node :=
  match n with
  | Elem q _ children =>
      (if eqStr q name then [n] else [])
      ++ List.flat_map (getElementsByTagName name) children
  | _ => []
  end.

Section Pipeline.
Context {host : Host}.

(** The [try] block: the content to go on with and the extracted
    dimensions. An exception of the parser, and a document that carries a
    [parsererror], leave the content and the dimensions as they were. *)
Definition structuredPhase (reg : Registry) (k : nat) (content : jsstring)
    : jsstring * (JSNumber * JSNumber) :=
  match parseFromString content with
  | Ok doc =>
      if (length (getElementsByTagName (js "parsererror") doc) =? 0)%nat then
        let dims := extractDimensions doc in
        let doc := processResources reg doc in
        let doc := processRedactions (js "redact-blur-" ++ random k) doc in
        (serializeToString doc, dims)
      else (content, (zero, zero))
  | Rejected _ => (content, (zero, zero))
  end.

(** One round of the loop [for (const file of svgFiles)]; [k] is the
    position of the document. *)
Definition processSvg (reg : Registry) (k : nat) (file : File) : result ProcessedPage :=
  content ← text file;
  let '(content, dims) := structuredPhase reg k content in
  let content := replaceCssUrls reg content in
  let url := createObjectURL k content in
  let dims := defaultDimensions dims in
  Ok (mkPage (randomUUID k) (fileName file) url 0 dims.1 dims.2).

Fixpoint processSvgFiles (reg : Registry) (k : nat) (svgFiles : list File)
    : result (list ProcessedPage) :=
  match svgFiles with
  | [] => Ok []
  | file :: rest =>
      page ← processSvg reg k file;
      pages ← processSvgFiles reg (S k) rest;
      Ok (page :: pages)
  end.

Definition isHidden (f : File) : bool := startsWith (js ".") (fileName f).

Definition isSvg (f : File) : bool :=
  eqStr (fileType f) (js "image/svg+xml")
  || endsWith (js ".svg") (toLowerCase (fileName f)).

Definition processFiles (items : Items) : result (list ProcessedPage) :=
  allFiles ← collectFiles items;
  let allFiles := List.filter (λ f, negb (isHidden f)) allFiles in
  let svgFiles := List.filter isSvg allFiles in
  let assetFiles := List.filter (λ f, negb (isSvg f)) allFiles in
  reg ← buildRegistry (completion assetFiles);
  processedPages ← processSvgFiles reg O svgFiles;
  Ok (sequencePages processedPages).

End Pipeline.

(** ** Failures of the traversal

    What it means that a listing, or the traversal of an entry, meets a
    failure; stated on the entries, not on [traverseFileTree]. *)

(** Some call of [readEntries] fails before the empty batch. *)
Inductive ListingFails {A} : list (result (list A)) → Prop :=
| listing_fails_now err rest : ListingFails (Rejected err :: rest)
| listing_fails_later e es rest :
    ListingFails rest → ListingFails (Ok (e :: es) :: rest).

(** [child] is in a batch that is read before the empty batch. *)
Inductive Listed {A} : list (result (list A)) → A → Prop :=
| listed_now e es rest child :
    child ∈ e :: es → Listed (Ok (e :: es) :: rest) child
| listed_later e es rest child :
    Listed rest child → Listed (Ok (e :: es) :: rest) child.

(** The read of a file entry fails, or a directory listing fails, somewhere
    in the tree of [entry]. *)
Inductive TraversalFails : Entry → Prop :=
| read_fails err : TraversalFails (FileEntry (Rejected err))
| listing_fails dirReader :
    ListingFails dirReader → TraversalFails (DirectoryEntry dirReader)
| child_fails dirReader child :
    Listed dirReader child → TraversalFails child →
    TraversalFails (DirectoryEntry dirReader).

(** ** Embedded references

    What the registry holds when its values are the data URLs that
    [readAsDataURL] produces: a value starts with [data:] and, being a media
    type followed by base64 text, has no quote, no closing parenthesis and
    no line terminator in it. *)

Definition plainUnit (c : N) : bool :=
  negb (isQuote c) && negb (c =? 41)%N && negb (isLineTerminator c).

Definition embedded (value : jsstring) : bool :=
  startsWith (js "data:") value && forallb plainUnit value.

Definition registryEmbedded (reg : Registry) : Prop :=
  forall key value,
    assetMap reg !! key = Some value \/ assetMapLower reg !! key = Some value ->
    embedded value = true.

(** No suffix of [pre], continued by [x], starts with [closing]. *)
Fixpoint closingFree (closing pre x : jsstring) : bool :=
  match pre with
  | [] => true
  | c :: pre' => negb (startsWith closing (pre ++ x)) && closingFree closing pre' x
  end.

(** A closing of the expression: the quote group followed by [)]. *)
Definition isQuoteGroup (quote : jsstring) : bool :=
  match quote with
  | [] => true
  | [c] => isQuote c
  | _ => false
  end.

(** A replacement text that the matcher reads back as one group. *)
Definition safe (value : jsstring) : bool :=
  nonEmpty value && forallb plainUnit value.

(** ** The common form of the calls of [processAttribute]

    Each call reads the first attribute that a test on namespace and name
    selects, and writes the value of that same attribute. *)

Section Resolution.
Context {host : Host}.

(** The value [processAttribute] writes for the value it has read, if any. *)
Definition resolveReference (reg : Registry) (val : jsstring) : option jsstring :=
  if nonEmpty val then
    let filename := getFilenameFromPath val in
    if nonEmpty filename then
      let assetUrl := lookupAttribute reg filename in
      if truthyStr assetUrl then assetUrl else None
    else None
  else None.

End Resolution.

Definition rewriteFirst (P : Attr → bool) (resolve : jsstring → option jsstring)
    (attrs : list Attr) : list Attr :=
  match List.find P attrs with
  | Some a =>
      match resolve (attrValue a) with
      | Some value => changeFirst P value attrs
      | None => attrs
      end
  | None => attrs
  end.

(** The call that reads through [P] would change nothing. *)
Definition settled (P : Attr → bool) (resolve : jsstring → option jsstring)
    (attrs : list Attr) : Prop :=
  match List.find P attrs with
  | Some a => resolve (attrValue a) = None
  | None => True
  end.

(** A test that looks at the namespace and the name of an attribute only. *)
Definition byName (P : Attr → bool) : Prop :=
  forall a value, P (mkAttr (attrNS a) (attrName a) value) = P a.

(** ** Relations between a tree and a later state of it

    Two trees of the same shape, whose elements have the same names, whose
    attributes are related by [RA] and whose texts are related by [RT]. *)

Inductive related (RA : jsstring → list Attr → list Attr → Prop)
    (RT : jsstring → jsstring → Prop) : Node → Node → Prop :=
| related_elem q a a' children children' :
    RA q a a' → Forall2 (related RA RT) children children' →
    related RA RT (Elem q a children) (Elem q a' children')
| related_text s s' : RT s s' → related RA RT (Text s) (Text s')
| related_other t d : related RA RT (Other t d) (Other t d).

(** The attribute test of [hasDataTags]. *)
Definition carriesDataTags (a : list Attr) : bool :=
  List.existsb (λ x, bool_decide (attrNS x = None) && eqStr (attrName x) (js "data-tags")) a.

(** The attributes [a'] of a later state of an element [q] of attributes
    [a]: the classification is the same, a reference to the filter stays,
    and an element that is neither an image nor classified is untouched. *)
Definition attrsWithin (filterId q : jsstring) (a a' : list Attr) : Prop :=
  getAttribute (js "data-tags") a' = getAttribute (js "data-tags") a ∧
  carriesDataTags a' = carriesDataTags a ∧
  (q ≠ js "image" → carriesDataTags a = false → a' = a) ∧
  (getAttribute (js "filter") a = Some (filterReference filterId) →
   getAttribute (js "filter") a' = Some (filterReference filterId)).

Definition textWithin (s s' : jsstring) : Prop := s' = s ∨ s' = redactText s.

(** An element of the name [image] refers to the filter. *)
Definition refersToFilter (filterId q : jsstring) (a a' : list Attr) : Prop :=
  q = js "image" → getAttribute (js "filter") a' = Some (filterReference filterId).

Definition textRedacted (s s' : jsstring) : Prop := s' = redactText s.

(** A later state of a tree during the redaction. *)
Definition within (filterId : jsstring) : Node → Node → Prop :=
  related (attrsWithin filterId) textWithin.

(** A later state in which every text is redacted. *)
Definition redacted (filterId : jsstring) : Node → Node → Prop :=
  related (attrsWithin filterId) textRedacted.

(** The position, once the filter is installed, of the node that was at
    [p]: a new [defs] shifts the children of the root by one. *)
Definition relocate (filterId : jsstring) (doc : Node) (p : path) : path :=
  match appendToFirst isDefs (blurFilter filterId) doc with
  | Some _ => p
  | None =>
      match p with
      | [] => []
      | i :: p' => S i :: p'
      end
  end.

(** Two nodes of the same kind, name, attributes and text. *)
Definition sameLabel (n m : Node) : Prop :=
  match n, m with
  | Elem q a _, Elem q' a' _ => q = q' ∧ a = a'
  | Text s, Text s' => s = s'
  | Other t d, Other t' d' => t = t' ∧ d = d'
  | _, _ => False
  end.

(** The paths selected below the children [l], the first of which is the
    child of position [i]. *)
Fixpoint selectPathsFrom (P : Node → bool) (i : nat) (l : list Node) : list path :=
  match l with
  | [] => []
  | c :: l' => List.map (cons i) (selectPaths P c) ++ selectPathsFrom P (S i) l'
  end.

(** [appendToFirst] over a list of children. *)
Fixpoint appendInChildren (P : Node → bool) (new : Node) (l : list Node)
    : option (list Node) :=
  match l with
  | [] => None
  | c :: l' =>
      match appendToFirst P new c with
      | Some c' => Some (c' :: l')
      | None => cons c <$> appendInChildren P new l'
      end
  end.

Section RedactionOutcome.
Context {host : Host}.

(** The images of a redacted element refer to the filter: the element
    itself when it is an image, every image below it otherwise. *)
Definition blurredUnder (filterId : jsstring) (c : Node) : Prop :=
  match c with
  | Elem q a _ =>
      if eqStr (toLowerCase q) (js "image")
      then getAttribute (js "filter") a = Some (filterReference filterId)
      else forall y q2 a2 ch2,
             y ≠ [] → getAt y c = Some (Elem q2 a2 ch2) → q2 = js "image" →
             getAttribute (js "filter") a2 = Some (filterReference filterId)
  | _ => True
  end.

(** The outcome of the redaction at the tagged element [o] of the tree with
    the filter installed, in the state [d]. *)
Definition redactedAt (filterId : jsstring) (p : path) (o d : Node) : Prop :=
  exists c, getAt p d = Some c ∧ redacted filterId o c ∧ blurredUnder filterId c.

End RedactionOutcome.

(** ** The state of the application component and its handlers

    The state hooks of the application component as one record, and each
    handler as the state it leaves. [handleDrop] and [handleFileInput] are
    the handlers of the drop zone, with the callbacks the application
    passes to it ([onLoadingStart] sets the loading flag, [onFilesLoaded]
    is [handleFilesLoaded]). *)

Module AppState.

Record BookState := mkState {
  pages : list ProcessedPage;
  spreadIndex : Z;
  hasCover : bool;
  useSpacer : bool;
  isLoading : bool
}.

(** [useState] initial values. *)
Definition initial : BookState := mkState [] 0 true true false.

Definition totalSpreads (st : BookState) : Z :=
  App.totalSpreads (pages st) (hasCover st) (useSpacer st).

Definition handleFilesLoaded (newPages : list ProcessedPage) (st : BookState) : BookState :=
  mkState newPages 0 true true false.

Definition handlePrev (st : BookState) : BookState :=
  mkState (pages st) (Z.max 0 (spreadIndex st - 1)) (hasCover st) (useSpacer st)
          (isLoading st).

Definition handleNext (st : BookState) : BookState :=
  mkState (pages st) (Z.min (totalSpreads st - 1) (spreadIndex st + 1))
          (hasCover st) (useSpacer st) (isLoading st).

Definition handleReset (st : BookState) : BookState :=
  mkState [] 0 (hasCover st) (useSpacer st) (isLoading st).

Definition toggleCover (st : BookState) : BookState :=
  mkState (pages st) 0 (negb (hasCover st)) (useSpacer st) (isLoading st).

Definition toggleSpacer (st : BookState) : BookState :=
  mkState (pages st) (spreadIndex st) (hasCover st) (negb (useSpacer st))
          (isLoading st).

(** The listener of [keydown]. *)
Definition handleKeyDown (key : jsstring) (st : BookState) : BookState :=
  if eqStr key (js "ArrowRight") || eqStr key (js " ") then handleNext st
  else if eqStr key (js "ArrowLeft") then handlePrev st
  else st.

(** The [canGoPrev] and [canGoNext] properties of the controls. *)
Definition canGoPrev (st : BookState) : bool := 0 <? spreadIndex st.
Definition canGoNext (st : BookState) : bool := spreadIndex st <? totalSpreads st - 1.

(** The spread the reader component draws for the state. *)
Definition displayed (st : BookState) : BookReader.Displayed :=
  BookReader.displayedPages (pages st) (spreadIndex st) (hasCover st) (useSpacer st).

Definition onLoadingStart (st : BookState) : BookState :=
  mkState (pages st) (spreadIndex st) (hasCover st) (useSpacer st) true.

Section DropZone.
Context {host : Host}.

(** [handleDrop]: the loading flag is set, the items are processed, and
    the pages are handed over; a rejection is caught and reported, and
    nothing else is done. *)
Definition handleDrop (items : Items) (st : BookState) : BookState :=
  let st := onLoadingStart st in
  match processFiles items with
  | Ok pages => handleFilesLoaded pages st
  | Rejected _ => st
  end.

(** [handleFileInput]: the same on the files of the input element, when
    there are some. *)
Definition handleFileInput (files : option (list File)) (st : BookState) : BookState :=
  match files with
  | Some (f :: fs) =>
      let st := onLoadingStart st in
      match processFiles (FileList (f :: fs)) with
      | Ok pages => handleFilesLoaded pages st
      | Rejected _ => st
      end
  | _ => st
  end.

End DropZone.

End AppState.

(** [file] is the file of a file entry of the tree of [entry], reached
    through listings that are read. *)
Inductive FileOf : Entry → File → Prop :=
| file_of_entry file : FileOf (FileEntry (Ok file)) file
| file_of_child dirReader child file :
    Listed dirReader child → FileOf child file →
    FileOf (DirectoryEntry dirReader) file.


(** ** A host that parses and serializes

    A second concrete [Host], for an example that goes through the
    serializer and the parser. It is the example host but for the two:
    [serializeToString] writes a tree as [XMLSerializer] does when its
    elements and attributes are in no namespace (an element without
    children as an empty-element tag, attribute values between double
    quotes, the markup characters escaped; nodes other than elements and
    text are not written), and [parseFromString] reads the documents of
    [documents] from their serialization and throws on every other input. *)

Module SerializingHost.
Import ExampleHost.

(** The double quote. *)
Definition quot : jsstring := [34%N].

Definition escapeUnit (inAttribute : bool) (c : N) : jsstring :=
  if (c =? 38)%N then js "&amp;"
  else if (c =? 60)%N then js "&lt;"
  else if (c =? 62)%N then js "&gt;"
  else if inAttribute && (c =? 34)%N then js "&quot;"
  else if inAttribute && (c =? 9)%N then js "&#9;"
  else if inAttribute && (c =? 10)%N then js "&#10;"
  else if inAttribute && (c =? 13)%N then js "&#13;"
  else [c].

Definition escape (inAttribute : bool) (s : jsstring) : jsstring :=
  List.concat (List.map (escapeUnit inAttribute) s).

Definition serializeAttribute (a : Attr) : jsstring :=
  js " " ++ attrName a ++ js "=" ++ quot ++ escape true (attrValue a) ++ quot.

Fixpoint serialize (n : Node) : jsstring :=
  match n with
  | Elem q attrs children =>
      js "<" ++ q ++ List.concat (List.map serializeAttribute attrs) ++
      match children with
      | [] => js "/>"
      | _ :: _ =>
          js ">" ++ List.concat (List.map serialize children) ++ js "</" ++ q ++ js ">"
      end
  | Text s => escape false s
  | Other _ _ => []
  end.

(** A document of one image whose [href] is [value]. *)
Definition imageDocument (value : jsstring) : Node :=
  Elem (js "svg") [] [Elem (js "image") [mkAttr None (js "href") value] []].

(** The documents the parser knows. *)
Definition documents : list Node :=
  [imageDocument (js "url(a.png)");
   imageDocument (js "url(data:image/png;base64,xx/yy)")].

Definition parse (content : jsstring) : result Node :=
  match List.find (λ doc, eqStr (serialize doc) content) documents with
  | Some doc => Ok doc
  | None => Rejected (js "no parser for this document")
  end.

Definition serializingHost : Host := {|
  toLowerCase := lower;
  decodeURIComponent := decode;
  Number := toNumber;
  parseFloat := toFloat;
  localeCompare := naturalCompare;
  parseFromString := parse;
  serializeToString := serialize;
  random := λ _, js "k3x9q0z1a";
  randomUUID := λ k, js "page-" ++ [(48 + N.of_nat k)%N];
  createObjectURL := λ _ content, js "blob:" ++ content;
  completion := λ files, files
|}.

End SerializingHost.


(** * Properties *)

Import BookReader App.

(** ** Spread layout and spread count *)

Lemma ceilHalf_spec x : 2 * ceilHalf x - 1 <= x <= 2 * ceilHalf x.
Proof.
  unfold ceilHalf.
  pose proof (Z.div_mod (- x) 2 ltac:(lia)).
  pose proof (Z.mod_pos_bound (- x) 2 ltac:(lia)). lia.
Qed.

Lemma pageAt_is_Some pages i :
  is_Some (pageAt pages i) <-> 0 <= i < Z.of_nat (length pages).
Proof.
  unfold pageAt.
  destruct (Z.leb_spec 0 i), (Z.ltb_spec i (Z.of_nat (length pages))); simpl;
    try (split; [intros [? ?]; discriminate | lia]).
  split; [lia | intros _].
  apply lookup_lt_is_Some. lia.
Qed.

Lemma pageAt_None pages i :
  pageAt pages i = None <-> ~ (0 <= i < Z.of_nat (length pages)).
Proof.
  rewrite <- pageAt_is_Some, eq_None_not_Some. reflexivity.
Qed.

Lemma showsPage_true d :
  showsPage d = true <-> is_Some (left d) \/ is_Some (right d).
Proof.
  unfold showsPage, leftSlot, rightSlot.
  rewrite !is_Some_alt.
  destruct (left d), (right d); simpl;
    try destruct (truthy (leftIsSpacer d)); simpl; intuition congruence.
Qed.

Lemma showsPage_false d :
  showsPage d = false <-> left d = None /\ right d = None.
Proof.
  rewrite <- not_true_iff_false, showsPage_true, !eq_None_not_Some.
  tauto.
Qed.

(** The two fields of a content spread, by the index arithmetic alone. *)
Ltac layout_cases :=
  unfold displayedPages, totalSpreads; simpl;
  repeat match goal with
  | |- context [Z.eqb ?a ?b] => destruct (Z.eqb_spec a b); simpl
  | |- context [Z.ltb ?a ?b] => destruct (Z.ltb_spec a b); simpl
  end.

(** Apart from a book that consists of a cover alone and is laid out with
    cover and spacer, the closed-form count is exact: the spreads that show
    a page are those below it. *)
Lemma totalSpreads_exact pages hasCover useSpacer :
  ~ (length pages = 1%nat /\ hasCover = true /\ useSpacer = true) ->
  (forall spreadIndex, 0 <= spreadIndex < totalSpreads pages hasCover useSpacer ->
     showsPage (displayedPages pages spreadIndex hasCover useSpacer) = true) /\
  showsPage (displayedPages pages (totalSpreads pages hasCover useSpacer)
               hasCover useSpacer) = false.
Proof.
  intros Hex.
  pose proof (ceilHalf_spec (Z.of_nat (length pages))) as H0.
  pose proof (ceilHalf_spec (Z.of_nat (length pages) - 1)) as H1.
  pose proof (ceilHalf_spec (Z.of_nat (length pages) - 1 + 1)) as H2.
  pose proof (ceilHalf_spec (Z.of_nat (length pages) + 1)) as H3.
  split.
  - intros s Hs. apply showsPage_true. revert Hs.
    destruct hasCover, useSpacer; layout_cases; intros Hs;
      rewrite ?pageAt_is_Some; try lia;
      try (left; apply lookup_lt_is_Some; lia);
      try (right; apply lookup_lt_is_Some; lia).
  - apply showsPage_false.
    destruct hasCover, useSpacer; layout_cases;
      rewrite ?pageAt_None; try (split; [reflexivity || lia | reflexivity || lia]);
      try lia.
Qed.

(** C1, at the input where the count is off by one. A book of a single page
    laid out with cover and spacer is counted as two spreads, and the spread
    of index 1, which is below the count, shows a spacer on the left and
    nothing on the right: no slot of it holds a real page. *)
Theorem totalSpreads_cover_only_book (p : ProcessedPage) :
  totalSpreads [p] true true = 2 /\
  leftSlot (displayedPages [p] 1 true true) = SlotSpacer /\
  rightSlot (displayedPages [p] 1 true true) = SlotEmpty /\
  showsPage (displayedPages [p] 1 true true) = false.
Proof. repeat split. Qed.

(** The two layouts the specification works out by hand. *)
Example spreads_no_cover_no_spacer (p0 p1 p2 p3 : ProcessedPage) :
  let pages := [p0; p1; p2; p3] in
  displayedPages pages 0 false false = mkDisplayed (Some p0) (Some p1) (Some false) (Some false) /\
  displayedPages pages 1 false false = mkDisplayed (Some p2) (Some p3) (Some false) (Some false) /\
  totalSpreads pages false false = 2.
Proof. repeat split. Qed.

Example spreads_cover_spacer (p0 p1 p2 : ProcessedPage) :
  let pages := [p0; p1; p2] in
  displayedPages pages 0 true true = mkDisplayed None (Some p0) (Some true) (Some false) /\
  displayedPages pages 1 true true = mkDisplayed None (Some p1) (Some false) (Some true) /\
  displayedPages pages 2 true true = mkDisplayed (Some p2) None (Some false) (Some false) /\
  totalSpreads pages true true = 3.
Proof. repeat split. Qed.

Lemma page_pageAt pages i :
  SpreadSpec.page pages i =
  match pageAt pages i with Some p => SlotPage p | None => SlotEmpty end.
Proof.
  unfold SpreadSpec.page, pageAt.
  destruct ((0 <=? i) && (i <? Z.of_nat (length pages))); reflexivity.
Qed.

(** C2. On a non-empty page list and a spread index from 0 on, the slots
    [displayedPages] yields are the ones the slot formulas of the
    specification give: the cover rule, the two content rules under a cover,
    the two rules without a cover, and empty for every position outside
    [0, N). *)
Theorem displayedPages_slot_formulas pages spreadIndex hasCover useSpacer :
  pages <> [] ->
  0 <= spreadIndex ->
  let d := displayedPages pages spreadIndex hasCover useSpacer in
  SpreadSpec.mkSpread (leftSlot d) (rightSlot d) (truthy (isCoverView d)) =
  SpreadSpec.spread pages spreadIndex hasCover useSpacer.
Proof.
  intros Hne Hs d. subst d.
  assert (Hlen : Z.of_nat (length pages) <> 0) by (destruct pages; simpl in *; [congruence | lia]).
  unfold SpreadSpec.spread. rewrite !page_pageAt.
  unfold displayedPages, leftSlot, rightSlot.
  destruct (Z.eqb_spec (Z.of_nat (length pages)) 0) as [|_]; [contradiction|].
  destruct hasCover, useSpacer; simpl.
  - destruct (Z.eqb_spec spreadIndex 0) as [->|Hs0]; simpl.
    + destruct pages; [contradiction | reflexivity].
    + replace (1 + 2 * (spreadIndex - 1) - 1) with (1 + (spreadIndex - 1) * 2 - 1) by lia.
      replace (1 + 2 * (spreadIndex - 1)) with (1 + (spreadIndex - 1) * 2) by lia.
      destruct (Z.eqb_spec (1 + (spreadIndex - 1) * 2 - 1) 0); simpl; reflexivity.
  - destruct (Z.eqb_spec spreadIndex 0) as [->|Hs0]; simpl.
    + destruct pages; [contradiction | reflexivity].
    + replace (1 + 2 * (spreadIndex - 1)) with (1 + (spreadIndex - 1) * 2) by lia.
      reflexivity.
  - replace (2 * spreadIndex) with (spreadIndex * 2) by lia.
    destruct (Z.ltb_spec (spreadIndex * 2 - 1) 0); simpl; [|reflexivity].
    rewrite (proj2 (pageAt_None pages (spreadIndex * 2 - 1))) by lia. reflexivity.
  - replace (2 * spreadIndex) with (spreadIndex * 2) by lia. reflexivity.
Qed.

Lemma displayedPages_slot_formulas_witness :
  let pages := [mkPage [] [] [] 0 NaN NaN; mkPage [] [] [] 1 NaN NaN] in
  let d := displayedPages pages 1 true true in
  SpreadSpec.mkSpread (leftSlot d) (rightSlot d) (truthy (isCoverView d)) =
  SpreadSpec.spread pages 1 true true.
Proof.
  intros pages.
  apply (displayedPages_slot_formulas pages 1 true true); [discriminate | lia].
Defined.

(** ** Filename extraction *)

Lemma split_nonempty sep s : split sep s <> [].
Proof.
  destruct s as [|c s]; simpl; [discriminate|].
  destruct (sep c); [discriminate|].
  destruct (split sep s); discriminate.
Qed.

(** The first piece of a split: the code units before the first separator. *)
Lemma split_hd sep s :
  exists post,
    s = List.hd [] (split sep s) ++ post /\
    Forall (fun c => sep c = false) (List.hd [] (split sep s)) /\
    (post = [] \/ exists c post', post = c :: post' /\ sep c = true).
Proof.
  induction s as [|c s (post & Heq & Hall & Hpost)]; simpl.
  - exists []. auto.
  - destruct (sep c) eqn:Hc; simpl.
    + exists (c :: s). split; [reflexivity|]. split; [constructor|].
      right. exists c, s. auto.
    + pose proof (split_nonempty sep s).
      destruct (split sep s) as [|p ps]; [contradiction|]. simpl in *.
      exists post. split; [congruence|]. split; [constructor; assumption | assumption].
Qed.

(** The last piece of a split: the code units after the last separator. *)
Lemma split_last sep s :
  exists pre,
    s = pre ++ List.last (split sep s) [] /\
    Forall (fun c => sep c = false) (List.last (split sep s) []) /\
    (pre = [] /\ length (split sep s) = 1%nat \/
     (exists pre' c, pre = pre' ++ [c] /\ sep c = true) /\
     (1 < length (split sep s))%nat).
Proof.
  induction s as [|c s (pre & Heq & Hall & Hpre)]; simpl.
  - exists []. auto.
  - pose proof (split_nonempty sep s) as Hne.
    destruct (split sep s) as [|p ps] eqn:Hsp; [contradiction|].
    destruct (sep c) eqn:Hc.
    + exists (c :: pre).
      change (List.last ([] :: p :: ps) []) with (List.last (p :: ps) []).
      split; [rewrite <- app_comm_cons; f_equal; exact Heq|]. split; [assumption|].
      right. split; [|simpl; lia].
      destruct Hpre as [[-> _]|[(pre' & c' & -> & Hc') _]].
      * exists [], c. auto.
      * exists (c :: pre'), c'. auto.
    + destruct ps as [|p' ps].
      * destruct Hpre as [[-> _]|[_ Hlen]]; [|simpl in Hlen; lia].
        simpl in *. subst s. exists []. repeat split; auto.
      * change (List.last ((c :: p) :: p' :: ps) []) with (List.last (p' :: ps) []).
        change (List.last (p :: p' :: ps) []) with (List.last (p' :: ps) []) in *.
        destruct Hpre as [[_ Hlen]|[(pre' & c' & -> & Hc') _]]; [simpl in Hlen; lia|].
        exists (c :: pre' ++ [c']).
        split; [rewrite <- !app_comm_cons; f_equal; exact Heq|].
        split; [assumption|]. right. split; [|simpl; lia].
        exists (c :: pre'), c'. auto.
Qed.

(** C10. [getFilenameFromPath] is a total function from strings to strings.
    On the empty string, on a value that starts with [data:] and on one
    that starts with [http://] or [https://] it is the empty string. On
    every other input it works on one segment of the path: what follows the
    last [/] or [\], cut before its first [?] or [#]. The result is the
    decoding of that segment when [decodeURIComponent] succeeds, and the
    segment itself, undecoded, when [decodeURIComponent] throws. *)
Theorem getFilenameFromPath_total {host : Host} (path : jsstring) :
  (path = [] \/ startsWith (js "data:") path = true \/
   startsWith (js "http://") path = true \/ startsWith (js "https://") path = true ->
   getFilenameFromPath path = []) /\
  (path <> [] -> startsWith (js "data:") path = false ->
   startsWith (js "http://") path = false -> startsWith (js "https://") path = false ->
   exists pre seg post,
     path = pre ++ seg ++ post /\
     (pre = [] \/ exists pre' c, pre = pre' ++ [c] /\ isPathSeparator c = true) /\
     Forall (fun c => isPathSeparator c = false) (seg ++ post) /\
     Forall (fun c => isQueryOrHash c = false) seg /\
     (post = [] \/ exists c post', post = c :: post' /\ isQueryOrHash c = true) /\
     (forall decoded, decodeURIComponent seg = Ok decoded ->
        getFilenameFromPath path = decoded) /\
     (forall reason, decodeURIComponent seg = Rejected reason ->
        getFilenameFromPath path = seg)).
Proof.
  unfold getFilenameFromPath. split.
  - intros [->|[H|[H|H]]]; [reflexivity|..];
      destruct (nonEmpty path); simpl; rewrite ?H, ?orb_true_r; reflexivity.
  - intros Hne Hd Hh Hs. rewrite Hd, Hh, Hs.
    assert (nonEmpty path = true) as -> by (destruct path; [contradiction | reflexivity]).
    simpl.
    destruct (split_last isPathSeparator path) as (pre & Heq & Hall & Hpre).
    destruct (split_hd isQueryOrHash (List.last (split isPathSeparator path) []))
      as (post & Heq' & Hall' & Hpost).
    set (seg := List.hd [] (split isQueryOrHash (List.last (split isPathSeparator path) []))) in *.
    exists pre, seg, post. split; [congruence|].
    split; [destruct Hpre as [[? _]|[? _]]; auto|].
    split; [rewrite <- Heq'; assumption|].
    split; [assumption|]. split; [assumption|].
    split; intros ? ->; reflexivity.
Qed.

Example getFilenameFromPath_examples :
  let host := ExampleHost.exampleHost in
  getFilenameFromPath (js "images/my%20logo.png?v=1#top") = js "my logo.png" /\
  getFilenameFromPath (js "..\assets\Photo.JPG") = js "Photo.JPG" /\
  getFilenameFromPath (js "fonts/100%.woff") = js "100%.woff" /\
  getFilenameFromPath (js "https://example.org/a.png") = [] /\
  getFilenameFromPath [] = [].
Proof. vm_compute. repeat split. Qed.

Lemma getFilenameFromPath_total_witness :
  let host := ExampleHost.exampleHost in
  getFilenameFromPath (js "data:image/png;base64,AAAA") = [].
Proof.
  intros host.
  exact (proj1 (getFilenameFromPath_total (js "data:image/png;base64,AAAA"))
           (or_intror (or_introl eq_refl))).
Defined.

(** ** The two registry lookups *)

Section LookupFacts.
Context {host : Host}.

(** A hit of the secondary pass is the hit of the attribute pass: the
    lookups share their first two strategies. *)
Lemma lookupCssUrl_hit reg filename :
  truthyStr (lookupCssUrl reg filename) = true ->
  lookupAttribute reg filename = lookupCssUrl reg filename.
Proof.
  unfold lookupCssUrl, lookupAttribute, orElse.
  destruct (truthyStr (assetMap reg !! filename)) eqn:He; simpl.
  - rewrite He. reflexivity.
  - intros ->. reflexivity.
Qed.

(** Where the secondary pass misses, the attribute pass goes on to the
    decoded filename. *)
Lemma lookupAttribute_after_miss reg filename :
  truthyStr (lookupCssUrl reg filename) = false ->
  lookupAttribute reg filename =
  match decodeURIComponent filename with
  | Ok decoded =>
      orElse (assetMap reg !! decoded) (assetMapLower reg !! toLowerCase decoded)
  | Rejected _ => assetMapLower reg !! toLowerCase filename
  end.
Proof.
  unfold lookupCssUrl, lookupAttribute, orElse.
  destruct (truthyStr (assetMap reg !! filename)) eqn:He; simpl.
  - congruence.
  - intros ->. reflexivity.
Qed.

End LookupFacts.

(** C5, at an input on which the two passes differ. The registry holds the
    asset [my image.png]; the reference is [my%2520image.png], whose
    extracted filename [my%20image.png] still carries an escape. The
    attribute pass finds the asset by its third strategy, the decoded exact
    match; the pass over [url(...)] stops after the lowercase match and
    finds nothing. *)
Theorem css_lookup_stops_before_decoding :
  let host := ExampleHost.exampleHost in
  let data := js "data:image/png;base64,AAAA" in
  let reg := mkRegistry {[ js "my image.png" := data ]} {[ js "my image.png" := data ]} in
  let value := js "my%2520image.png" in
  getFilenameFromPath value = js "my%20image.png" /\
  lookupAttribute reg (getFilenameFromPath value) = Some data /\
  lookupCssUrl reg (getFilenameFromPath value) = None.
Proof. vm_compute. auto. Qed.

(** ** Dimension extraction *)

Section DimensionFacts.
Context {host : Host}.

(** C4, as amended. The [viewBox] has precedence: when it has four
    components and its third and fourth are truthy (neither zero nor NaN),
    they are the dimensions, whatever [width] and [height] say. In every
    other case (no [viewBox] or an empty one, a number of components other
    than four, a zero or NaN width or height) each of the [width] and
    [height] attributes that is present replaces its dimension by its
    [parseFloat], and a dimension without attribute keeps the component of
    the [viewBox], or zero. Last, each dimension that is falsy becomes its
    default, 595 for the width and 842 for the height. A root without
    [viewBox], [width] and [height] gets 595 by 842. *)
Theorem dimensions_precedence (svgElement : Node) :
  let attrs := attributes svgElement in
  let box :=
    if truthyStr (getAttribute (js "viewBox") attrs) then
      match viewBoxParts (default [] (getAttribute (js "viewBox") attrs)) with
      | [_; _; w; h] => (w, h)
      | _ => (zero, zero)
      end
    else (zero, zero) in
  let fromAttribute name kept :=
    if truthyStr (getAttribute name attrs)
    then parseFloat (default [] (getAttribute name attrs)) else kept in
  (falsyNum box.1 = false -> falsyNum box.2 = false ->
   pageDimensions svgElement = box) /\
  (falsyNum box.1 = true \/ falsyNum box.2 = true ->
   pageDimensions svgElement =
   defaultDimensions (fromAttribute (js "width") box.1,
                      fromAttribute (js "height") box.2)) /\
  (getAttribute (js "viewBox") attrs = None ->
   getAttribute (js "width") attrs = None ->
   getAttribute (js "height") attrs = None ->
   pageDimensions svgElement = (Fin 595, Fin 842)).
Proof.
  intros attrs box fromAttribute.
  assert (Hbox : extractDimensions svgElement =
                 if falsyNum box.1 || falsyNum box.2
                 then (fromAttribute (js "width") box.1, fromAttribute (js "height") box.2)
                 else box).
  { unfold extractDimensions. fold attrs. subst box fromAttribute. cbv zeta.
    destruct (truthyStr (getAttribute (js "viewBox") attrs)); [|reflexivity].
    destruct (viewBoxParts (default [] (getAttribute (js "viewBox") attrs)))
      as [|a [|b [|c [|d [|e l]]]]]; reflexivity. }
  unfold pageDimensions. rewrite Hbox. repeat split.
  - intros H1 H2. rewrite H1, H2. simpl.
    unfold defaultDimensions. rewrite H1, H2. destruct box; reflexivity.
  - intros H. assert (falsyNum box.1 || falsyNum box.2 = true) as ->; [|reflexivity].
    apply orb_true_iff. exact H.
  - intros Hv Hw Hh. subst box fromAttribute. cbv zeta. rewrite Hv, Hw, Hh. reflexivity.
Qed.

End DimensionFacts.

(** C4 as the specification words it fails on a [viewBox] with negative
    width and height: they are truthy, so the transformer keeps them and
    does not fall back to the [width] and [height] attributes. *)
Lemma negative_viewBox_is_kept :
  let host := ExampleHost.exampleHost in
  let svgElement :=
    Elem (js "svg")
         [mkAttr None (js "viewBox") (js "0 0 -5 -5");
          mkAttr None (js "width") (js "100");
          mkAttr None (js "height") (js "200")] [] in
  viewBoxParts (js "0 0 -5 -5") = [Fin 0; Fin 0; Fin (-5); Fin (-5)] /\
  parseFloat (js "100") = Fin 100 /\ parseFloat (js "200") = Fin 200 /\
  pageDimensions svgElement = (Fin (-5), Fin (-5)) /\
  pageDimensions svgElement <> (Fin 100, Fin 200).
Proof. vm_compute. repeat split; discriminate. Qed.

Lemma dimensions_precedence_witness :
  let host := ExampleHost.exampleHost in
  pageDimensions
    (Elem (js "svg") [mkAttr None (js "viewBox") (js "0 0 210 297");
                      mkAttr None (js "width") (js "100")] [])
  = (Fin 210, Fin 297) /\
  pageDimensions
    (Elem (js "svg") [mkAttr None (js "viewBox") (js "0 0 210 0");
                      mkAttr None (js "width") (js "100")] [])
  = (Fin 100, Fin 842) /\
  pageDimensions (Elem (js "svg") [] []) = (Fin 595, Fin 842).
Proof.
  intros host. split; [|split].
  - exact (proj1 (dimensions_precedence
      (Elem (js "svg") [mkAttr None (js "viewBox") (js "0 0 210 297");
                        mkAttr None (js "width") (js "100")] [])) eq_refl eq_refl).
  - exact (proj1 (proj2 (dimensions_precedence
      (Elem (js "svg") [mkAttr None (js "viewBox") (js "0 0 210 0");
                        mkAttr None (js "width") (js "100")] [])))
      (or_intror eq_refl)).
  - exact (proj2 (proj2 (dimensions_precedence (Elem (js "svg") [] [])))
             eq_refl eq_refl eq_refl).
Defined.

(** ** The asset registry *)

Section RegistryFacts.
Context {host : Host}.

Lemma registerAsset_Ok reg file :
  registerAsset reg file =
  Ok (match dataURL file with
      | Ok dataUrl =>
          mkRegistry (<[fileName file := dataUrl]> (assetMap reg))
                     (<[toLowerCase (fileName file) := dataUrl]> (assetMapLower reg))
      | Rejected _ => reg
      end).
Proof. unfold registerAsset, readFileAsDataURL. destruct (dataURL file); reflexivity. Qed.

(** What [registerAll] does to the registry it starts from. *)
Lemma registerAll_spec assetFiles : forall reg,
  exists reg',
    registerAll reg assetFiles = Ok reg' /\
    registerAll reg (List.filter readable assetFiles) = Ok reg' /\
    (forall file, file ∈ assetFiles -> readable file = true ->
       is_Some (assetMap reg' !! fileName file) /\
       is_Some (assetMapLower reg' !! toLowerCase (fileName file))) /\
    (forall key, is_Some (assetMap reg !! key) -> is_Some (assetMap reg' !! key)) /\
    (forall key, is_Some (assetMapLower reg !! key) -> is_Some (assetMapLower reg' !! key)) /\
    (forall key dataUrl, assetMap reg' !! key = Some dataUrl ->
       assetMap reg !! key = Some dataUrl \/
       exists file, file ∈ assetFiles /\ dataURL file = Ok dataUrl /\ fileName file = key) /\
    (forall key dataUrl, assetMapLower reg' !! key = Some dataUrl ->
       assetMapLower reg !! key = Some dataUrl \/
       exists file, file ∈ assetFiles /\ dataURL file = Ok dataUrl /\
                    toLowerCase (fileName file) = key).
Proof.
  induction assetFiles as [|file rest IH]; intros reg.
  - exists reg. split; [reflexivity|]. split; [reflexivity|].
    split; [intros f Hf; inversion Hf|]. repeat split; auto.
  - simpl registerAll at 1. rewrite registerAsset_Ok. simpl.
    unfold readable at 1.
    destruct (dataURL file) as [dataUrl|err] eqn:Hread; simpl.
    + rewrite registerAsset_Ok, Hread. simpl.
      destruct (IH (mkRegistry (<[fileName file := dataUrl]> (assetMap reg))
                     (<[toLowerCase (fileName file) := dataUrl]> (assetMapLower reg))))
        as (reg' & Hall & Hfil & Hin & Hkeep & HkeepL & Hfrom & HfromL).
      simpl in *. exists reg'. split; [assumption|]. split; [assumption|].
      split; [|split; [|split; [|split]]].
      * intros f Hf Hr. apply elem_of_cons in Hf as [->|Hf]; [|auto].
        split; [apply Hkeep | apply HkeepL]; rewrite lookup_insert_eq; eauto.
      * intros key Hk. apply Hkeep.
        rewrite lookup_insert. case_decide; eauto.
      * intros key Hk. apply HkeepL.
        rewrite lookup_insert. case_decide; eauto.
      * intros key url Hk. destruct (Hfrom key url Hk) as [Hold|(f & Hf & Hd & Hn)].
        -- rewrite lookup_insert in Hold. case_decide.
           ++ right. exists file. split; [left|]. split; congruence.
           ++ left. assumption.
        -- right. exists f. split; [right; assumption | auto].
      * intros key url Hk. destruct (HfromL key url Hk) as [Hold|(f & Hf & Hd & Hn)].
        -- rewrite lookup_insert in Hold. case_decide.
           ++ right. exists file. split; [left|]. split; congruence.
           ++ left. assumption.
        -- right. exists f. split; [right; assumption | auto].
    + destruct (IH reg) as (reg' & Hall & Hfil & Hin & Hkeep & HkeepL & Hfrom & HfromL).
      exists reg'. split; [assumption|]. split; [assumption|].
      split; [|split; [|split; [|split]]]; auto.
      * intros f Hf Hr. apply elem_of_cons in Hf as [->|Hf]; [|auto].
        unfold readable in Hr. rewrite Hread in Hr. discriminate.
      * intros key url Hk. destruct (Hfrom key url Hk) as [Hold|(f & Hf & Hd & Hn)]; auto.
        right. exists f. split; [right; assumption | auto].
      * intros key url Hk. destruct (HfromL key url Hk) as [Hold|(f & Hf & Hd & Hn)]; auto.
        right. exists f. split; [right; assumption | auto].
Qed.

Lemma buildRegistry_Ok assetFiles : exists reg, buildRegistry assetFiles = Ok reg.
Proof.
  destruct (registerAll_spec assetFiles emptyRegistry) as (reg & Hall & _).
  exists reg. exact Hall.
Qed.

(** C8. The registry build never fails, whatever reads fail. Its result is
    the registry built from the assets that were read alone: an asset whose
    read failed adds no entry to either map. Every asset that was read is a
    key of both maps (its name in one, its lowercased name in the other),
    and every entry of the maps is the data of an asset that was read under
    that key. *)
Theorem registry_build_is_lenient (assetFiles : list File) :
  exists reg,
    buildRegistry assetFiles = Ok reg /\
    buildRegistry (List.filter readable assetFiles) = Ok reg /\
    (forall file, file ∈ assetFiles -> readable file = true ->
       is_Some (assetMap reg !! fileName file) /\
       is_Some (assetMapLower reg !! toLowerCase (fileName file))) /\
    (forall key dataUrl, assetMap reg !! key = Some dataUrl ->
       exists file, file ∈ assetFiles /\ dataURL file = Ok dataUrl /\ fileName file = key) /\
    (forall key dataUrl, assetMapLower reg !! key = Some dataUrl ->
       exists file, file ∈ assetFiles /\ dataURL file = Ok dataUrl /\
                    toLowerCase (fileName file) = key).
Proof.
  unfold buildRegistry.
  destruct (registerAll_spec assetFiles emptyRegistry)
    as (reg & Hall & Hfil & Hin & _ & _ & Hfrom & HfromL).
  exists reg. repeat split; try assumption; try (apply Hin; assumption).
  - intros key url Hk. destruct (Hfrom key url Hk) as [Hold|?]; [|assumption].
    simpl in Hold. rewrite lookup_empty in Hold. discriminate.
  - intros key url Hk. destruct (HfromL key url Hk) as [Hold|?]; [|assumption].
    simpl in Hold. rewrite lookup_empty in Hold. discriminate.
Qed.

End RegistryFacts.

(** ** Fatal errors *)

Lemma bind_Ok {A B} (m : result A) (f : A -> result B) b :
  m ≫= f = Ok b -> exists a, m = Ok a /\ f a = Ok b.
Proof. destruct m; simpl; [eauto | discriminate]. Qed.

Lemma bind_Rejected {A B} (m : result A) (f : A -> result B) err :
  m = Rejected err -> m ≫= f = Rejected err.
Proof. intros ->. reflexivity. Qed.

(** [traverseFileTree] on a directory, in the form of the source: the
    entries are read, then each is traversed in turn. *)
Lemma traverseAll_app l1 l2 :
  traverseAll (l1 ++ l2) =
  files ← traverseAll l1; more ← traverseAll l2; Ok (files ++ more).
Proof.
  induction l1 as [|c l1 IHl]; simpl.
  - destruct (traverseAll l2); reflexivity.
  - destruct (traverseFileTree c); simpl; [|reflexivity].
    rewrite IHl. destruct (traverseAll l1); simpl; [|reflexivity].
    destruct (traverseAll l2); simpl; [|reflexivity].
    rewrite app_assoc. reflexivity.
Qed.

Lemma traverseFileTree_directory dirReader :
  traverseFileTree (DirectoryEntry dirReader) =
  entries ← readAllEntries dirReader; traverseAll entries.
Proof.
  simpl traverseFileTree.
  match goal with
  | |- _ ≫= (λ _, ?f dirReader) = _ => set (overBatches := f)
  end.
  assert (Hob : forall reader entries,
             readAllEntries reader = Ok entries -> overBatches reader = traverseAll entries).
  { induction reader as [|[[|e es]|err] rest IH]; simpl; intros entries Hread;
      try (injection Hread as <-; reflexivity); try discriminate.
    apply bind_Ok in Hread as (more & Hmore & Heq). injection Heq as <-.
    rewrite (IH more Hmore).
    change (e :: es ++ more) with ((e :: es) ++ more). rewrite traverseAll_app.
    reflexivity. }
  destruct (readAllEntries dirReader) as [entries|err] eqn:Hread; simpl; [|reflexivity].
  apply Hob. assumption.
Qed.

Lemma readAllEntries_fails {A} (dirReader : list (result (list A))) :
  ListingFails dirReader -> exists err, readAllEntries dirReader = Rejected err.
Proof.
  induction 1 as [err rest|e es rest _ IH]; simpl; [eauto|].
  destruct IH as [err ->]. eauto.
Qed.

Lemma readAllEntries_listed {A} (dirReader : list (result (list A))) child entries :
  Listed dirReader child -> readAllEntries dirReader = Ok entries -> child ∈ entries.
Proof.
  intros HL. revert entries.
  induction HL as [e es rest child Hin|e es rest child _ IH]; simpl; intros entries Hread;
    apply bind_Ok in Hread as (more & Hmore & Heq); injection Heq as <-.
  - change (e :: es ++ more) with ((e :: es) ++ more). apply elem_of_app. auto.
  - change (e :: es ++ more) with ((e :: es) ++ more). apply elem_of_app. auto.
Qed.

Lemma traverseAll_fails entries child :
  child ∈ entries -> (exists err, traverseFileTree child = Rejected err) ->
  exists err, traverseAll entries = Rejected err.
Proof.
  intros Hin [err Hc].
  induction Hin as [child entries|child c entries _ IH]; simpl.
  - rewrite Hc. eauto.
  - destruct (traverseFileTree c); simpl; [|eauto].
    destruct (IH Hc) as [err' ->]. eauto.
Qed.

Lemma traverseFileTree_fails entry :
  TraversalFails entry -> exists err, traverseFileTree entry = Rejected err.
Proof.
  induction 1 as [err|dirReader HL|dirReader child HL _ IH].
  - simpl. eauto.
  - rewrite traverseFileTree_directory.
    destruct (readAllEntries_fails _ HL) as [err ->]. eauto.
  - rewrite traverseFileTree_directory.
    destruct (readAllEntries dirReader) as [entries|err] eqn:Hread; simpl; [|eauto].
    apply (traverseAll_fails entries child); [|assumption].
    eapply readAllEntries_listed; eassumption.
Qed.

Lemma collectItems_entry items item entry :
  item ∈ items -> webkitGetAsEntry item = Some entry ->
  entry ∈ (collectItems items).1.
Proof.
  induction 1 as [item items|item i items _ IH]; intros He; simpl.
  - destruct (collectItems items). rewrite He. left.
  - specialize (IH He). destruct (collectItems items) as [entries allFiles].
    destruct (webkitGetAsEntry i); [right; assumption|].
    destruct (eqStr (kind i) (js "file")); [|assumption].
    destruct (getAsFile i); assumption.
Qed.

Section PipelineFacts.
Context {host : Host}.

Lemma processSvgFiles_fails reg svgFiles file : forall k,
  file ∈ svgFiles -> isOk (text file) = false ->
  exists err, processSvgFiles reg k svgFiles = Rejected err.
Proof.
  intros k Hin Hread. revert k.
  induction Hin as [file rest|file f rest _ IH]; intros k; simpl.
  - unfold processSvg. destruct (text file); [discriminate|]. simpl. eauto.
  - destruct (processSvg reg k f); simpl; [|eauto].
    destruct (IH Hread (S k)) as [err ->]. eauto.
Qed.

(** C7. When the traversal of a dropped entry meets a failure (the read of
    a file entry or a directory listing fails), and when the content of a
    document cannot be read, [processFiles] rejects: it hands no page list
    to its caller, neither whole nor partial. *)
Theorem fatal_errors_reject_the_ingestion (items : Items) :
  (exists list item entry,
     items = DataTransferItemList list /\ item ∈ list /\
     webkitGetAsEntry item = Some entry /\ TraversalFails entry) \/
  (exists allFiles file,
     collectFiles items = Ok allFiles /\ file ∈ allFiles /\
     isHidden file = false /\ isSvg file = true /\ isOk (text file) = false) ->
  exists err, processFiles items = Rejected err.
Proof.
  intros [(list & item & entry & -> & Hin & He & Hfail)
         |(allFiles & file & Hcollect & Hin & Hhid & Hsvg & Hread)];
    unfold processFiles.
  - simpl collectFiles.
    pose proof (collectItems_entry list item entry Hin He) as Hentry.
    destruct (collectItems list) as [entries direct]. simpl in Hentry.
    destruct (traverseAll_fails entries entry Hentry (traverseFileTree_fails _ Hfail))
      as [err ->].
    simpl. eauto.
  - rewrite Hcollect. simpl.
    set (kept := List.filter (λ f, negb (isHidden f)) allFiles).
    destruct (buildRegistry_Ok (completion (List.filter (λ f, negb (isSvg f)) kept)))
      as (reg & ->). simpl.
    destruct (processSvgFiles_fails reg (List.filter isSvg kept) file O) as [err ->];
      [|assumption|simpl; eauto].
    apply list_elem_of_In, filter_In. split; [|assumption].
    apply filter_In. split; [apply list_elem_of_In; assumption|].
    rewrite Hhid. reflexivity.
Qed.

End PipelineFacts.

Lemma fatal_errors_reject_the_ingestion_witness :
  let host := ExampleHost.exampleHost in
  let page := mkFile (js "page1.svg") (js "image/svg+xml") (Ok (js "<svg/>")) (Ok []) in
  let folder := DirectoryEntry [Ok [FileEntry (Ok page)]; Rejected (js "NotReadableError")] in
  exists err,
    processFiles (DataTransferItemList [mkItem (Some folder) (js "file") None])
    = Rejected err.
Proof.
  intros host page folder.
  apply fatal_errors_reject_the_ingestion. left.
  exists [mkItem (Some folder) (js "file") None], (mkItem (Some folder) (js "file") None), folder.
  split; [reflexivity|]. split; [left|]. split; [reflexivity|].
  apply listing_fails, listing_fails_later, listing_fails_now.
Defined.

(** ** The page sequencer *)

Section SortFacts.
Context {A : Type} (compare : A -> A -> Z).

Hypothesis compare_total : forall a b, compare a b <= 0 \/ compare b a <= 0.

Lemma insertSorted_Permutation x l : Permutation (insertSorted compare x l) (x :: l).
Proof.
  induction l as [|y l IH]; simpl; [reflexivity|].
  destruct (compare x y <=? 0); [reflexivity|].
  rewrite IH. apply perm_swap.
Qed.

Lemma sort_Permutation l : Permutation (sort compare l) l.
Proof.
  induction l as [|x l IH]; simpl; [reflexivity|].
  rewrite insertSorted_Permutation, IH. reflexivity.
Qed.

Lemma insertSorted_Sorted x l :
  Sorted (inOrder compare) l -> Sorted (inOrder compare) (insertSorted compare x l).
Proof.
  induction 1 as [|y l Hs IH Hhd]; simpl; [repeat constructor|].
  destruct (Z.leb_spec (compare x y) 0) as [Hle|Hgt].
  - repeat constructor; assumption.
  - constructor; [assumption|].
    destruct l as [|z l]; simpl.
    + constructor. destruct (compare_total y x); [assumption|lia].
    + destruct (compare x z <=? 0); constructor.
      * destruct (compare_total y x); [assumption|lia].
      * inversion Hhd. assumption.
Qed.

Lemma sort_Sorted l : Sorted (inOrder compare) (sort compare l).
Proof.
  induction l as [|x l IH]; simpl; [constructor|].
  apply insertSorted_Sorted. exact IH.
Qed.

Hypothesis compare_trans :
  forall a b c, compare a b <= 0 -> compare b c <= 0 -> compare a c <= 0.

Lemma sort_StronglySorted l : StronglySorted (inOrder compare) (sort compare l).
Proof.
  apply Sorted_StronglySorted; [|apply sort_Sorted].
  intros a b c. apply compare_trans.
Qed.

End SortFacts.

Lemma imap_setIndex_from (l : list ProcessedPage) : forall k,
  List.map index (imap (λ i, setIndex (k + i)) l) = List.map Z.of_nat (seq k (length l)) /\
  List.map name (imap (λ i, setIndex (k + i)) l) = List.map name l /\
  List.map (setIndex 0) (imap (λ i, setIndex (k + i)) l) = List.map (setIndex 0) l.
Proof.
  induction l as [|p l IH]; intros k; simpl; [auto|].
  rewrite Nat.add_0_r.
  destruct (IH (S k)) as (Hi & Hn & Hp).
  assert (Hext : imap ((λ i, setIndex (k + i)) ∘ S) l = imap (λ i, setIndex (S k + i)) l).
  { apply imap_ext. intros i x _. simpl. f_equal. lia. }
  rewrite Hext, Hi, Hn, Hp. auto.
Qed.

Lemma imap_setIndex (l : list ProcessedPage) :
  List.map index (imap setIndex l) = List.map Z.of_nat (seq 0 (length l)) /\
  List.map name (imap setIndex l) = List.map name l /\
  List.map (setIndex 0) (imap setIndex l) = List.map (setIndex 0) l.
Proof. exact (imap_setIndex_from l 0). Qed.

(** The comparator of the example host is consistent. *)
Module NaturalOrder.
Import ExampleHost.

Lemma compareKey_opp x y : compareKey x y = CompOpp (compareKey y x).
Proof.
  unfold compareKey.
  rewrite (N.compare_antisym y.1.1 x.1.1), (N.compare_antisym y.1.2 x.1.2).
  destruct (y.1.1 ?= x.1.1)%N; reflexivity.
Qed.

Lemma compareKey_Eq x y :
  compareKey x y = Eq -> x.1.1 = y.1.1 /\ x.1.2 = y.1.2.
Proof.
  unfold compareKey.
  destruct (N.compare_spec x.1.1 y.1.1); try discriminate.
  intros H2%N.compare_eq_iff. auto.
Qed.

Lemma compareKey_Eq_l x y z : compareKey x y = Eq -> compareKey x z = compareKey y z.
Proof. intros [H1 H2]%compareKey_Eq. unfold compareKey. rewrite H1, H2. reflexivity. Qed.

Lemma compareKey_Eq_r x y z : compareKey x y = Eq -> compareKey z x = compareKey z y.
Proof. intros [H1 H2]%compareKey_Eq. unfold compareKey. rewrite H1, H2. reflexivity. Qed.

Lemma compareKey_Lt_trans x y z :
  compareKey x y = Lt -> compareKey y z = Lt -> compareKey x z = Lt.
Proof.
  unfold compareKey.
  destruct (N.compare_spec x.1.1 y.1.1), (N.compare_spec y.1.1 z.1.1),
           (N.compare_spec x.1.1 z.1.1); try discriminate; try lia;
    rewrite ?N.compare_lt_iff; try lia; try reflexivity.
Qed.

Lemma compareKeys_opp a : forall b, compareKeys a b = CompOpp (compareKeys b a).
Proof.
  induction a as [|x a IH]; intros [|y b]; simpl; try reflexivity.
  rewrite (compareKey_opp y x), IH.
  destruct (compareKey x y); reflexivity.
Qed.

Lemma compareKeys_trans a : forall b c,
  compareKeys a b <> Gt -> compareKeys b c <> Gt -> compareKeys a c <> Gt.
Proof.
  induction a as [|x a IH]; intros [|y b] [|z c]; simpl; try congruence.
  destruct (compareKey x y) eqn:Hxy; try congruence.
  - rewrite (compareKey_Eq_l x y z Hxy).
    destruct (compareKey y z); try congruence. apply IH.
  - destruct (compareKey y z) eqn:Hyz; try congruence.
    + rewrite <- (compareKey_Eq_r y z x Hyz), Hxy. congruence.
    + rewrite (compareKey_Lt_trans x y z Hxy Hyz). congruence.
Qed.

Lemma naturalCompare_le a b : naturalCompare a b <= 0 <-> compareKeys (keys a) (keys b) <> Gt.
Proof.
  unfold naturalCompare. destruct (compareKeys (keys a) (keys b)); split; try lia; congruence.
Qed.

Lemma naturalCompare_total a b : naturalCompare a b <= 0 \/ naturalCompare b a <= 0.
Proof.
  rewrite !naturalCompare_le, (compareKeys_opp (keys b) (keys a)).
  destruct (compareKeys (keys a) (keys b)); simpl; [left|left|right]; congruence.
Qed.

Lemma naturalCompare_trans a b c :
  naturalCompare a b <= 0 -> naturalCompare b c <= 0 -> naturalCompare a c <= 0.
Proof. rewrite !naturalCompare_le. apply compareKeys_trans. Qed.

End NaturalOrder.

(** C3. For every host whose comparator is consistent (any two names are
    comparable, and the order is transitive), the page sequencer returns
    the records it was given, in the order of the comparator on their
    names, with the indices 0 to N-1 in that order. On the comparator of
    the example host, which compares digit runs by value and letters
    without case, the names page10.svg, page2.svg, page1.svg come out as
    page1.svg, page2.svg, page10.svg with the indices 0, 1, 2. *)
Theorem pages_are_sequenced :
  (forall (host : Host),
     (forall a b, localeCompare a b <= 0 \/ localeCompare b a <= 0) ->
     (forall a b c, localeCompare a b <= 0 -> localeCompare b c <= 0 ->
                    localeCompare a c <= 0) ->
     forall processedPages,
       let sequenced := sequencePages processedPages in
       StronglySorted (inOrder localeCompare) (List.map name sequenced) /\
       List.map index sequenced = List.map Z.of_nat (seq 0 (length processedPages)) /\
       Permutation (List.map (setIndex 0) sequenced)
                   (List.map (setIndex 0) processedPages)) /\
  (let host := ExampleHost.exampleHost in
   let page n := mkPage [] (js n) [] 0 (Fin 595) (Fin 842) in
   List.map (λ p, (name p, index p))
     (sequencePages [page "page10.svg"%string; page "page2.svg"%string;
                     page "page1.svg"%string])
   = [(js "page1.svg", 0); (js "page2.svg", 1); (js "page10.svg", 2)]).
Proof.
  split; [|vm_compute; reflexivity].
  intros host Htotal Htrans pages sequenced. subst sequenced. unfold sequencePages.
  destruct (imap_setIndex (sort comparePages pages)) as (Hi & Hn & Hp).
  assert (Hlen : length (sort comparePages pages) = length pages)
    by (apply Permutation_length, sort_Permutation).
  rewrite Hi, Hn, Hp, Hlen. split; [|split; [reflexivity|]].
  - assert (Hs : StronglySorted (inOrder comparePages) (sort comparePages pages)).
    { apply sort_StronglySorted; intros; unfold comparePages; eauto. }
    clear Hi Hn Hp Hlen. revert Hs. generalize (sort comparePages pages) as l.
    induction 1 as [|p l _ IH Hall]; simpl; constructor; [assumption|].
    apply Forall_map. exact Hall.
  - apply Permutation_map, sort_Permutation.
Qed.

Lemma pages_are_sequenced_witness :
  let host := ExampleHost.exampleHost in
  let page n := mkPage [] (js n) [] 0 (Fin 595) (Fin 842) in
  let pages := [page "b2.svg"%string; page "B10.svg"%string; page "a.svg"%string] in
  StronglySorted (inOrder localeCompare) (List.map name (sequencePages pages)) /\
  List.map index (sequencePages pages) = [0; 1; 2] /\
  Permutation (List.map (setIndex 0) (sequencePages pages))
              (List.map (setIndex 0) pages).
Proof.
  intros host page pages.
  exact (proj1 pages_are_sequenced host
           NaturalOrder.naturalCompare_total NaturalOrder.naturalCompare_trans pages).
Defined.

(** ** The pass over [url(...)]: the matcher *)

Lemma stripPrefix_Some p : forall s r, stripPrefix p s = Some r <-> s = p ++ r.
Proof.
  induction p as [|a p IH]; intros [|b s] r; simpl.
  - split; congruence.
  - split; congruence.
  - split; [discriminate | intros H; discriminate].
  - destruct (N.eqb_spec a b) as [->|Hne].
    + rewrite IH. split; [intros ->; reflexivity | congruence].
    + split; [discriminate | congruence].
Qed.

Lemma stripPrefix_app p r : stripPrefix p (p ++ r) = Some r.
Proof. apply stripPrefix_Some. reflexivity. Qed.

Lemma startsWith_app p r : startsWith p (p ++ r) = true.
Proof. unfold startsWith. rewrite stripPrefix_app. reflexivity. Qed.

Lemma startsWith_true p s : startsWith p s = true <-> exists r, s = p ++ r.
Proof.
  unfold startsWith. destruct (stripPrefix p s) as [r|] eqn:H.
  - apply stripPrefix_Some in H. split; eauto.
  - split; [discriminate|]. intros [r ->]. rewrite stripPrefix_app in H. discriminate.
Qed.

Lemma stripPrefix_None p s : stripPrefix p s = None <-> startsWith p s = false.
Proof. unfold startsWith. destruct (stripPrefix p s); split; congruence. Qed.

(** Whether [s] starts with [p] is decided by the first [length p] units. *)
Lemma startsWith_take p : forall s t,
  take (length p) s = take (length p) t -> startsWith p s = startsWith p t.
Proof.
  unfold startsWith.
  induction p as [|a p IH]; intros s t H; simpl; [reflexivity|].
  destruct s as [|b s], t as [|c t]; simpl in *; try discriminate; try reflexivity.
  injection H as -> H. destruct (a =? c)%N; [|reflexivity]. apply IH. exact H.
Qed.

Lemma closingFree_app closing a b x :
  closingFree closing (a ++ b) x = closingFree closing a (b ++ x) && closingFree closing b x.
Proof.
  induction a as [|c a IH]; simpl; [reflexivity|].
  rewrite IH, <- !app_assoc, andb_assoc. reflexivity.
Qed.

Lemma lazyUntil_Some closing : forall s u rest,
  lazyUntil closing s = Some (u, rest) ->
  s = u ++ closing ++ rest /\
  forallb (λ c, negb (isLineTerminator c)) u = true /\
  closingFree closing u (closing ++ rest) = true.
Proof.
  induction s as [|c s IH]; intros u rest; simpl.
  - destruct (stripPrefix closing []) as [r|] eqn:Hp; [|discriminate].
    intros [= <- <-]. apply stripPrefix_Some in Hp. auto.
  - destruct (stripPrefix closing (c :: s)) as [r|] eqn:Hp.
    + intros [= <- <-]. apply stripPrefix_Some in Hp. auto.
    + destruct (isLineTerminator c) eqn:Hlt; [discriminate|].
      destruct (lazyUntil closing s) as [[u' rest']|] eqn:Hl; [|discriminate].
      intros [= <- <-]. destruct (IH u' rest' eq_refl) as (-> & Hall & Hfree).
      simpl. rewrite Hlt, Hall, Hfree. simpl.
      apply stripPrefix_None in Hp. rewrite Hp. auto.
Qed.

Lemma lazyUntil_intro closing u rest :
  forallb (λ c, negb (isLineTerminator c)) u = true ->
  closingFree closing u (closing ++ rest) = true ->
  lazyUntil closing (u ++ closing ++ rest) = Some (u, rest).
Proof.
  induction u as [|c u IH]; simpl.
  - intros _ _. destruct (closing ++ rest) eqn:He; simpl;
      rewrite <- He, stripPrefix_app; reflexivity.
  - intros [Hc Hall]%andb_true_iff [Hp Hfree]%andb_true_iff.
    apply negb_true_iff, stripPrefix_None in Hp. simpl in Hp. rewrite Hp.
    apply negb_true_iff in Hc. rewrite Hc, (IH Hall Hfree). reflexivity.
Qed.

Lemma lazyUntil_None_app closing pre x :
  forallb (λ c, negb (isLineTerminator c)) pre = true ->
  closingFree closing pre x = true ->
  lazyUntil closing x = None ->
  lazyUntil closing (pre ++ x) = None.
Proof.
  induction pre as [|c pre IH]; simpl; [auto|].
  intros [Hc Hall]%andb_true_iff [Hp Hfree]%andb_true_iff Hx.
  apply negb_true_iff, stripPrefix_None in Hp. simpl in Hp. rewrite Hp.
  apply negb_true_iff in Hc. rewrite Hc, (IH Hall Hfree Hx). reflexivity.
Qed.

Lemma lazyUntil_None_inv closing pre x :
  forallb (λ c, negb (isLineTerminator c)) pre = true ->
  lazyUntil closing (pre ++ x) = None ->
  closingFree closing pre x = true /\ lazyUntil closing x = None.
Proof.
  induction pre as [|c pre IH]; simpl; [auto|].
  intros [Hc Hall]%andb_true_iff.
  destruct (stripPrefix closing (c :: pre ++ x)) eqn:Hp; [discriminate|].
  apply negb_true_iff in Hc. rewrite Hc.
  destruct (lazyUntil closing (pre ++ x)) as [[? ?]|] eqn:Hl; [discriminate|].
  intros _. destruct (IH Hall eq_refl) as [Hfree Hx].
  apply stripPrefix_None in Hp. simpl. rewrite Hp, Hfree. auto.
Qed.

Lemma closingFree_indep closing pre z x y :
  (length closing <= S (length z))%nat ->
  closingFree closing pre (z ++ x) = closingFree closing pre (z ++ y).
Proof.
  intros Hlen. induction pre as [|c pre IH]; simpl; [reflexivity|].
  rewrite IH. f_equal. f_equal. apply startsWith_take.
  assert (Hcut : forall w, take (length closing) (c :: pre ++ z ++ w)
                           = take (length closing) (c :: pre ++ z)).
  { intros w. change (c :: pre ++ z ++ w) with ((c :: pre) ++ z ++ w).
    rewrite app_assoc. apply take_app_le. simpl. rewrite length_app. lia. }
  rewrite !Hcut. reflexivity.
Qed.

Lemma matchUrl_Some s quote url rest :
  matchUrl s = Some (quote, url, rest) ->
  s = urlText quote url ++ rest /\ isQuoteGroup quote = true /\
  forallb (λ c, negb (isLineTerminator c)) url = true.
Proof.
  unfold matchUrl, urlText.
  destruct (stripPrefix (js "url(") s) as [s1|] eqn:Hp; [|discriminate].
  apply stripPrefix_Some in Hp. subst s.
  assert (Hun : match lazyUntil closeParen s1 with
                | Some (u, rest) => Some ([], u, rest)
                | None => None
                end = Some (quote, url, rest) ->
                js "url(" ++ s1 = (js "url(" ++ quote ++ url ++ quote ++ closeParen) ++ rest /\
                isQuoteGroup quote = true /\
                forallb (λ c, negb (isLineTerminator c)) url = true).
  { destruct (lazyUntil closeParen s1) as [[u r]|] eqn:Hl; [|discriminate].
    intros [= <- <- <-]. apply lazyUntil_Some in Hl as (-> & Hall & _).
    rewrite <- !app_assoc. auto. }
  destruct s1 as [|c s2]; [exact Hun|].
  destruct (isQuote c) eqn:Hq; [|exact Hun].
  destruct (lazyUntil (c :: closeParen) s2) as [[u r]|] eqn:Hl; [|exact Hun].
  intros [= <- <- <-]. apply lazyUntil_Some in Hl as (-> & Hall & _).
  simpl. rewrite Hq. rewrite <- !app_assoc. auto.
Qed.

Section Replacement.
Variable callback : jsstring -> jsstring -> jsstring.

Lemma replaceFrom_skip s : forall k,
  replaceFrom callback k s = replaceFrom callback O (drop k s).
Proof.
  induction s as [|c s IH]; intros [|k]; try reflexivity.
  simpl replaceFrom at 1. rewrite IH. reflexivity.
Qed.

(** The scan in the form of the source: after a match it goes on with what
    follows the match. *)
Lemma replaceFrom_unfold c s :
  replaceFrom callback O (c :: s) =
  match matchUrl (c :: s) with
  | Some (quote, url, rest) => callback quote url ++ replaceFrom callback O rest
  | None => c :: replaceFrom callback O s
  end.
Proof.
  simpl replaceFrom.
  destruct (matchUrl (c :: s)) as [[[quote url] rest]|] eqn:Hm; [|reflexivity].
  rewrite replaceFrom_skip. f_equal.
  apply matchUrl_Some in Hm as (Heq & _ & _).
  remember (urlText quote url) as pre eqn:Hpre.
  destruct pre as [|c' pre']; [unfold urlText in Hpre; discriminate|].
  simpl in Heq. injection Heq as -> ->.
  match goal with
  | |- context [drop ?k _] =>
      replace k with (length pre') by (simpl; rewrite ?length_app; lia)
  end.
  rewrite drop_app_length. reflexivity.
Qed.

End Replacement.

Lemma js_url : js "url(" = [117; 114; 108; 40]%N.
Proof. reflexivity. Qed.

Lemma isQuote_cases c : isQuote c = true -> c = 39%N \/ c = 34%N.
Proof.
  unfold isQuote. intros [H|H]%orb_true_iff; apply N.eqb_eq in H; auto.
Qed.

Lemma isQuoteGroup_cases quote :
  isQuoteGroup quote = true ->
  quote = [] \/ exists c, quote = [c] /\ isQuote c = true.
Proof. destruct quote as [|c [|d l]]; simpl; eauto; discriminate. Qed.

Lemma startsWith_cons a p b s :
  startsWith (a :: p) (b :: s) = (a =? b)%N && startsWith p s.
Proof. unfold startsWith. cbn [stripPrefix]. destruct (a =? b)%N; reflexivity. Qed.

Lemma startsWith_nil s : startsWith [] s = true.
Proof. reflexivity. Qed.

(** A closing starts with a quote or with the parenthesis. *)
Lemma closing_first quote d y :
  isQuoteGroup quote = true -> isQuote d = false -> d <> 41%N ->
  startsWith (quote ++ closeParen) (d :: y) = false.
Proof.
  intros [->|(c & -> & Hc)]%isQuoteGroup_cases Hd Hne;
    unfold closeParen; cbn [app]; rewrite startsWith_cons.
  - destruct (N.eqb_spec 41 d); [congruence | reflexivity].
  - destruct (N.eqb_spec c d); [congruence | reflexivity].
Qed.

Lemma plainUnit_spec c :
  plainUnit c = true ->
  isQuote c = false /\ c <> 41%N /\ isLineTerminator c = false.
Proof.
  unfold plainUnit. intros [[H1 H2]%andb_true_iff H3]%andb_true_iff.
  apply negb_true_iff in H1, H2, H3. apply N.eqb_neq in H2. auto.
Qed.

Lemma plain_closingFree quote value x :
  isQuoteGroup quote = true -> forallb plainUnit value = true ->
  closingFree (quote ++ closeParen) value x = true.
Proof.
  intros Hq. induction value as [|d value IH]; simpl; [reflexivity|].
  intros [Hd Hall]%andb_true_iff. apply plainUnit_spec in Hd as (H1 & H2 & _).
  rewrite (closing_first quote d _ Hq H1 H2), (IH Hall). reflexivity.
Qed.

Lemma plain_noLineTerminator value :
  forallb plainUnit value = true ->
  forallb (λ c, negb (isLineTerminator c)) value = true.
Proof.
  induction value as [|d value IH]; simpl; [reflexivity|].
  intros [Hd Hall]%andb_true_iff. apply plainUnit_spec in Hd as (_ & _ & ->).
  rewrite (IH Hall). reflexivity.
Qed.

Lemma quoteGroup_noLineTerminator quote :
  isQuoteGroup quote = true ->
  forallb (λ c, negb (isLineTerminator c)) quote = true.
Proof.
  intros [->|(c & -> & [->| ->]%isQuote_cases)]%isQuoteGroup_cases; reflexivity.
Qed.

Lemma urlText_noLineTerminator quote url :
  isQuoteGroup quote = true ->
  forallb (λ c, negb (isLineTerminator c)) url = true ->
  forallb (λ c, negb (isLineTerminator c)) (urlText quote url) = true.
Proof.
  intros Hq Hu. unfold urlText.
  rewrite !forallb_app, Hu, (quoteGroup_noLineTerminator quote Hq). reflexivity.
Qed.

(** A text that ends with the parenthesis is free of a closing or not
    whatever follows it. *)
Lemma closingFree_end quote a x y :
  isQuoteGroup quote = true ->
  closingFree (quote ++ closeParen) (a ++ closeParen) x = true ->
  closingFree (quote ++ closeParen) (a ++ closeParen) y = true.
Proof.
  intros Hq. rewrite !closingFree_app.
  intros [Ha Hend]%andb_true_iff.
  rewrite (closingFree_indep _ a closeParen y x), Ha;
    [|destruct (isQuoteGroup_cases quote Hq) as [->|(c & -> & _)]; simpl; lia].
  destruct (isQuoteGroup_cases quote Hq) as [->|(c & -> & Hc)].
  - discriminate Hend.
  - simpl. unfold startsWith. simpl.
    destruct (isQuote_cases c Hc) as [-> | ->]; reflexivity.
Qed.

(** The text of a match is free of a closing when the original text was and
    the second group is kept or replaced by a safe value. *)
Lemma closingFree_urlText quote quote' url url' x y :
  isQuoteGroup quote = true -> isQuoteGroup quote' = true ->
  url' = url \/ safe url' = true ->
  closingFree (quote ++ closeParen) (urlText quote' url) x = true ->
  closingFree (quote ++ closeParen) (urlText quote' url') y = true.
Proof.
  intros Hq Hq' [->|Hsafe] Hfree.
  - unfold urlText in *. rewrite !app_assoc in *.
    eapply closingFree_end; eassumption.
  - apply andb_true_iff in Hsafe as [Hne Hplain].
    destruct (isQuoteGroup_cases quote Hq) as [->|(c0 & -> & Hc0)].
    + exfalso. unfold urlText in Hfree. rewrite !app_assoc, closingFree_app in Hfree.
      apply andb_true_iff in Hfree as [_ Hend]. discriminate Hend.
    + unfold urlText in *. rewrite js_url in *.
      rewrite !closingFree_app in *.
      apply andb_true_iff in Hfree as [_ Hfree].
      apply andb_true_iff in Hfree as [_ Hfree].
      apply andb_true_iff in Hfree as [_ Hfree].
      apply andb_true_iff in Hfree as [Hsecond _].
      rewrite (plain_closingFree [c0] url' _ Hq Hplain).
      assert (Hurl : closingFree ([c0] ++ closeParen) [117; 114; 108; 40]%N
                       ((quote' ++ url' ++ quote' ++ closeParen) ++ y) = true).
      { simpl. unfold startsWith. simpl.
        destruct (isQuote_cases c0 Hc0) as [-> | ->]; reflexivity. }
      rewrite Hurl. simpl.
      destruct (isQuoteGroup_cases quote' Hq') as [->|(c & -> & Hc)]; simpl.
      * unfold startsWith. simpl.
        destruct (isQuote_cases c0 Hc0) as [-> | ->]; reflexivity.
      * simpl in Hsecond. rewrite andb_true_r in Hsecond.
        apply negb_true_iff in Hsecond. unfold startsWith in *. simpl in *.
        destruct url' as [|d url']; [discriminate|]. simpl in Hplain.
        apply andb_true_iff in Hplain as [Hd _].
        apply plainUnit_spec in Hd as (_ & Hd & _). simpl.
        destruct (N.eqb_spec c0 c) as [->|Hne'].
        -- discriminate Hsecond.
        -- destruct (isQuote_cases c0 Hc0) as [-> | ->]; reflexivity.
Qed.

(** ** The pass over [url(...)]: a second run *)

Section SecondRun.
Variable callback : jsstring -> jsstring -> jsstring.

(** The callback returns the text of the match with its second group kept
    or replaced by a safe value, and keeps what it has returned. *)
Hypothesis callback_spec : forall quote url,
  isQuoteGroup quote = true ->
  exists url',
    callback quote url = urlText quote url' /\
    (url' = url \/ safe url' = true) /\
    callback quote url' = urlText quote url'.

Local Abbreviation R := (replaceFrom callback O).

Lemma urlText_take quote url rest k :
  (k <= 4)%nat -> take k (urlText quote url ++ rest) = take k (js "url(").
Proof.
  intros Hk. unfold urlText. rewrite <- app_assoc.
  apply take_app_le. rewrite js_url. simpl. lia.
Qed.

Lemma replaced_take s : forall k, (k <= 4)%nat -> take k (R s) = take k s.
Proof.
  induction s as [|c s IH]; intros k Hk; [reflexivity|].
  rewrite replaceFrom_unfold.
  destruct (matchUrl (c :: s)) as [[[quote url] rest]|] eqn:Hm.
  - apply matchUrl_Some in Hm as (-> & Hq & _).
    destruct (callback_spec quote url Hq) as (url' & -> & _).
    rewrite !urlText_take by assumption. reflexivity.
  - destruct k as [|k]; [reflexivity|]. simpl. rewrite IH by lia. reflexivity.
Qed.

Lemma replaced_startsWith p s :
  (length p <= 4)%nat -> startsWith p (R s) = startsWith p s.
Proof. intros Hp. apply startsWith_take, replaced_take, Hp. Qed.

Lemma matchUrl_head c s : c <> 117%N -> matchUrl (c :: s) = None.
Proof.
  intros Hc. unfold matchUrl. rewrite js_url. cbn [stripPrefix].
  destruct (N.eqb_spec 117 c); [congruence | reflexivity].
Qed.

(** Where no closing is met on the line, none is after the replacement. *)
Lemma replaced_keeps_None quote :
  isQuoteGroup quote = true ->
  forall s, lazyUntil (quote ++ closeParen) s = None ->
            lazyUntil (quote ++ closeParen) (R s) = None.
Proof.
  intros Hq s. remember (length s) as n eqn:Hn. revert s Hn.
  induction n as [n IH] using lt_wf_ind. intros [|c s] Hn Hnone; [exact Hnone|].
  rewrite replaceFrom_unfold.
  destruct (matchUrl (c :: s)) as [[[quote' url] rest]|] eqn:Hm.
  - apply matchUrl_Some in Hm as (Heq & Hq' & Hurl).
    destruct (callback_spec quote' url Hq') as (url' & -> & Hurl' & _).
    rewrite Heq in Hnone, Hn.
    apply lazyUntil_None_inv in Hnone as [Hfree Hrest];
      [|apply urlText_noLineTerminator; assumption].
    apply lazyUntil_None_app.
    + apply urlText_noLineTerminator; [assumption|].
      destruct Hurl' as [->|[_ Hplain]%andb_true_iff]; [assumption|].
      apply plain_noLineTerminator, Hplain.
    + eapply closingFree_urlText; eassumption.
    + apply (IH (length rest)); [|reflexivity|assumption].
      rewrite Hn, length_app. unfold urlText. rewrite !length_app, js_url. simpl. lia.
  - simpl in Hnone |- *.
    assert (Hsw : startsWith (quote ++ closeParen) (c :: R s) = false).
    { replace (c :: R s) with (R (c :: s)) by (rewrite replaceFrom_unfold, Hm; reflexivity).
      rewrite replaced_startsWith.
      - apply stripPrefix_None.
        destruct (stripPrefix (quote ++ closeParen) (c :: s)); [discriminate | reflexivity].
      - destruct (isQuoteGroup_cases quote Hq) as [->|(c0 & -> & _)]; simpl; lia. }
    apply stripPrefix_None in Hsw. rewrite Hsw.
    destruct (stripPrefix (quote ++ closeParen) (c :: s)); [discriminate|].
    destruct (isLineTerminator c); [reflexivity|].
    destruct (lazyUntil (quote ++ closeParen) s) as [[? ?]|] eqn:Hl; [discriminate|].
    rewrite (IH (length s)); [reflexivity|simpl in Hn; lia|reflexivity|assumption].
Qed.

Lemma replaced_cons a s : a <> 117%N -> R (a :: s) = a :: R s.
Proof. intros Ha. rewrite replaceFrom_unfold, matchUrl_head by assumption. reflexivity. Qed.

(** A position without match has none after the replacement. *)
Lemma matchUrl_None_replaced c s :
  matchUrl (c :: s) = None -> matchUrl (c :: R s) = None.
Proof.
  intros Hm.
  assert (HR : R (c :: s) = c :: R s) by (rewrite replaceFrom_unfold, Hm; reflexivity).
  unfold matchUrl in *.
  destruct (stripPrefix (js "url(") (c :: s)) as [s1|] eqn:Hp.
  - apply stripPrefix_Some in Hp. rewrite js_url in Hp. injection Hp as -> ->.
    do 3 rewrite replaced_cons by discriminate.
    change (117 :: 114 :: 108 :: 40 :: R s1)%N with (js "url(" ++ R s1).
    rewrite stripPrefix_app.
    assert (Hun : lazyUntil closeParen s1 = None).
    { destruct (lazyUntil closeParen s1) as [[? ?]|]; [|reflexivity].
      destruct s1 as [|c2 s2]; [discriminate|].
      destruct (isQuote c2); [|discriminate].
      destruct (lazyUntil (c2 :: closeParen) s2) as [[? ?]|]; discriminate. }
    pose proof (replaced_keeps_None [] eq_refl s1 Hun) as HunR.
    change ([] ++ closeParen) with closeParen in HunR. rewrite HunR.
    destruct s1 as [|c2 s2]; [reflexivity|].
    destruct (isQuote c2) eqn:Hc2.
    + rewrite replaceFrom_unfold, matchUrl_head
        by (destruct (isQuote_cases c2 Hc2) as [-> | ->]; discriminate).
      rewrite Hc2.
      destruct (lazyUntil (c2 :: closeParen) s2) as [[? ?]|] eqn:Hl; [discriminate|].
      pose proof (replaced_keeps_None [c2] Hc2 s2 Hl) as HlR.
      change ([c2] ++ closeParen) with (c2 :: closeParen) in HlR.
      rewrite HlR. reflexivity.
    + pose proof (replaced_take (c2 :: s2) 1 ltac:(lia)) as Hhd.
      destruct (R (c2 :: s2)) as [|c3 s3]; [reflexivity|].
      simpl in Hhd. injection Hhd as ->. rewrite Hc2. reflexivity.
  - apply stripPrefix_None in Hp. rewrite <- HR.
    assert (Hsw : startsWith (js "url(") (R (c :: s)) = false)
      by (rewrite replaced_startsWith; [assumption | rewrite js_url; simpl; lia]).
    apply stripPrefix_None in Hsw. rewrite Hsw. reflexivity.
Qed.

(** A match is a match after the replacement, of the group it was given. *)
Lemma matchUrl_Some_replaced s quote url rest url' :
  matchUrl s = Some (quote, url, rest) ->
  url' = url \/ safe url' = true ->
  matchUrl (urlText quote url' ++ R rest) = Some (quote, url', R rest).
Proof.
  intros Hm Hurl'.
  assert (Hlt' : forallb (λ c, negb (isLineTerminator c)) url = true ->
                 forallb (λ c, negb (isLineTerminator c)) url' = true).
  { destruct Hurl' as [->|[_ Hplain]%andb_true_iff]; [auto|].
    intros _. apply plain_noLineTerminator, Hplain. }
  assert (Hfree' : forall q, isQuoteGroup q = true ->
            closingFree (q ++ closeParen) url ((q ++ closeParen) ++ rest) = true ->
            closingFree (q ++ closeParen) url' ((q ++ closeParen) ++ R rest) = true).
  { intros q Hq Hfree. destruct Hurl' as [->|[_ Hplain]%andb_true_iff].
    - rewrite (closingFree_indep _ url (q ++ closeParen) (R rest) rest); [assumption|].
      rewrite length_app. simpl. lia.
    - apply plain_closingFree; assumption. }
  unfold matchUrl in *. unfold urlText. rewrite <- !app_assoc, stripPrefix_app.
  destruct (stripPrefix (js "url(") s) as [s1|] eqn:Hp; [|discriminate]. clear Hp.
  assert (Hun : lazyUntil closeParen s1 = Some (url, rest) -> quote = [] ->
            match url' ++ closeParen ++ R rest with
            | c :: s2 => isQuote c = false \/ lazyUntil (c :: closeParen) s2 = None
            | [] => True
            end ->
            matchUrl (js "url(" ++ url' ++ closeParen ++ R rest) = Some ([], url', R rest)).
  { intros Hl -> Hhead. apply lazyUntil_Some in Hl as (-> & Hlt & Hfree).
    unfold matchUrl. rewrite stripPrefix_app.
    rewrite (lazyUntil_intro closeParen url' (R rest) (Hlt' Hlt) (Hfree' [] eq_refl Hfree)).
    destruct (url' ++ closeParen ++ R rest) as [|c s2]; [reflexivity|].
    destruct Hhead as [-> | ->]; [reflexivity|].
    destruct (isQuote c); reflexivity. }
  assert (Hsafe : safe url' = true ->
            match url' ++ closeParen ++ R rest with
            | c :: s2 => isQuote c = false \/ lazyUntil (c :: closeParen) s2 = None
            | [] => True
            end).
  { intros [Hne Hplain]%andb_true_iff. destruct url' as [|d url'']; [discriminate|].
    simpl in Hplain. apply andb_true_iff in Hplain as [Hd _].
    apply plainUnit_spec in Hd as (Hd & _ & _). simpl. auto. }
  destruct s1 as [|c s2].
  - destruct (lazyUntil closeParen []) as [[u r]|] eqn:Hl; [|discriminate]. discriminate Hl.
  - destruct (isQuote c) eqn:Hc.
    + destruct (lazyUntil (c :: closeParen) s2) as [[u r]|] eqn:Hl.
      * injection Hm as <- <- <-. apply lazyUntil_Some in Hl as (-> & Hlt & Hfree).
        change ([c] ++ url' ++ [c] ++ closeParen ++ R r)
          with (c :: url' ++ (c :: closeParen) ++ R r) at 1.
        cbn match. rewrite Hc.
        rewrite (lazyUntil_intro (c :: closeParen) url' (R r) (Hlt' Hlt)
                   (Hfree' [c] Hc Hfree)).
        reflexivity.
      * destruct (lazyUntil closeParen (c :: s2)) as [[u r]|] eqn:Hl2; [|discriminate].
        injection Hm as <- <- <-.
        change ([] ++ url' ++ [] ++ closeParen ++ R r) with (url' ++ closeParen ++ R r).
        apply (Hun eq_refl eq_refl). clear Hun.
        destruct Hurl' as [->|Hs]; [|apply Hsafe, Hs].
        apply lazyUntil_Some in Hl2 as (Heq & Hlt & _).
        destruct u as [|d u2].
        { simpl in Heq. injection Heq as -> _. discriminate Hc. }
        simpl in Heq. injection Heq as -> ->. simpl. right.
        simpl in Hlt. apply andb_true_iff in Hlt as [_ Hlt].
        change (u2 ++ 41%N :: r) with (u2 ++ closeParen ++ r) in Hl.
        change (u2 ++ 41%N :: R r) with (u2 ++ closeParen ++ R r).
        rewrite app_assoc in Hl |- *.
        apply lazyUntil_None_inv in Hl as [Hfree Hrest];
          [|rewrite forallb_app, Hlt; reflexivity].
        apply lazyUntil_None_app.
        -- rewrite forallb_app, Hlt. reflexivity.
        -- apply (closingFree_end [d] u2 r (R r) Hc Hfree).
        -- apply (replaced_keeps_None [d] Hc r Hrest).
    + destruct (lazyUntil closeParen (c :: s2)) as [[u r]|] eqn:Hl2; [|discriminate].
      injection Hm as <- <- <-.
      change ([] ++ url' ++ [] ++ closeParen ++ R r) with (url' ++ closeParen ++ R r).
      apply (Hun eq_refl eq_refl). clear Hun.
      destruct Hurl' as [->|Hs]; [|apply Hsafe, Hs].
      apply lazyUntil_Some in Hl2 as (Heq & _ & _).
      destruct u as [|d u2]; simpl in Heq |- *; injection Heq as -> _; auto.
Qed.

(** A second run of the replacement changes nothing. *)
Lemma replaceFrom_idempotent s : R (R s) = R s.
Proof.
  remember (length s) as n eqn:Hn. revert s Hn.
  induction n as [n IH] using lt_wf_ind. intros [|c s] Hn; [reflexivity|].
  rewrite (replaceFrom_unfold callback c s).
  destruct (matchUrl (c :: s)) as [[[quote url] rest]|] eqn:Hm.
  - pose proof (matchUrl_Some _ _ _ _ Hm) as (Heq & Hq & _).
    destruct (callback_spec quote url Hq) as (url' & -> & Hurl' & Hkeep).
    pose proof (matchUrl_Some_replaced _ _ _ _ url' Hm Hurl') as Hm'.
    destruct (urlText quote url' ++ R rest) as [|c' t] eqn:Ht;
      [unfold urlText in Ht; rewrite js_url in Ht; discriminate|].
    rewrite replaceFrom_unfold, Hm', Hkeep, <- Ht. f_equal.
    apply (IH (length rest)); [|reflexivity].
    rewrite Hn, Heq, length_app. unfold urlText. rewrite !length_app, js_url. simpl. lia.
  - rewrite replaceFrom_unfold, (matchUrl_None_replaced c s Hm). f_equal.
    apply (IH (length s)); [simpl in Hn; lia | reflexivity].
Qed.

End SecondRun.

(** ** Reference resolution: a second run *)

Lemma Node_induction (P : Node -> Prop) :
  (forall q a children, Forall P children -> P (Elem q a children)) ->
  (forall s, P (Text s)) ->
  (forall t d, P (Other t d)) ->
  forall n, P n.
Proof.
  intros HE HT HO.
  fix IH 1. intros [q a children|s|t d]; [|apply HT|apply HO].
  apply HE. induction children as [|c children IHc]; constructor; [apply IH | exact IHc].
Qed.

Section AttributeFacts.
Variables (P Q : Attr -> bool) (resolve : jsstring -> option jsstring).
Hypothesis P_byName : byName P.
Hypothesis Q_byName : byName Q.
Hypothesis resolve_once : forall v u, resolve v = Some u -> resolve u = None.

Lemma find_changeFirst_same value attrs :
  List.find P (changeFirst P value attrs) =
  (λ a, mkAttr (attrNS a) (attrName a) value) <$> List.find P attrs.
Proof.
  induction attrs as [|a attrs IH]; simpl; [reflexivity|].
  destruct (P a) eqn:Ha; simpl.
  - rewrite P_byName, Ha. reflexivity.
  - rewrite Ha. exact IH.
Qed.

Lemma find_changeFirst_other value attrs :
  match List.find Q (changeFirst P value attrs) with
  | Some b =>
      exists a, List.find Q attrs = Some a /\
                (b = a \/ b = mkAttr (attrNS a) (attrName a) value)
  | None => List.find Q attrs = None
  end.
Proof.
  induction attrs as [|a attrs IH]; simpl; [reflexivity|].
  destruct (P a) eqn:Ha; simpl.
  - rewrite Q_byName. destruct (Q a); [eauto|].
    destruct (List.find Q attrs); eauto.
  - destruct (Q a); [eauto|]. exact IH.
Qed.

Lemma rewriteFirst_settles attrs : settled P resolve (rewriteFirst P resolve attrs).
Proof.
  unfold settled, rewriteFirst.
  destruct (List.find P attrs) as [a|] eqn:Hf; [|rewrite Hf; exact I].
  destruct (resolve (attrValue a)) as [u|] eqn:Hr; [|rewrite Hf; exact Hr].
  rewrite find_changeFirst_same, Hf. simpl. eapply resolve_once, Hr.
Qed.

Lemma rewriteFirst_keeps_settled attrs :
  settled Q resolve attrs -> settled Q resolve (rewriteFirst P resolve attrs).
Proof.
  unfold settled at 2. unfold rewriteFirst. intros Hs.
  destruct (List.find P attrs) as [a|] eqn:Hf; [|exact Hs].
  destruct (resolve (attrValue a)) as [u|] eqn:Hr; [|exact Hs].
  pose proof (find_changeFirst_other u attrs) as Ho.
  destruct (List.find Q (changeFirst P u attrs)) as [b|]; [|exact I].
  destruct Ho as (a' & Ha' & [->| ->]).
  - unfold settled in Hs. rewrite Ha' in Hs. exact Hs.
  - simpl. eapply resolve_once, Hr.
Qed.

Lemma rewriteFirst_settled attrs :
  settled P resolve attrs -> rewriteFirst P resolve attrs = attrs.
Proof.
  unfold settled, rewriteFirst.
  destruct (List.find P attrs) as [a|]; [|reflexivity]. intros ->. reflexivity.
Qed.

End AttributeFacts.

Lemma hasName_byName name : byName (hasName name).
Proof. intros a v. reflexivity. Qed.

Lemma hasNameNS_byName ns local : byName (hasNameNS ns local).
Proof. intros a v. reflexivity. Qed.

Lemma find_existsb (P : Attr -> bool) attrs a :
  List.find P attrs = Some a -> List.existsb P attrs = true.
Proof.
  intros Hf. apply existsb_exists. exists a.
  apply find_some in Hf. exact Hf.
Qed.

Section ResolutionFacts.
Context {host : Host}.
Variable reg : Registry.
Hypothesis reg_embedded : registryEmbedded reg.

Lemma embedded_filename value : embedded value = true -> getFilenameFromPath value = [].
Proof.
  intros [Hd _]%andb_true_iff. unfold getFilenameFromPath.
  destruct (nonEmpty value); [|reflexivity]. simpl. rewrite Hd. reflexivity.
Qed.

Lemma embedded_safe value : embedded value = true -> safe value = true.
Proof.
  intros [Hd Hp]%andb_true_iff. unfold safe. rewrite Hp.
  apply startsWith_true in Hd as [r ->]. reflexivity.
Qed.

Lemma orElse_from (a b : option jsstring) v :
  orElse a b = Some v -> a = Some v \/ b = Some v.
Proof. unfold orElse. destruct (truthyStr a); auto. Qed.

Lemma lookupCssUrl_embedded filename value :
  lookupCssUrl reg filename = Some value -> embedded value = true.
Proof.
  unfold lookupCssUrl. intros [H|H]%orElse_from; eapply reg_embedded; eauto.
Qed.

Lemma lookupAttribute_embedded filename value :
  lookupAttribute reg filename = Some value -> embedded value = true.
Proof.
  unfold lookupAttribute. cbv zeta.
  destruct (truthyStr (assetMap reg !! filename)) eqn:H1; cbn [negb].
  - rewrite H1. cbn [negb]. intros H. eapply reg_embedded; eauto.
  - destruct (truthyStr (assetMapLower reg !! toLowerCase filename)) eqn:H2; cbn [negb].
    + intros H. eapply reg_embedded; eauto.
    + destruct (decodeURIComponent filename).
      * intros [H|H]%orElse_from; eapply reg_embedded; eauto.
      * intros H. eapply reg_embedded; eauto.
Qed.

Lemma resolveReference_embedded val value :
  resolveReference reg val = Some value -> embedded value = true.
Proof.
  unfold resolveReference.
  destruct (nonEmpty val); [|discriminate].
  destruct (nonEmpty (getFilenameFromPath val)); [|discriminate].
  destruct (truthyStr (lookupAttribute reg (getFilenameFromPath val))); [|discriminate].
  apply lookupAttribute_embedded.
Qed.

(** What was written is not resolved again. *)
Lemma resolveReference_once val value :
  resolveReference reg val = Some value -> resolveReference reg value = None.
Proof.
  intros He%resolveReference_embedded. unfold resolveReference.
  rewrite (embedded_filename value He). destruct (nonEmpty value); reflexivity.
Qed.

Lemma truthyStr_default (o : option jsstring) :
  truthyStr o = true -> o = Some (default [] o) /\ nonEmpty (default [] o) = true.
Proof. destruct o as [[|c s]|]; simpl; try discriminate. auto. Qed.

Lemma processAttribute_plain name attrs :
  processAttribute reg name None attrs =
  rewriteFirst (hasName name) (resolveReference reg) attrs.
Proof.
  unfold processAttribute, rewriteFirst, getAttribute, setAttribute, resolveReference.
  destruct (List.find (hasName name) attrs) as [a|] eqn:Hf; simpl; [|reflexivity].
  rewrite (find_existsb _ _ _ Hf).
  destruct (attrValue a) as [|c v] eqn:Hv; simpl; [reflexivity|].
  destruct (nonEmpty (getFilenameFromPath (c :: v))); simpl; [|reflexivity].
  destruct (truthyStr (lookupAttribute reg (getFilenameFromPath (c :: v)))) eqn:Ht;
    [|reflexivity].
  apply truthyStr_default in Ht as [Ht _]. rewrite Ht at 2. reflexivity.
Qed.

Lemma processAttribute_xlink attrs :
  processAttribute reg (js "href") (Some XLINK_NS) attrs =
  rewriteFirst (hasNameNS XLINK_NS (js "href")) (resolveReference reg) attrs.
Proof.
  unfold processAttribute, rewriteFirst, getAttributeNS, setAttributeNS, resolveReference.
  change (eqStr XLINK_NS XLINK_NS) with true. cbv iota.
  change (localName (js "xlink:href")) with (js "href").
  destruct (List.find (hasNameNS XLINK_NS (js "href")) attrs) as [a|] eqn:Hf; simpl;
    [|reflexivity].
  rewrite (find_existsb _ _ _ Hf).
  destruct (attrValue a) as [|c v] eqn:Hv; simpl; [reflexivity|].
  destruct (nonEmpty (getFilenameFromPath (c :: v))); simpl; [|reflexivity].
  destruct (truthyStr (lookupAttribute reg (getFilenameFromPath (c :: v)))) eqn:Ht;
    [|reflexivity].
  apply truthyStr_default in Ht as [Ht _]. rewrite Ht at 2. reflexivity.
Qed.

Lemma processElement_idempotent attrs :
  processElement reg (processElement reg attrs) = processElement reg attrs.
Proof.
  unfold processElement.
  rewrite !processAttribute_plain, !processAttribute_xlink.
  set (r := resolveReference reg).
  set (P1 := hasName (js "href")). set (P2 := hasName (js "src")).
  set (P3 := hasNameNS XLINK_NS (js "href")). set (P4 := hasName (js "xlink:href")).
  assert (B1 : byName P1) by apply hasName_byName.
  assert (B2 : byName P2) by apply hasName_byName.
  assert (B3 : byName P3) by apply hasNameNS_byName.
  assert (B4 : byName P4) by apply hasName_byName.
  assert (Ho : forall v u, r v = Some u -> r u = None) by apply resolveReference_once.
  set (final := rewriteFirst P4 r (rewriteFirst P3 r (rewriteFirst P2 r (rewriteFirst P1 r attrs)))).
  assert (S1 : settled P1 r final).
  { do 3 (apply rewriteFirst_keeps_settled; try assumption).
    apply rewriteFirst_settles; assumption. }
  assert (S2 : settled P2 r final).
  { do 2 (apply rewriteFirst_keeps_settled; try assumption).
    apply rewriteFirst_settles; assumption. }
  assert (S3 : settled P3 r final).
  { apply rewriteFirst_keeps_settled; try assumption.
    apply rewriteFirst_settles; assumption. }
  assert (S4 : settled P4 r final) by (apply rewriteFirst_settles; assumption).
  rewrite (rewriteFirst_settled P1 r final S1), (rewriteFirst_settled P2 r final S2),
          (rewriteFirst_settled P3 r final S3), (rewriteFirst_settled P4 r final S4).
  reflexivity.
Qed.

Lemma processResources_idempotent doc :
  processResources reg (processResources reg doc) = processResources reg doc.
Proof.
  induction doc as [q a children IH|s|t d] using Node_induction; try reflexivity.
  simpl. rewrite processElement_idempotent. f_equal.
  rewrite map_map. apply map_ext_Forall. exact IH.
Qed.

(** The callback of the pass over [url(...)] keeps what it has returned. *)
Lemma replaceUrl_spec quote url :
  isQuoteGroup quote = true ->
  exists url',
    replaceUrl reg quote url = urlText quote url' /\
    (url' = url \/ safe url' = true) /\
    replaceUrl reg quote url' = urlText quote url'.
Proof.
  intros _. unfold replaceUrl at 1.
  destruct (nonEmpty (getFilenameFromPath url)) eqn:Hn.
  - destruct (truthyStr (lookupCssUrl reg (getFilenameFromPath url))) eqn:Ht.
    + apply truthyStr_default in Ht as [Ht _].
      set (value := default [] (lookupCssUrl reg (getFilenameFromPath url))) in *.
      pose proof (lookupCssUrl_embedded _ _ Ht) as He.
      exists value. split; [reflexivity|]. split; [right; apply embedded_safe, He|].
      unfold replaceUrl. rewrite (embedded_filename value He). reflexivity.
    + exists url. split; [reflexivity|]. split; [auto|].
      unfold replaceUrl. rewrite Hn, Ht. reflexivity.
  - exists url. split; [reflexivity|]. split; [auto|].
    unfold replaceUrl. rewrite Hn. reflexivity.
Qed.

(** C6, amended. On a registry of embedded data, each resolution pass is
    idempotent on its own output: the pass over the attributes of the
    elements, run again on the tree it returned, and the pass over
    [url(...)], run again on the text it returned, change nothing, because
    the filename extracted from a value that is embedded data, and from an
    absolute [http] or [https] URL, is empty. *)
Theorem resolution_is_idempotent :
  (forall value, embedded value = true -> getFilenameFromPath value = []) /\
  (forall value,
     startsWith (js "http://") value = true \/ startsWith (js "https://") value = true ->
     getFilenameFromPath value = []) /\
  (forall doc, processResources reg (processResources reg doc) = processResources reg doc) /\
  (forall content, replaceCssUrls reg (replaceCssUrls reg content) = replaceCssUrls reg content).
Proof.
  split; [exact embedded_filename|]. split; [|split; [exact processResources_idempotent|]].
  - intros value H. unfold getFilenameFromPath.
    destruct (nonEmpty value); [|reflexivity]. simpl.
    destruct H as [-> | ->]; rewrite ?orb_true_r; reflexivity.
  - intros content. unfold replaceCssUrls.
    apply replaceFrom_idempotent, replaceUrl_spec.
Qed.

End ResolutionFacts.

Lemma resolution_is_idempotent_witness :
  let host := ExampleHost.exampleHost in
  let data := js "data:image/png;base64,iVBORw0KGgo=" in
  let reg := mkRegistry {[ js "Logo.png" := data ]} {[ js "logo.png" := data ]} in
  let content := js "<style>.a{background:url('logo.png')}</style>" in
  replaceCssUrls reg content
  = js "<style>.a{background:url('data:image/png;base64,iVBORw0KGgo=')}</style>" /\
  replaceCssUrls reg (replaceCssUrls reg content) = replaceCssUrls reg content.
Proof.
  intros host data reg content. split; [vm_compute; reflexivity|].
  assert (Hreg : registryEmbedded reg).
  { intros key value [H|H]; simpl in H;
      apply lookup_singleton_Some in H as [_ <-]; vm_compute; reflexivity. }
  apply (proj2 (proj2 (proj2 (resolution_is_idempotent reg Hreg)))).
Defined.

(** C6 as the specification words it fails on a second run of the two
    passes together. The registry holds the asset [a.png], whose data ends
    in [xx/yy], and an asset named [yy)]. The document has an image whose
    [href] is [url(a.png)]: the pass over the attributes finds no asset of
    that name, and the pass over [url(...)] embeds the data of [a.png]
    inside the parentheses. The output is processed again: the value of
    [href] does not start with [data:], the filename extracted from it is
    [yy)], the lookup of the attributes finds the other asset, and the
    reference that was embedded is replaced by the data of that asset. *)
Lemma second_run_changes_an_embedded_reference :
  let host := SerializingHost.serializingHost in
  let data := js "data:image/png;base64,xx/yy" in
  let other := js "data:image/png;base64,zz" in
  let assets :=
    [mkFile (js "a.png") (js "image/png") (Ok []) (Ok data);
     mkFile (js "yy)") (js "image/png") (Ok []) (Ok other)] in
  let document content := mkFile (js "page.svg") (js "image/svg+xml") (Ok content) (Ok []) in
  let page content := mkPage (js "page-0") (js "page.svg") (js "blob:" ++ content) 0
                        (Fin 595) (Fin 842) in
  let written value :=
    js "<svg><image href=" ++ [34%N] ++ value ++ [34%N] ++ js "/></svg>" in
  exists reg,
    @buildRegistry host assets = Ok reg /\
    registryEmbedded reg /\
    @processSvg host reg O (document (written (js "url(a.png)")))
    = Ok (page (written (js "url(" ++ data ++ js ")"))) /\
    @getFilenameFromPath host (js "url(" ++ data ++ js ")") = js "yy)" /\
    @lookupAttribute host reg (js "yy)") = Some other /\
    @processSvg host reg O (document (written (js "url(" ++ data ++ js ")")))
    = Ok (page (written other)) /\
    written other <> written (js "url(" ++ data ++ js ")").
Proof.
  intros host data other assets document page written.
  exists (mkRegistry (<[js "yy)" := other]> (<[js "a.png" := data]> ∅))
                     (<[js "yy)" := other]> (<[js "a.png" := data]> ∅))).
  split; [reflexivity|]. split.
  - intros key value [H|H]; simpl in H;
      apply lookup_insert_Some in H as [[_ <-]|[_ H]];
      try (vm_compute; reflexivity);
      apply lookup_insert_Some in H as [[_ <-]|[_ H]];
      try (vm_compute; reflexivity);
      rewrite lookup_empty in H; discriminate.
  - repeat split; try (vm_compute; reflexivity).
    vm_compute. discriminate.
Qed.

(** ** Paths *)

Lemma selectPaths_Elem P q a children :
  selectPaths P (Elem q a children) =
  (if P (Elem q a children) then [[]] else []) ++ selectPathsFrom P O children.
Proof.
  cbn [selectPaths]. f_equal. generalize O.
  induction children as [|c l IH]; intros i; simpl; [reflexivity|].
  rewrite IH. reflexivity.
Qed.

Lemma getAt_app p : forall p' n, getAt (p ++ p') n = getAt p n ≫= getAt p'.
Proof.
  induction p as [|i p IH]; intros p' n; [reflexivity|].
  destruct n as [q a children| |]; simpl; try reflexivity.
  destruct (children !! i) as [c|]; simpl; [apply IH | reflexivity].
Qed.

Lemma selectPathsFrom_elem P l : forall i p,
  p ∈ selectPathsFrom P i l <->
  exists k c p', p = (i + k)%nat :: p' /\ l !! k = Some c /\ p' ∈ selectPaths P c.
Proof.
  induction l as [|c l IH]; intros i p; simpl.
  - split; [intros H; inversion H | intros (k & c & p' & _ & H & _); discriminate].
  - rewrite elem_of_app, IH, list_elem_of_fmap. split.
    + intros [(p' & -> & Hp')|(k & c' & p' & -> & Hk & Hp')].
      * exists O, c, p'. rewrite Nat.add_0_r. auto.
      * exists (S k), c', p'. rewrite <- Nat.add_succ_comm. auto.
    + intros (k & c' & p' & -> & Hk & Hp'). destruct k as [|k]; simpl in Hk.
      * injection Hk as <-. left. exists p'. rewrite Nat.add_0_r. auto.
      * right. exists k, c', p'. rewrite <- Nat.add_succ_comm. auto.
Qed.

(** The selected paths are those of the elements that satisfy the test. *)
Lemma selectPaths_elem P n : forall p,
  p ∈ selectPaths P n <->
  exists q a children, getAt p n = Some (Elem q a children) /\ P (Elem q a children) = true.
Proof.
  induction n as [q a children IH|s|t d] using Node_induction; intros p.
  - rewrite selectPaths_Elem, elem_of_app, selectPathsFrom_elem. split.
    + intros [Hroot|(k & c & p' & -> & Hk & Hp')].
      * destruct (P (Elem q a children)) eqn:HP; [|inversion Hroot].
        apply list_elem_of_singleton in Hroot as ->. simpl. eauto.
      * simpl. rewrite Hk. simpl.
        rewrite Forall_forall in IH. apply (IH c); [|exact Hp'].
        apply list_elem_of_lookup. eauto.
    + intros (q' & a' & ch' & Hget & HP). destruct p as [|k p'].
      * simpl in Hget. injection Hget as <- <- <-. left. rewrite HP. left.
      * right. simpl in Hget.
        destruct (children !! k) as [c|] eqn:Hk; [|discriminate]. simpl in Hget.
        exists k, c, p'. split; [reflexivity|]. split; [assumption|].
        rewrite Forall_forall in IH. apply (IH c); [|eauto].
        apply list_elem_of_lookup. eauto.
  - simpl. split; [intros H; inversion H|].
    intros (q & a & ch & Hget & _). destruct p; discriminate.
  - simpl. split; [intros H; inversion H|].
    intros (q & a & ch & Hget & _). destruct p; discriminate.
Qed.

Lemma getAt_updateAt f p : forall n x,
  getAt p n = Some x -> getAt p (updateAt f p n) = Some (f x).
Proof.
  induction p as [|i p IH]; intros n x; simpl; [congruence|].
  destruct n as [q a children| |]; try discriminate.
  destruct (children !! i) as [c|] eqn:Hi; [|discriminate]. simpl. intros Hx.
  rewrite list_lookup_alter_eq, Hi. simpl. apply IH. exact Hx.
Qed.

Lemma updateAt_None f p : forall n, getAt p n = None -> updateAt f p n = n.
Proof.
  induction p as [|i p IH]; intros n; simpl; [discriminate|].
  destruct n as [q a children| |]; try reflexivity.
  destruct (children !! i) as [c|] eqn:Hi; simpl.
  - intros Hx. f_equal. apply list_eq. intros j.
    destruct (decide (i = j)) as [<-|Hne].
    + rewrite list_lookup_alter_eq, Hi. simpl. rewrite (IH c Hx). reflexivity.
    + rewrite list_lookup_alter_ne by assumption. reflexivity.
  - intros _. f_equal. apply list_eq. intros j.
    destruct (decide (i = j)) as [<-|Hne].
    + rewrite list_lookup_alter_eq, Hi. reflexivity.
    + rewrite list_lookup_alter_ne by assumption. reflexivity.
Qed.

(** ** Related trees *)

Section Related.
Variables (RA : jsstring -> list Attr -> list Attr -> Prop) (RT : jsstring -> jsstring -> Prop).

Lemma related_refl :
  (forall q a, RA q a a) -> (forall s, RT s s) -> forall n, related RA RT n n.
Proof.
  intros HA HT n. induction n as [q a children IH|s|t d] using Node_induction;
    constructor; auto.
  induction IH; constructor; auto.
Qed.

(** Nodes at the same path of related trees are related. *)
Lemma related_getAt p : forall n m x,
  related RA RT n m -> getAt p n = Some x ->
  exists y, getAt p m = Some y /\ related RA RT x y.
Proof.
  induction p as [|i p IH]; intros n m x Hrel; simpl.
  - intros [= <-]. eauto.
  - destruct Hrel as [q a a' children children' _ Hch| |]; try discriminate.
    destruct (children !! i) as [c|] eqn:Hi; [|discriminate]. simpl. intros Hx.
    destruct (Forall2_lookup_l _ _ _ _ _ Hch Hi) as (c' & Hi' & Hc).
    rewrite Hi'. simpl. eapply IH; eassumption.
Qed.

Lemma related_getAt_inv p : forall n m y,
  related RA RT n m -> getAt p m = Some y ->
  exists x, getAt p n = Some x /\ related RA RT x y.
Proof.
  induction p as [|i p IH]; intros n m y Hrel; simpl.
  - intros [= <-]. eauto.
  - destruct Hrel as [q a a' children children' _ Hch| |]; try discriminate.
    destruct (children' !! i) as [c'|] eqn:Hi'; [|discriminate]. simpl. intros Hy.
    destruct (Forall2_lookup_r _ _ _ _ _ Hch Hi') as (c & Hi & Hc).
    rewrite Hi. simpl. eapply IH; eassumption.
Qed.

(** A step at one node that keeps the node related keeps the tree related. *)
Lemma updateAt_related f p :
  (forall q a, RA q a a) -> (forall s, RT s s) ->
  forall n, (forall x, getAt p n = Some x -> related RA RT x (f x)) ->
            related RA RT n (updateAt f p n).
Proof.
  intros HA HT. induction p as [|i p IH]; intros n Hf; simpl; [apply Hf; reflexivity|].
  destruct n as [q a children|s|t d]; try (apply related_refl; assumption).
  constructor; [apply HA|].
  apply Forall2_same_length_lookup. split; [rewrite length_alter; reflexivity|].
  intros j c c' Hc Hc'.
  destruct (decide (i = j)) as [<-|Hne].
  - rewrite list_lookup_alter_eq, Hc in Hc'. simpl in Hc'. injection Hc' as <-.
    apply IH. intros x Hx. apply Hf. simpl. rewrite Hc. exact Hx.
  - rewrite list_lookup_alter_ne in Hc' by assumption.
    assert (c' = c) as -> by congruence. apply related_refl; assumption.
Qed.

End Related.

(** Relations compose when the relations on attributes and texts do. *)
Lemma related_compose RA1 RT1 RA2 RT2 RA3 RT3 :
  (forall q a b c, RA1 q a b -> RA2 q b c -> RA3 q a c) ->
  (forall a b c, RT1 a b -> RT2 b c -> RT3 a c) ->
  forall n m k, related RA1 RT1 n m -> related RA2 RT2 m k -> related RA3 RT3 n k.
Proof.
  intros HA HT n.
  induction n as [q a children IH|s|t d] using Node_induction; intros m k H1 H2.
  - inversion H1 as [q1 a1 a1' ch1 ch1' Ha1 Hch1| |]; subst.
    inversion H2 as [q2 a2 a2' ch2 ch2' Ha2 Hch2| |]; subst.
    constructor; [eapply HA; eassumption|].
    clear H1 H2 Ha1 Ha2. revert ch1' ch2' Hch1 Hch2.
    induction IH as [|c children Hc _ IHl]; intros ch1' ch2' Hch1 Hch2.
    + inversion Hch1; subst. inversion Hch2; subst. constructor.
    + inversion Hch1 as [|? c1 ? l1 Hc1 Hl1]; subst.
      inversion Hch2 as [|? c2 ? l2 Hc2 Hl2]; subst.
      constructor; [eapply Hc; eassumption | eapply IHl; eassumption].
  - inversion H1; subst. inversion H2; subst. constructor. eapply HT; eassumption.
  - inversion H1; subst. inversion H2; subst. constructor.
Qed.

Lemma related_weaken (RA RA' : jsstring -> list Attr -> list Attr -> Prop)
    (RT RT' : jsstring -> jsstring -> Prop) :
  (forall q a b, RA q a b -> RA' q a b) -> (forall a b, RT a b -> RT' a b) ->
  forall n m, related RA RT n m -> related RA' RT' n m.
Proof.
  intros HA HT n.
  induction n as [q a children IH|s|t d] using Node_induction; intros m H.
  - inversion H as [q1 a1 a1' ch1 ch1' Ha1 Hch1| |]; subst.
    constructor; [auto|]. clear H Ha1. revert ch1' Hch1.
    induction IH as [|c children Hc _ IHl]; intros ch1' Hch1;
      inversion Hch1; subst; constructor; auto.
  - inversion H; subst. constructor. auto.
  - inversion H; subst. constructor.
Qed.

(** ** Attributes under [setAttribute] *)

Lemma eqStr_true a b : eqStr a b = true <-> a = b.
Proof. unfold eqStr. apply bool_decide_eq_true. Qed.

Lemma eqStr_false a b : eqStr a b = false <-> a <> b.
Proof. unfold eqStr. apply bool_decide_eq_false. Qed.

Lemma eqStr_refl a : eqStr a a = true.
Proof. apply eqStr_true. reflexivity. Qed.

Lemma find_app_attr (P : Attr -> bool) l1 l2 :
  List.find P (l1 ++ l2) =
  match List.find P l1 with Some a => Some a | None => List.find P l2 end.
Proof.
  induction l1 as [|a l1 IH]; simpl; [reflexivity|].
  destruct (P a); [reflexivity | exact IH].
Qed.

Lemma find_none_existsb (P : Attr -> bool) attrs :
  List.existsb P attrs = false -> List.find P attrs = None.
Proof.
  induction attrs as [|a attrs IH]; simpl; [reflexivity|].
  destruct (P a); simpl; [discriminate | exact IH].
Qed.

Lemma existsb_find (P : Attr -> bool) attrs :
  List.existsb P attrs = true -> exists a, List.find P attrs = Some a.
Proof.
  induction attrs as [|a attrs IH]; simpl; [discriminate|].
  destruct (P a); simpl; eauto.
Qed.

Lemma getAttribute_setAttribute name value attrs :
  getAttribute name (setAttribute name value attrs) = Some value.
Proof.
  unfold getAttribute, setAttribute.
  destruct (List.existsb (hasName name) attrs) eqn:He.
  - rewrite (find_changeFirst_same _ (hasName_byName name)).
    destruct (existsb_find _ _ He) as [a ->]. reflexivity.
  - rewrite find_app_attr, (find_none_existsb _ _ He). simpl.
    unfold hasName. simpl. rewrite eqStr_refl. reflexivity.
Qed.

Lemma find_changeFirst_apart (P Q : Attr -> bool) value attrs :
  (forall a, P a = true -> Q a = false) -> byName Q ->
  List.find Q (changeFirst P value attrs) = List.find Q attrs.
Proof.
  intros Hapart HQ. induction attrs as [|a attrs IH]; simpl; [reflexivity|].
  destruct (P a) eqn:Ha; simpl.
  - rewrite HQ, (Hapart a Ha). reflexivity.
  - rewrite IH. reflexivity.
Qed.

Lemma hasName_apart name name' a :
  name <> name' -> hasName name a = true -> hasName name' a = false.
Proof.
  unfold hasName. intros Hne H%eqStr_true. apply eqStr_false. congruence.
Qed.

Lemma getAttribute_setAttribute_other name name' value attrs :
  name <> name' ->
  getAttribute name' (setAttribute name value attrs) = getAttribute name' attrs.
Proof.
  intros Hne. unfold getAttribute, setAttribute.
  destruct (List.existsb (hasName name) attrs) eqn:He.
  - rewrite find_changeFirst_apart; [reflexivity| |apply hasName_byName].
    intros a. apply hasName_apart, Hne.
  - rewrite find_app_attr. destruct (List.find (hasName name') attrs); [reflexivity|].
    simpl. unfold hasName. simpl.
    assert (eqStr name name' = false) as -> by (apply eqStr_false, Hne). reflexivity.
Qed.

Lemma existsb_changeFirst (P T : Attr -> bool) value attrs :
  byName T -> List.existsb T (changeFirst P value attrs) = List.existsb T attrs.
Proof.
  intros HT. induction attrs as [|a attrs IH]; simpl; [reflexivity|].
  destruct (P a); simpl; [rewrite HT | rewrite IH]; reflexivity.
Qed.

Lemma carriesDataTags_setAttribute name value attrs :
  name <> js "data-tags" ->
  carriesDataTags (setAttribute name value attrs) = carriesDataTags attrs.
Proof.
  intros Hne. unfold carriesDataTags, setAttribute.
  destruct (List.existsb (hasName name) attrs).
  - apply existsb_changeFirst. intros a v. reflexivity.
  - rewrite existsb_app. simpl.
    assert (eqStr name (js "data-tags") = false) as -> by (apply eqStr_false, Hne).
    rewrite ?andb_false_r, !orb_false_r. reflexivity.
Qed.

Lemma blurImage_filter filterId attrs :
  getAttribute (js "filter") (blurImage filterId attrs) = Some (filterReference filterId).
Proof.
  unfold blurImage.
  rewrite getAttribute_setAttribute_other by discriminate.
  apply getAttribute_setAttribute.
Qed.

Lemma attrsWithin_refl filterId q a : attrsWithin filterId q a a.
Proof. unfold attrsWithin. auto. Qed.

Lemma attrsWithin_trans filterId q a b c :
  attrsWithin filterId q a b -> attrsWithin filterId q b c -> attrsWithin filterId q a c.
Proof.
  intros (H1 & H2 & H3 & H4) (K1 & K2 & K3 & K4). unfold attrsWithin.
  split; [congruence|]. split; [congruence|]. split; [|auto].
  intros Hq Hc. assert (Hba : b = a) by auto. subst b. apply K3; assumption.
Qed.

Lemma attrsWithin_blurImage filterId q a :
  q = js "image" \/ carriesDataTags a = true ->
  attrsWithin filterId q a (blurImage filterId a).
Proof.
  intros Hq. unfold attrsWithin. split; [|split; [|split]].
  - unfold blurImage.
    rewrite (getAttribute_setAttribute_other (js "style") (js "data-tags")) by discriminate.
    rewrite (getAttribute_setAttribute_other (js "filter") (js "data-tags")) by discriminate.
    reflexivity.
  - unfold blurImage. rewrite !carriesDataTags_setAttribute by discriminate. reflexivity.
  - intros Hne Hc. destruct Hq; congruence.
  - intros _. apply blurImage_filter.
Qed.

(** ** Redaction *)

Lemma redactText_length s : length (redactText s) = length s.
Proof. apply length_map. Qed.

Lemma redactText_lookup s i c :
  s !! i = Some c ->
  redactText s !! i = Some (if isWhiteSpace c then c else blockGlyph).
Proof.
  revert i. induction s as [|d s IH]; intros [|i]; simpl; try discriminate.
  - intros [= ->]. reflexivity.
  - apply IH.
Qed.

Lemma redactText_idempotent s : redactText (redactText s) = redactText s.
Proof.
  unfold redactText. rewrite map_map. apply map_ext. intros c.
  destruct (isWhiteSpace c) eqn:Hc; [rewrite Hc|]; reflexivity.
Qed.

Lemma redactText_units s :
  Forall (fun c => isWhiteSpace c = true \/ c = blockGlyph) (redactText s).
Proof.
  unfold redactText. apply Forall_map, Forall_forall. intros c _.
  destruct (isWhiteSpace c) eqn:Hc; auto.
Qed.

(** The white space of a text is kept, unit by unit. *)
Lemma redactText_whitespace s :
  List.filter isWhiteSpace (redactText s) = List.filter isWhiteSpace s.
Proof.
  induction s as [|c s IH]; simpl; [reflexivity|].
  destruct (isWhiteSpace c) eqn:Hc; simpl.
  - rewrite Hc, IH. reflexivity.
  - change (isWhiteSpace blockGlyph) with false. cbv iota. exact IH.
Qed.

Lemma textWithin_refl s : textWithin s s.
Proof. left. reflexivity. Qed.

Lemma textWithin_trans a b c : textWithin a b -> textWithin b c -> textWithin a c.
Proof.
  unfold textWithin. intros [->| ->] [->| ->]; auto.
  right. apply redactText_idempotent.
Qed.

Lemma textWithin_redacted a b c : textWithin a b -> textRedacted b c -> textRedacted a c.
Proof.
  unfold textWithin, textRedacted. intros [->| ->] ->; [reflexivity|].
  apply redactText_idempotent.
Qed.

Lemma textRedacted_within a b c : textRedacted a b -> textWithin b c -> textRedacted a c.
Proof.
  unfold textWithin, textRedacted. intros -> [->| ->]; [reflexivity|].
  apply redactText_idempotent.
Qed.

Lemma within_refl filterId n : within filterId n n.
Proof. apply related_refl; [apply attrsWithin_refl | apply textWithin_refl]. Qed.

Lemma within_trans filterId n m k :
  within filterId n m -> within filterId m k -> within filterId n k.
Proof.
  apply related_compose; [apply attrsWithin_trans | apply textWithin_trans].
Qed.

Lemma redactTextNodes_related filterId n :
  related (attrsWithin filterId) textRedacted n (redactTextNodes n).
Proof.
  induction n as [q a children IH|s|t d] using Node_induction; simpl.
  - constructor; [apply attrsWithin_refl|].
    induction IH; simpl; constructor; auto.
  - destruct s; constructor; reflexivity.
  - constructor.
Qed.

Lemma blurImages_related filterId n :
  related (attrsWithin filterId) eq n (blurImages filterId n).
Proof.
  induction n as [q a children IH|s|t d] using Node_induction; simpl.
  - constructor.
    + destruct (eqStr q (js "image")) eqn:Hq; [|apply attrsWithin_refl].
      apply attrsWithin_blurImage. left. apply eqStr_true, Hq.
    + induction IH; simpl; constructor; auto.
  - constructor. reflexivity.
  - constructor.
Qed.

Lemma Forall2_map_related (R : Node -> Node -> Prop) (f : Node -> Node) l :
  (forall n, R n (f n)) -> Forall2 R l (List.map f l).
Proof. intros H. induction l; simpl; constructor; auto. Qed.

Lemma lookup_map {A B} (f : A -> B) l i : List.map f l !! i = f <$> l !! i.
Proof.
  revert i. induction l as [|x l IH]; intros [|i]; simpl; try reflexivity. apply IH.
Qed.

Lemma blurImages_then_redact filterId n :
  related (refersToFilter filterId) (fun _ _ => True) n
          (redactTextNodes (blurImages filterId n)).
Proof.
  induction n as [q a children IH|s|t d] using Node_induction; simpl.
  - constructor.
    + intros ->. rewrite eqStr_refl. apply blurImage_filter.
    + induction IH; simpl; constructor; auto.
  - destruct (nonEmpty s); constructor; exact I.
  - constructor.
Qed.

Section RedactionFacts.
Context {host : Host}.
Variable filterId : jsstring.

Lemma isRedactTagged_attrs q a ch q' a' ch' :
  getAttribute (js "data-tags") a' = getAttribute (js "data-tags") a ->
  isRedactTagged (Elem q' a' ch') = isRedactTagged (Elem q a ch).
Proof. unfold isRedactTagged. simpl. intros ->. reflexivity. Qed.

(** What the redaction of a tagged element does to it. *)
Lemma redactElement_related c :
  hasDataTags c = true -> isRedactTagged c = true ->
  related (attrsWithin filterId) textRedacted c (redactElement filterId c).
Proof.
  intros Hd Ht. unfold redactElement. rewrite Ht.
  destruct c as [q a children| |]; try discriminate.
  destruct (eqStr (toLowerCase q) (js "image")); simpl.
  - constructor; [apply attrsWithin_blurImage; right; exact Hd|].
    apply Forall2_map_related, redactTextNodes_related.
  - constructor; [apply attrsWithin_refl|].
    rewrite map_map. apply Forall2_map_related. intros n.
    eapply related_compose; [| |apply blurImages_related|apply redactTextNodes_related].
    + apply attrsWithin_trans.
    + intros x y z -> H. exact H.
Qed.

Lemma redactElement_within c :
  hasDataTags c = true -> within filterId c (redactElement filterId c).
Proof.
  intros Hd. destruct (isRedactTagged c) eqn:Ht.
  - eapply related_weaken; [| |apply redactElement_related; assumption]; auto.
    intros a b ->. right. reflexivity.
  - unfold redactElement. rewrite Ht. apply within_refl.
Qed.

Lemma redactElement_blurred c :
  isRedactTagged c = true -> blurredUnder filterId (redactElement filterId c).
Proof.
  intros Ht. unfold redactElement. rewrite Ht.
  destruct c as [q a children| |]; try exact I.
  destruct (eqStr (toLowerCase q) (js "image")) eqn:Hq; simpl; rewrite Hq.
  - apply blurImage_filter.
  - intros [|i y] q2 a2 ch2 Hy Hget ->; [contradiction|]. simpl in Hget.
    rewrite map_map, lookup_map in Hget.
    destruct (children !! i) as [c|]; [|discriminate]. simpl in Hget.
    destruct (related_getAt_inv _ _ y _ _ _ (blurImages_then_redact filterId c) Hget)
      as (x & _ & Hrel).
    inversion Hrel as [q1 a1 a1' ch1 ch1' Ha _| |]; subst. apply Ha. reflexivity.
Qed.

(** The outcome at a redacted element stays in every later state. *)
Lemma blurredUnder_within c c' :
  blurredUnder filterId c -> within filterId c c' -> blurredUnder filterId c'.
Proof.
  intros Hb Hw. inversion Hw as [q a a' ch ch' Ha Hch| |]; subst; try exact I.
  simpl in *. destruct (eqStr (toLowerCase q) (js "image")).
  - apply Ha, Hb.
  - intros y q2 a2 ch2 Hy Hget ->.
    destruct (related_getAt_inv _ _ y _ _ _ Hw Hget) as (x & Hx & Hrel).
    inversion Hrel as [q1 a1 a1' ch1 ch1' Ha1 _| |]; subst.
    apply Ha1. eapply Hb; [exact Hy | exact Hx | reflexivity].
Qed.

Lemma redacted_within o c c' :
  redacted filterId o c -> within filterId c c' -> redacted filterId o c'.
Proof. apply related_compose; [apply attrsWithin_trans | apply textRedacted_within]. Qed.

Lemma within_redacted o c c' :
  within filterId o c -> related (attrsWithin filterId) textRedacted c c' ->
  redacted filterId o c'.
Proof. apply related_compose; [apply attrsWithin_trans | apply textWithin_redacted]. Qed.

Lemma redactedAt_within p o d d' :
  redactedAt filterId p o d -> within filterId d d' -> redactedAt filterId p o d'.
Proof.
  intros (c & Hget & Hred & Hblur) Hw.
  destruct (related_getAt _ _ p _ _ _ Hw Hget) as (c' & Hget' & Hc).
  exists c'. split; [assumption|].
  split; [eapply redacted_within | eapply blurredUnder_within]; eassumption.
Qed.

Lemma within_tags o c :
  within filterId o c ->
  hasDataTags c = hasDataTags o /\ isRedactTagged c = isRedactTagged o.
Proof.
  intros Hw. inversion Hw as [q a a' ch ch' (H1 & H2 & _) _| |]; subst; auto.
  split; [exact H2 | apply isRedactTagged_attrs, H1].
Qed.

End RedactionFacts.

Section RedactionFold.
Context {host : Host}.
Variable filterId : jsstring.
Variable doc1 : Node.

(** The loop over the tagged elements: every state is a later state of the
    tree it started from, and each redacted element it has passed has its
    outcome. *)
Lemma redaction_fold paths : forall d,
  within filterId doc1 d ->
  (forall p, p ∈ paths ->
     exists x, getAt p doc1 = Some x /\ hasDataTags x = true) ->
  let final := foldl (λ d p, updateAt (redactElement filterId) p d) d paths in
  within filterId doc1 final /\
  forall p o,
    getAt p doc1 = Some o -> isRedactTagged o = true ->
    p ∈ paths \/ redactedAt filterId p o d ->
    redactedAt filterId p o final.
Proof.
  induction paths as [|p1 paths IH]; intros d Hw Hpaths; simpl.
  - split; [exact Hw|]. intros p o _ _ [Hin|H]; [inversion Hin | exact H].
  - destruct (Hpaths p1 ltac:(left)) as (x1 & Hx1 & Hd1).
    destruct (related_getAt _ _ p1 _ _ _ Hw Hx1) as (c1 & Hc1 & Hwc1).
    destruct (within_tags filterId x1 c1 Hwc1) as [Hdc Htc].
    assert (Hstep : within filterId d (updateAt (redactElement filterId) p1 d)).
    { apply updateAt_related; [apply attrsWithin_refl | apply textWithin_refl|].
      intros x Hx. assert (x = c1) as -> by congruence.
      apply redactElement_within. congruence. }
    destruct (IH (updateAt (redactElement filterId) p1 d)) as [Hfinal Hposts].
    { eapply within_trans; eassumption. }
    { intros p Hp. apply Hpaths. right. exact Hp. }
    split; [exact Hfinal|].
    intros p o Ho Ht [Hin|Hpost].
    + apply elem_of_cons in Hin as [->|Hin]; [|apply Hposts; auto].
      apply Hposts; [assumption..|]. right.
      assert (o = x1) as -> by congruence.
      exists (redactElement filterId c1).
      split; [apply getAt_updateAt, Hc1|].
      split.
      * eapply within_redacted; [exact Hwc1|].
        apply redactElement_related; congruence.
      * apply redactElement_blurred. congruence.
    + apply Hposts; [assumption..|]. right.
      eapply redactedAt_within; eassumption.
Qed.

End RedactionFold.

(** ** Installing the filter *)

Lemma appendToFirst_Elem P new q a children :
  appendToFirst P new (Elem q a children) =
  if P (Elem q a children) then Some (Elem q a (children ++ [new]))
  else Elem q a <$> appendInChildren P new children.
Proof.
  cbn [appendToFirst]. destruct (P (Elem q a children)); [reflexivity|]. f_equal.
  induction children as [|c l IH]; simpl; [reflexivity|].
  destruct (appendToFirst P new c); [reflexivity|]. rewrite IH. reflexivity.
Qed.

Lemma sameLabel_refl n : sameLabel n n.
Proof. destruct n; simpl; auto. Qed.

Lemma appendInChildren_lookup P new l : forall l',
  appendInChildren P new l = Some l' ->
  forall i c, l !! i = Some c ->
    exists c', l' !! i = Some c' /\ (c' = c \/ appendToFirst P new c = Some c').
Proof.
  induction l as [|c0 l IH]; intros l'; simpl; [discriminate|].
  destruct (appendToFirst P new c0) as [c0'|] eqn:H0.
  - intros [= <-] [|i] c; simpl; [intros [= <-]; eauto | eauto].
  - destruct (appendInChildren P new l) as [l0|]; [|discriminate].
    simpl. intros [= <-] [|i] c; simpl; [intros [= <-]; eauto|].
    apply IH. reflexivity.
Qed.

(** Appending to the first match keeps every node at its path, with its
    name, attributes and text. *)
Lemma appendToFirst_keeps P new n : forall n',
  appendToFirst P new n = Some n' ->
  forall p x, getAt p n = Some x ->
    exists x', getAt p n' = Some x' /\ sameLabel x x'.
Proof.
  induction n as [q a children IH|s|t d] using Node_induction; intros n';
    try discriminate.
  rewrite appendToFirst_Elem. destruct (P (Elem q a children)).
  - intros [= <-] [|i p] x; simpl.
    + intros [= <-]. eexists. split; [reflexivity|]. simpl. auto.
    + destruct (children !! i) as [c|] eqn:Hi; [|discriminate]. simpl. intros Hx.
      rewrite (lookup_app_l_Some _ _ _ _ Hi). simpl. rewrite Hx.
      eexists. split; [reflexivity | apply sameLabel_refl].
  - destruct (appendInChildren P new children) as [l'|] eqn:Hl; [|discriminate].
    simpl. intros [= <-] [|i p] x; simpl.
    + intros [= <-]. eexists. split; [reflexivity|]. simpl. auto.
    + destruct (children !! i) as [c|] eqn:Hi; [|discriminate]. simpl. intros Hx.
      destruct (appendInChildren_lookup P new children l' Hl i c Hi)
        as (c' & Hi' & [->|Hc']); rewrite Hi'; simpl.
      * rewrite Hx. eexists. split; [reflexivity | apply sameLabel_refl].
      * rewrite Forall_forall in IH. eapply (IH c); [|exact Hc'|exact Hx].
        apply list_elem_of_lookup. eauto.
Qed.

Lemma appendInChildren_found P new l : forall l',
  appendInChildren P new l = Some l' ->
  exists i c c', l !! i = Some c /\ l' !! i = Some c' /\
                 appendToFirst P new c = Some c'.
Proof.
  induction l as [|c0 l IH]; intros l'; simpl; [discriminate|].
  destruct (appendToFirst P new c0) as [c0'|] eqn:H0.
  - intros [= <-]. exists O, c0, c0'. auto.
  - destruct (appendInChildren P new l) as [l0|]; [|discriminate].
    simpl. intros [= <-]. destruct (IH l0 eq_refl) as (i & c & c' & H1 & H2 & H3).
    exists (S i), c, c'. auto.
Qed.

(** The node that received the new child. *)
Lemma appendToFirst_found P new n : forall n',
  appendToFirst P new n = Some n' ->
  exists pd q a ch0,
    getAt pd n' = Some (Elem q a (ch0 ++ [new])) /\ P (Elem q a ch0) = true.
Proof.
  induction n as [q a children IH|s|t d] using Node_induction; intros n';
    try discriminate.
  rewrite appendToFirst_Elem. destruct (P (Elem q a children)) eqn:HP.
  - intros [= <-]. exists [], q, a, children. auto.
  - destruct (appendInChildren P new children) as [l'|] eqn:Hl; [|discriminate].
    simpl. intros [= <-].
    destruct (appendInChildren_found P new children l' Hl) as (i & c & c' & Hi & Hi' & Hc).
    rewrite Forall_forall in IH.
    destruct (IH c ltac:(apply list_elem_of_lookup; eauto) c' Hc)
      as (pd & q' & a' & ch0 & Hget & HP').
    exists (i :: pd), q', a', ch0. simpl. rewrite Hi'. auto.
Qed.

Section InstallFilter.
Variable filterId : jsstring.

Lemma installFilter_keeps q a children p x :
  let doc := Elem q a children in
  getAt p doc = Some x ->
  exists x', getAt (relocate filterId doc p) (installFilter filterId doc) = Some x' /\
             sameLabel x x'.
Proof.
  intros doc Hx. unfold relocate, installFilter.
  destruct (appendToFirst isDefs (blurFilter filterId) doc) as [doc'|] eqn:Ha.
  - eapply appendToFirst_keeps; eassumption.
  - subst doc. destruct p as [|i p]; simpl in *.
    + injection Hx as <-. eexists. split; [reflexivity|]. simpl. auto.
    + rewrite Hx. eexists. split; [reflexivity | apply sameLabel_refl].
Qed.

Lemma installFilter_defs q a children :
  exists pd qd ad chd,
    getAt pd (installFilter filterId (Elem q a children)) = Some (Elem qd ad chd) /\
    isDefs (Elem qd ad chd) = true /\ blurFilter filterId ∈ chd.
Proof.
  unfold installFilter.
  destruct (appendToFirst isDefs (blurFilter filterId) (Elem q a children))
    as [doc'|] eqn:Ha.
  - destruct (appendToFirst_found _ _ _ _ Ha) as (pd & qd & ad & ch0 & Hget & HP).
    exists pd, qd, ad, (ch0 ++ [blurFilter filterId]).
    split; [exact Hget|]. split; [exact HP|]. apply elem_of_app. right. left.
  - exists [O], (js "defs"), [], [blurFilter filterId].
    split; [reflexivity|]. split; [reflexivity | left].
Qed.

Lemma relocate_app doc p y :
  exists y', relocate filterId doc (p ++ y) = relocate filterId doc p ++ y'.
Proof.
  unfold relocate. destruct (appendToFirst isDefs (blurFilter filterId) doc).
  - exists y. reflexivity.
  - destruct p as [|i p]; simpl.
    + exists (match y with [] => [] | i :: y' => S i :: y' end). reflexivity.
    + exists y. reflexivity.
Qed.

(** The filter definition is the same in every later state. *)
Lemma within_blurFilter x :
  within filterId (blurFilter filterId) x -> x = blurFilter filterId.
Proof.
  unfold blurFilter. intros Hw.
  inversion Hw as [q a a' ch ch' (_ & _ & Ha & _) Hch| |]; subst.
  rewrite (Ha ltac:(discriminate) eq_refl).
  inversion Hch as [|c c' l l' Hc Hl]; subst. inversion Hl; subst.
  inversion Hc as [q1 a1 a1' ch1 ch1' (_ & _ & Ha1 & _) Hch1| |]; subst.
  rewrite (Ha1 ltac:(discriminate) eq_refl). inversion Hch1; subst. reflexivity.
Qed.

End InstallFilter.

Section RedactionTheorem.
Context {host : Host}.

(** C9. Let an element of the document carry [data-tags] with a value
    that, trimmed and lowercased, starts with [redact]. After
    [processRedactions], a [defs] element holds the blur filter, whose [id]
    is the generated one. The element is found at its place (one further
    when a [defs] was inserted before it): if its name lowercases to
    [image] it refers to the filter itself, otherwise every element named
    [image] below it does. Every text node below it consists of white space
    and block glyphs, and is the text of the input at that place with each
    code unit that is not white space replaced by U+25AE: same length, white
    space where it was. *)
Theorem tagged_elements_are_redacted (filterId : jsstring) (doc : Node)
    (p : path) (el : Node) :
  getAt p doc = Some el -> hasDataTags el = true -> isRedactTagged el = true ->
  let final := processRedactions filterId doc in
  let p' := relocate filterId doc p in
  let reference := js "url(#" ++ filterId ++ js ")" in
  (exists pd qd ad chd,
     getAt pd final = Some (Elem qd ad chd) /\ isDefs (Elem qd ad chd) = true /\
     blurFilter filterId ∈ chd /\
     getAttribute (js "id") (attributes (blurFilter filterId)) = Some filterId) /\
  (exists q a' ch',
     getAt p' final = Some (Elem q a' ch') /\ q = nodeNameOf el /\
     (eqStr (toLowerCase q) (js "image") = true ->
      getAttribute (js "filter") a' = Some reference) /\
     (eqStr (toLowerCase q) (js "image") = false ->
      forall y q2 a2 ch2,
        y <> [] -> getAt (p' ++ y) final = Some (Elem q2 a2 ch2) -> q2 = js "image" ->
        getAttribute (js "filter") a2 = Some reference) /\
     (forall y s', getAt (p' ++ y) final = Some (Text s') ->
        Forall (fun c => isWhiteSpace c = true \/ c = blockGlyph) s')) /\
  (forall y s, getAt (p ++ y) doc = Some (Text s) ->
     getAt (relocate filterId doc (p ++ y)) final = Some (Text (redactText s))) /\
  (forall s,
     length (redactText s) = length s /\
     List.filter isWhiteSpace (redactText s) = List.filter isWhiteSpace s /\
     forall i c, s !! i = Some c ->
       redactText s !! i = Some (if isWhiteSpace c then c else blockGlyph)).
Proof.
  intros Hel Hd Ht final p' reference.
  destruct el as [qe ae che| |]; try discriminate.
  assert (Hdoc : exists q a children, doc = Elem q a children).
  { destruct doc as [q a children| |]; [eauto|..]; destruct p; discriminate. }
  destruct Hdoc as (q0 & a0 & ch0 & ->).
  set (doc := Elem q0 a0 ch0) in *.
  set (doc1 := installFilter filterId doc).
  (* the filter is needed *)
  assert (Hneeds : List.existsb (λ p, from_option isRedactTagged false (getAt p doc))
                     (selectPaths hasDataTags doc) = true).
  { apply existsb_exists. exists p. split.
    - apply list_elem_of_In, selectPaths_elem. eauto.
    - rewrite Hel. exact Ht. }
  assert (Hfinal : final = foldl (λ d p, updateAt (redactElement filterId) p d) doc1
                                 (selectPaths hasDataTags doc1)).
  { subst final. unfold processRedactions. rewrite Hneeds. reflexivity. }
  (* the element in the tree with the filter installed *)
  destruct (installFilter_keeps filterId q0 a0 ch0 p _ Hel) as (o & Ho & Hlabel).
  fold doc doc1 p' in Ho.
  destruct o as [qo ao cho| |]; try contradiction. destruct Hlabel as [<- <-].
  (* the loop *)
  destruct (redaction_fold filterId doc1 (selectPaths hasDataTags doc1) doc1
              (within_refl filterId doc1)) as [Hw Hposts].
  { intros p1 Hp1. apply selectPaths_elem in Hp1 as (q1 & a1 & ch1 & H1 & H2). eauto. }
  rewrite <- Hfinal in Hw, Hposts.
  destruct (Hposts p' (Elem qe ae cho) Ho Ht) as (c & Hc & Hred & Hblur).
  { left. apply selectPaths_elem. eauto. }
  inversion Hred as [q1 a1 a' ch1 ch' Ha Hch| |]; subst q1 a1 ch1 c.
  split; [|split; [|split]].
  - destruct (installFilter_defs filterId q0 a0 ch0) as (pd & qd & ad & chd & Hpd & Hdefs & Hin).
    fold doc doc1 in Hpd.
    destruct (related_getAt _ _ pd _ _ _ Hw Hpd) as (y & Hy & Hrel).
    inversion Hrel as [q1 a1 ad' ch1 chd' _ Hchd| |]; subst q1 a1 ch1 y.
    exists pd, qd, ad', chd'. split; [exact Hy|]. split; [exact Hdefs|].
    split; [|reflexivity].
    apply list_elem_of_lookup in Hin as [k Hk].
    destruct (Forall2_lookup_l _ _ _ _ _ Hchd Hk) as (x & Hx & Hwx).
    apply within_blurFilter in Hwx. subst x.
    apply list_elem_of_lookup. eauto.
  - exists qe, a', ch'. split; [exact Hc|]. split; [reflexivity|].
    simpl in Hblur. split; [|split].
    + intros Hq. rewrite Hq in Hblur. exact Hblur.
    + intros Hq y q2 a2 ch2 Hy Hget Hq2. rewrite Hq in Hblur.
      rewrite getAt_app, Hc in Hget. simpl in Hget.
      eapply Hblur; eassumption.
    + intros y s' Hget. rewrite getAt_app, Hc in Hget. simpl in Hget.
      destruct (related_getAt_inv _ _ y _ _ _ Hred Hget) as (x & _ & Hx).
      inversion Hx as [|s1 s1' Hs|]; subst. rewrite Hs. apply redactText_units.
  - intros y s Hy.
    destruct (installFilter_keeps filterId q0 a0 ch0 (p ++ y) _ Hy) as (x & Hx & Hlabel).
    fold doc doc1 in Hx. destruct x as [| s0 |]; try contradiction.
    simpl in Hlabel. subst s0.
    destruct (relocate_app filterId doc p y) as [y' Hy'].
    rewrite Hy' in Hx |- *. fold p' in Hx |- *.
    rewrite getAt_app, Ho in Hx. simpl in Hx.
    destruct (related_getAt _ _ y' _ _ _ Hred Hx) as (x' & Hx' & Hrel).
    inversion Hrel as [|s1 s1' Hs|]; subst.
    rewrite getAt_app, Hc. simpl. rewrite Hx', Hs. reflexivity.
  - intros s. split; [apply redactText_length|].
    split; [apply redactText_whitespace | apply redactText_lookup].
Qed.

End RedactionTheorem.

Lemma tagged_elements_are_redacted_witness :
  let host := ExampleHost.exampleHost in
  let filterId := js "redact-blur-k3x9q0z1a" in
  let group :=
    Elem (js "g") [mkAttr None (js "data-tags") (js "portrait, Redact-face")]
         [Elem (js "image") [mkAttr (Some XLINK_NS) (js "xlink:href") (js "face.png")] [];
          Elem (js "text") [] [Text (js "Jane Doe")]] in
  let doc := Elem (js "svg") [] [group] in
  processRedactions filterId doc =
  Elem (js "svg") []
    [Elem (js "defs") [] [blurFilter filterId];
     Elem (js "g") [mkAttr None (js "data-tags") (js "portrait, Redact-face")]
       [Elem (js "image")
          [mkAttr (Some XLINK_NS) (js "xlink:href") (js "face.png");
           mkAttr None (js "filter") (js "url(#redact-blur-k3x9q0z1a)");
           mkAttr None (js "style") (js "; filter: blur(150px);")] [];
        Elem (js "text") [] [Text [9646; 9646; 9646; 9646; 32; 9646; 9646; 9646]%N]]] /\
  getAt [1; 1; 0]%nat (processRedactions filterId doc)
  = Some (Text (redactText (js "Jane Doe"))).
Proof.
  intros host filterId group doc. split; [vm_compute; reflexivity|].
  exact (proj1 (proj2 (proj2
           (tagged_elements_are_redacted filterId doc [O] group eq_refl eq_refl eq_refl)))
           [1; 0]%nat (js "Jane Doe") eq_refl).
Defined.

(** ** Navigation *)

Section Navigation.

Local Abbreviation inRange st :=
  (0 <= AppState.spreadIndex st < AppState.totalSpreads st).

Lemma totalSpreads_pos pages hasCover useSpacer :
  pages <> [] -> 1 <= totalSpreads pages hasCover useSpacer.
Proof.
  intros Hne.
  assert (Hlen : 1 <= Z.of_nat (length pages)) by (destruct pages; simpl in *; [congruence | lia]).
  pose proof (ceilHalf_spec (Z.of_nat (length pages))) as H0.
  pose proof (ceilHalf_spec (Z.of_nat (length pages) - 1)) as H1.
  pose proof (ceilHalf_spec (Z.of_nat (length pages) - 1 + 1)) as H2.
  pose proof (ceilHalf_spec (Z.of_nat (length pages) + 1)) as H3.
  unfold totalSpreads.
  destruct (Z.eqb_spec (Z.of_nat (length pages)) 0); [lia|].
  destruct hasCover, useSpacer; simpl; lia.
Qed.

(** The count under the other spacer setting differs by one at most. *)
Lemma totalSpreads_spacer pages hasCover useSpacer :
  totalSpreads pages hasCover useSpacer - 1
  <= totalSpreads pages hasCover (negb useSpacer)
  <= totalSpreads pages hasCover useSpacer + 1.
Proof.
  pose proof (ceilHalf_spec (Z.of_nat (length pages))) as H0.
  pose proof (ceilHalf_spec (Z.of_nat (length pages) - 1)) as H1.
  pose proof (ceilHalf_spec (Z.of_nat (length pages) - 1 + 1)) as H2.
  pose proof (ceilHalf_spec (Z.of_nat (length pages) + 1)) as H3.
  unfold totalSpreads.
  destruct (Z.eqb_spec (Z.of_nat (length pages)) 0); [lia|].
  destruct hasCover, useSpacer; simpl; lia.
Qed.

(** X1. On a book that has pages, the handlers of the navigation (previous,
    next, the keyboard listener, the cover toggle) keep the spread index
    from 0 up to the spread count, excluded, and leave the pages as they
    are; loading a book that has pages sets such an index from any state. *)
Theorem navigation_stays_in_range (st : AppState.BookState) (key : jsstring)
    (newPages : list ProcessedPage) :
  AppState.pages st <> [] ->
  inRange st ->
  (inRange (AppState.handlePrev st) /\
   AppState.pages (AppState.handlePrev st) = AppState.pages st) /\
  (inRange (AppState.handleNext st) /\
   AppState.pages (AppState.handleNext st) = AppState.pages st) /\
  (inRange (AppState.handleKeyDown key st) /\
   AppState.pages (AppState.handleKeyDown key st) = AppState.pages st) /\
  (inRange (AppState.toggleCover st) /\
   AppState.pages (AppState.toggleCover st) = AppState.pages st) /\
  (newPages <> [] -> inRange (AppState.handleFilesLoaded newPages st)).
Proof.
  intros Hne Hr.
  assert (Hprev : inRange (AppState.handlePrev st)).
  { unfold AppState.handlePrev, AppState.totalSpreads in *. simpl. lia. }
  assert (Hnext : inRange (AppState.handleNext st)).
  { unfold AppState.handleNext, AppState.totalSpreads in *. simpl. lia. }
  split; [split; [exact Hprev | reflexivity]|].
  split; [split; [exact Hnext | reflexivity]|].
  split.
  { unfold AppState.handleKeyDown.
    destruct (eqStr key (js "ArrowRight") || eqStr key (js " "));
      [split; [exact Hnext | reflexivity]|].
    destruct (eqStr key (js "ArrowLeft")); [split; [exact Hprev | reflexivity]|].
    split; [exact Hr | reflexivity]. }
  split.
  { split; [|reflexivity].
    unfold AppState.toggleCover, AppState.totalSpreads. simpl.
    pose proof (totalSpreads_pos (AppState.pages st) (negb (AppState.hasCover st))
                  (AppState.useSpacer st) Hne). lia. }
  intros Hnew. unfold AppState.handleFilesLoaded, AppState.totalSpreads. simpl.
  pose proof (totalSpreads_pos newPages true true Hnew). lia.
Qed.

Lemma navigation_stays_in_range_witness :
  let p := mkPage [] [] [] 0 NaN NaN in
  let st := AppState.mkState [p; p; p] 2 true true false in
  0 <= AppState.spreadIndex (AppState.handleKeyDown (js " ") st)
    < AppState.totalSpreads (AppState.handleKeyDown (js " ") st).
Proof.
  intros p st.
  exact (proj1 (proj1 (proj2 (proj2
           (navigation_stays_in_range st (js " ") [p] ltac:(discriminate)
              ltac:(vm_compute; split; [discriminate | reflexivity])))))).
Defined.

(** X2. The two buttons are enabled exactly when their handler moves: with
    the index in range, [canGoNext] holds when [handleNext] goes one spread
    forward and fails when it leaves the state as it is, and the same for
    [canGoPrev] and [handlePrev] one spread back. *)
Theorem buttons_enabled_when_handlers_move (st : AppState.BookState) :
  inRange st ->
  (if AppState.canGoNext st
   then AppState.spreadIndex (AppState.handleNext st) = AppState.spreadIndex st + 1
   else AppState.handleNext st = st) /\
  (if AppState.canGoPrev st
   then AppState.spreadIndex (AppState.handlePrev st) = AppState.spreadIndex st - 1
   else AppState.handlePrev st = st).
Proof.
  intros Hr. destruct st as [pages s c u l].
  unfold AppState.canGoNext, AppState.canGoPrev, AppState.handleNext,
    AppState.handlePrev, AppState.totalSpreads in *. simpl in *.
  split.
  - destruct (Z.ltb_spec s (totalSpreads pages c u - 1)); [lia|].
    f_equal. lia.
  - destruct (Z.ltb_spec 0 s); [lia|]. f_equal. lia.
Qed.

Lemma buttons_enabled_when_handlers_move_witness :
  let p := mkPage [] [] [] 0 NaN NaN in
  let st := AppState.mkState [p; p; p] 2 true true false in
  AppState.handleNext st = st /\
  AppState.spreadIndex (AppState.handlePrev st) = 1.
Proof.
  intros p st.
  exact (buttons_enabled_when_handlers_move st
           ltac:(vm_compute; split; [discriminate | reflexivity])).
Defined.

(** X3. The spacer toggle keeps the index, and the count it changes is one
    less at most: the index is then at most the count, that is, one spread
    past the last one, where no page is shown; the next step of the
    navigation in either direction brings it back in range. *)
Theorem toggleSpacer_overshoots_by_one (st : AppState.BookState) :
  AppState.pages st <> [] ->
  inRange st ->
  let st' := AppState.toggleSpacer st in
  AppState.spreadIndex st' = AppState.spreadIndex st /\
  0 <= AppState.spreadIndex st' <= AppState.totalSpreads st' /\
  inRange (AppState.handlePrev st') /\
  inRange (AppState.handleNext st').
Proof.
  intros Hne Hr st'. subst st'.
  pose proof (totalSpreads_spacer (AppState.pages st) (AppState.hasCover st)
                (AppState.useSpacer st)) as Hs.
  pose proof (totalSpreads_pos (AppState.pages st) (AppState.hasCover st)
                (negb (AppState.useSpacer st)) Hne) as Hp.
  unfold AppState.toggleSpacer, AppState.handlePrev, AppState.handleNext,
    AppState.totalSpreads in *. simpl.
  repeat split; lia.
Qed.

Lemma toggleSpacer_overshoots_by_one_witness :
  let p0 := mkPage [] (js "a") [] 0 NaN NaN in
  let p1 := mkPage [] (js "b") [] 1 NaN NaN in
  let st := AppState.mkState [p0; p1] 1 false true false in
  let st' := AppState.toggleSpacer st in
  (AppState.spreadIndex st' = 1 /\
   0 <= AppState.spreadIndex st' <= AppState.totalSpreads st' /\
   (0 <= AppState.spreadIndex (AppState.handlePrev st')
    < AppState.totalSpreads (AppState.handlePrev st')) /\
   (0 <= AppState.spreadIndex (AppState.handleNext st')
    < AppState.totalSpreads (AppState.handleNext st'))) /\
  AppState.totalSpreads st' = 1 /\
  showsPage (AppState.displayed st') = false.
Proof.
  intros p0 p1 st st'. split; [|split; reflexivity].
  exact (toggleSpacer_overshoots_by_one st ltac:(discriminate)
           ltac:(vm_compute; split; [discriminate | reflexivity])).
Defined.


Lemma pageAt_NoDup pages (i : nat) p j :
  NoDup pages -> pages !! i = Some p ->
  pageAt pages j = Some p <-> j = Z.of_nat i.
Proof.
  intros Hnd Hi. pose proof (lookup_lt_Some _ _ _ Hi) as Hlt.
  unfold pageAt. split.
  - destruct (Z.leb_spec 0 j), (Z.ltb_spec j (Z.of_nat (length pages))); simpl;
      try discriminate.
    intros Hj. pose proof (NoDup_lookup _ _ _ _ Hnd Hj Hi). lia.
  - intros ->.
    destruct (Z.leb_spec 0 (Z.of_nat i)), (Z.ltb_spec (Z.of_nat i) (Z.of_nat (length pages)));
      simpl; try lia.
    rewrite Nat2Z.id. exact Hi.
Qed.

(** X4. In a book whose pages are distinct, under each of the four layouts,
    every page is shown on exactly one spread, and that spread is below the
    spread count: no page is left out and none is shown twice. *)
Theorem each_page_on_one_spread pages hasCover useSpacer (i : nat) p :
  NoDup pages -> pages !! i = Some p ->
  exists s,
    0 <= s < totalSpreads pages hasCover useSpacer /\
    forall s',
      (left (displayedPages pages s' hasCover useSpacer) = Some p \/
       right (displayedPages pages s' hasCover useSpacer) = Some p) <-> s' = s.
Proof.
  intros Hnd Hi. pose proof (lookup_lt_Some _ _ _ Hi) as Hlt.
  pose proof (pageAt_NoDup pages i p) as Hat.
  assert (H0 : pages !! 0%nat = Some p <-> Z.of_nat i = 0).
  { split.
    - intros H. pose proof (NoDup_lookup _ _ _ _ Hnd H Hi). lia.
    - intros H. replace O with i by lia. exact Hi. }
  pose proof (Z.div_mod (Z.of_nat i) 2 ltac:(lia)) as Hq.
  pose proof (Z.mod_pos_bound (Z.of_nat i) 2 ltac:(lia)) as Hr.
  set (q := Z.of_nat i / 2) in *. set (r := Z.of_nat i mod 2) in *.
  pose proof (ceilHalf_spec (Z.of_nat (length pages))) as C0.
  pose proof (ceilHalf_spec (Z.of_nat (length pages) - 1)) as C1.
  pose proof (ceilHalf_spec (Z.of_nat (length pages) - 1 + 1)) as C2.
  pose proof (ceilHalf_spec (Z.of_nat (length pages) + 1)) as C3.
  unfold totalSpreads, displayedPages.
  destruct (Z.eqb_spec (Z.of_nat (length pages)) 0) as [|_]; [lia|].
  destruct hasCover, useSpacer; simpl.
  - exists (if Z.of_nat i =? 0 then 0 else 1 + q).
    split; [destruct (Z.eqb_spec (Z.of_nat i) 0); lia|].
    intros s'. destruct (Z.eqb_spec s' 0) as [->|Hs']; simpl.
    + transitivity (pages !! 0%nat = Some p);
        [split; [intros [?|?]; [discriminate | assumption] | right; assumption]|].
      rewrite H0. destruct (Z.eqb_spec (Z.of_nat i) 0); lia.
    + destruct (Z.eqb_spec (1 + (s' - 1) * 2 - 1) 0); simpl;
        rewrite !Hat by assumption;
        destruct (Z.eqb_spec (Z.of_nat i) 0); lia.
  - exists (if Z.of_nat i =? 0 then 0 else if r =? 1 then 1 + q else q).
    split; [destruct (Z.eqb_spec (Z.of_nat i) 0), (Z.eqb_spec r 1); lia|].
    intros s'. destruct (Z.eqb_spec s' 0) as [->|Hs']; simpl.
    + transitivity (pages !! 0%nat = Some p);
        [split; [intros [?|?]; [discriminate | assumption] | right; assumption]|].
      rewrite H0. destruct (Z.eqb_spec (Z.of_nat i) 0), (Z.eqb_spec r 1); lia.
    + rewrite !Hat by assumption.
      destruct (Z.eqb_spec (Z.of_nat i) 0), (Z.eqb_spec r 1); lia.
  - exists (if r =? 1 then q + 1 else q).
    split; [destruct (Z.eqb_spec r 1); lia|].
    intros s'. destruct (Z.ltb_spec (s' * 2 - 1) 0); simpl;
      rewrite !Hat by assumption; destruct (Z.eqb_spec r 1); lia.
  - exists q. split; [lia|].
    intros s'. rewrite !Hat by assumption. lia.
Qed.

Lemma each_page_on_one_spread_witness :
  let p0 := mkPage [] (js "a") [] 0 NaN NaN in
  let p1 := mkPage [] (js "b") [] 1 NaN NaN in
  let p2 := mkPage [] (js "c") [] 2 NaN NaN in
  exists s,
    0 <= s < totalSpreads [p0; p1; p2] true true /\
    forall s',
      (left (displayedPages [p0; p1; p2] s' true true) = Some p2 \/
       right (displayedPages [p0; p1; p2] s' true true) = Some p2) <-> s' = s.
Proof.
  intros p0 p1 p2.
  apply (each_page_on_one_spread [p0; p1; p2] true true 2 p2); [|reflexivity].
  repeat constructor; rewrite ?elem_of_cons, ?elem_of_nil; intros H;
    repeat destruct H as [H|H]; try discriminate; assumption.
Defined.

End Navigation.

(** ** The traversal, without a failure *)

Lemma Entry_induction (P : Entry -> Prop) :
  (forall outcome, P (FileEntry outcome)) ->
  (forall dirReader,
     (forall child, Listed dirReader child -> P child) -> P (DirectoryEntry dirReader)) ->
  P OtherEntry ->
  forall entry, P entry.
Proof.
  intros HF HD HO.
  assert (HD' : forall dirReader,
             Forall (λ batch, match batch with
                              | Ok entries => Forall P entries
                              | Rejected _ => True
                              end) dirReader -> P (DirectoryEntry dirReader)).
  { intros dirReader Hall. apply HD. intros child HL.
    induction HL as [e es rest child Hin|e es rest child _ IH].
    - inversion Hall as [|? ? Hbatch _]; subst.
      rewrite Forall_forall in Hbatch. apply Hbatch. exact Hin.
    - inversion Hall; subst. apply IH. assumption. }
  clear HD.
  fix IH 1. intros [outcome|dirReader|]; [apply HF| |apply HO].
  apply HD'.
  induction dirReader as [|batch rest IHr]; constructor; [|exact IHr].
  destruct batch as [entries|err]; [|exact I].
  induction entries as [|x entries IHe]; constructor; [apply IH | exact IHe].
Qed.

Lemma readAllEntries_Rejected {A} (dirReader : list (result (list A))) : forall err,
  readAllEntries dirReader = Rejected err -> ListingFails dirReader.
Proof.
  induction dirReader as [|[[|e es]|err'] rest IH]; simpl; intros err; try discriminate.
  - destruct (readAllEntries rest); simpl; [discriminate|].
    intros _. apply listing_fails_later. eapply IH. reflexivity.
  - intros _. apply listing_fails_now.
Qed.

Lemma readAllEntries_Listed {A} (dirReader : list (result (list A))) entries child :
  readAllEntries dirReader = Ok entries -> child ∈ entries -> Listed dirReader child.
Proof.
  revert entries.
  induction dirReader as [|[[|e es]|err'] rest IH]; simpl; intros entries Hread Hin;
    try (injection Hread as <-; inversion Hin); try discriminate.
  apply bind_Ok in Hread as (more & Hmore & Heq). injection Heq as <-.
  change (e :: es ++ more) with ((e :: es) ++ more) in Hin.
  apply elem_of_app in Hin as [Hin|Hin].
  - apply listed_now. exact Hin.
  - apply listed_later. eapply IH; eassumption.
Qed.

Lemma traverseAll_Rejected entries err :
  traverseAll entries = Rejected err ->
  exists child, child ∈ entries /\ traverseFileTree child = Rejected err.
Proof.
  induction entries as [|c entries IH]; simpl; [discriminate|].
  destruct (traverseFileTree c) as [files|err'] eqn:Hc; simpl.
  - destruct (traverseAll entries); simpl; [discriminate|].
    intros Heq. injection Heq as ->.
    destruct (IH eq_refl) as (child & Hin & Hchild).
    exists child. split; [right; exact Hin | exact Hchild].
  - intros Heq. injection Heq as ->. exists c. split; [left | exact Hc].
Qed.

Lemma traverseFileTree_Rejected entry : forall err,
  traverseFileTree entry = Rejected err -> TraversalFails entry.
Proof.
  induction entry as [outcome|dirReader IH|] using Entry_induction; intros err.
  - simpl. destruct outcome; simpl; [discriminate|]. intros _. apply read_fails.
  - rewrite traverseFileTree_directory.
    destruct (readAllEntries dirReader) as [entries|err'] eqn:Hread; simpl.
    + intros Hall. apply traverseAll_Rejected in Hall as (child & Hin & Hchild).
      pose proof (readAllEntries_Listed _ _ _ Hread Hin) as HL.
      eapply child_fails; [exact HL|]. eapply IH; eassumption.
    + intros _. apply listing_fails. eapply readAllEntries_Rejected. exact Hread.
  - discriminate.
Qed.

(** X5. [readAllEntries] returns the entries of the batches that come
    before the first empty batch, in their order; what the reader would
    answer after the empty batch, a failure included, is never asked for. *)
Theorem readAllEntries_stops_at_empty_batch {A} (batches : list (list A))
    (later : list (result (list A))) :
  Forall (λ batch, batch <> []) batches ->
  readAllEntries ((Ok <$> batches) ++ Ok [] :: later) = Ok (concat batches).
Proof.
  induction 1 as [|batch batches Hne _ IH]; [reflexivity|].
  destruct batch as [|e es]; [contradiction|].
  cbn [fmap list_fmap app readAllEntries concat].
  change (list_fmap _ _ Ok batches) with (Ok <$> batches).
  rewrite IH. reflexivity.
Qed.

Lemma readAllEntries_stops_at_empty_batch_witness :
  readAllEntries [Ok [1; 2]; Ok [3]; Ok []; Rejected (js "never read"); Ok [4]]
  = Ok [1; 2; 3].
Proof.
  apply (readAllEntries_stops_at_empty_batch [[1; 2]; [3]]
           [Rejected (js "never read"); Ok [4]]).
  repeat constructor; discriminate.
Defined.

(** X6. The traversal of an entry rejects exactly when it meets a failure:
    the read of a file entry of the tree fails, or a directory listing of
    it fails before its empty batch. Without one, [traverseFileTree]
    returns a file list. *)
Theorem traversal_rejects_exactly_on_failure (entry : Entry) :
  (exists err, traverseFileTree entry = Rejected err) <-> TraversalFails entry.
Proof.
  split.
  - intros [err Ht]. eapply traverseFileTree_Rejected. exact Ht.
  - apply traverseFileTree_fails.
Qed.

(** ** The ingestion as a whole *)

Lemma collectItems_from items entry :
  entry ∈ (collectItems items).1 ->
  exists item, item ∈ items /\ webkitGetAsEntry item = Some entry.
Proof.
  induction items as [|i items IH]; simpl; [intros H; inversion H|].
  destruct (collectItems items) as [entries allFiles]. simpl in IH.
  destruct (webkitGetAsEntry i) as [e|] eqn:He.
  - simpl. intros Hin. apply elem_of_cons in Hin as [->|Hin].
    + exists i. split; [left | exact He].
    + destruct (IH Hin) as (item & Hitem & Hentry).
      exists item. split; [right; exact Hitem | exact Hentry].
  - intros Hin.
    assert (Hin' : entry ∈ entries).
    { destruct (eqStr (kind i) (js "file")); [|exact Hin].
      destruct (getAsFile i); exact Hin. }
    destruct (IH Hin') as (item & Hitem & Hentry).
    exists item. split; [right; exact Hitem | exact Hentry].
Qed.

Lemma defaultDimensions_truthy {host : Host} dims :
  falsyNum (defaultDimensions dims).1 = false /\
  falsyNum (defaultDimensions dims).2 = false.
Proof.
  unfold defaultDimensions. simpl.
  destruct (falsyNum dims.1) eqn:H1, (falsyNum dims.2) eqn:H2; auto.
Qed.

Section IngestionFacts.
Context {host : Host}.

(** A page record of a document: its name is the name of the file, and
    its dimensions are truthy. *)
Local Abbreviation pageOf file page :=
  (name page = fileName file /\
   falsyNum (width page) = false /\ falsyNum (height page) = false).

Lemma processSvg_Ok reg k file :
  isOk (text file) = true ->
  exists page, processSvg reg k file = Ok page /\ pageOf file page.
Proof.
  unfold processSvg. destruct (text file) as [content|]; [intros _|discriminate].
  simpl. destruct (structuredPhase reg k content) as [content' dims].
  eexists. split; [reflexivity|]. simpl.
  split; [reflexivity | apply defaultDimensions_truthy].
Qed.

Lemma processSvg_inv reg k file page :
  processSvg reg k file = Ok page -> pageOf file page.
Proof.
  intros Hp.
  destruct (text file) as [content|err] eqn:Ht.
  - destruct (processSvg_Ok reg k file) as (page' & Hp' & Hof);
      [rewrite Ht; reflexivity|].
    congruence.
  - unfold processSvg in Hp. rewrite Ht in Hp. discriminate.
Qed.

Lemma processSvgFiles_Ok reg svgFiles : forall k,
  Forall (λ file, isOk (text file) = true) svgFiles ->
  exists pages, processSvgFiles reg k svgFiles = Ok pages.
Proof.
  induction svgFiles as [|file rest IH]; intros k Hall; simpl; [eauto|].
  inversion Hall as [|? ? Hfile Hrest]; subst.
  destruct (processSvg_Ok reg k file Hfile) as (page & -> & _).
  destruct (IH (S k) Hrest) as (pages & ->). simpl. eauto.
Qed.

Lemma processSvgFiles_inv reg svgFiles : forall k pages,
  processSvgFiles reg k svgFiles = Ok pages ->
  Forall2 (λ file page, pageOf file page) svgFiles pages.
Proof.
  induction svgFiles as [|file rest IH]; intros k pages; simpl.
  - intros Heq. injection Heq as <-. constructor.
  - intros Hall. apply bind_Ok in Hall as (page & Hpage & Hall).
    apply bind_Ok in Hall as (more & Hmore & Heq). injection Heq as <-.
    constructor; [eapply processSvg_inv; exact Hpage | eapply IH; exact Hmore].
Qed.

Lemma processSvgFiles_Rejected reg svgFiles : forall k err,
  processSvgFiles reg k svgFiles = Rejected err ->
  exists file, file ∈ svgFiles /\ isOk (text file) = false.
Proof.
  induction svgFiles as [|file rest IH]; intros k err; simpl; [discriminate|].
  destruct (isOk (text file)) eqn:Hread.
  - destruct (processSvg_Ok reg k file Hread) as (page & -> & _). simpl.
    destruct (processSvgFiles reg (S k) rest) as [pages|err'] eqn:Hrest; simpl;
      [discriminate|].
    intros _. destruct (IH _ _ Hrest) as (f & Hin & Hf).
    exists f. split; [right; exact Hin | exact Hf].
  - intros _. exists file. split; [left | exact Hread].
Qed.

(** The sequencer keeps the records, up to their order and their index. *)
Lemma sequencePages_Permutation processedPages :
  Permutation (List.map (setIndex 0) (sequencePages processedPages))
              (List.map (setIndex 0) processedPages).
Proof.
  unfold sequencePages.
  destruct (imap_setIndex (sort comparePages processedPages)) as (_ & _ & ->).
  apply Permutation_map, sort_Permutation.
Qed.

Lemma processFiles_Ok items pages :
  processFiles items = Ok pages ->
  exists allFiles reg processedPages,
    collectFiles items = Ok allFiles /\
    processSvgFiles reg O
      (List.filter isSvg (List.filter (λ f, negb (isHidden f)) allFiles))
    = Ok processedPages /\
    pages = sequencePages processedPages.
Proof.
  unfold processFiles. intros H.
  apply bind_Ok in H as (allFiles & Hcollect & H).
  apply bind_Ok in H as (reg & Hreg & H).
  apply bind_Ok in H as (processedPages & Hpages & Heq). injection Heq as <-.
  exists allFiles, reg, processedPages. auto.
Qed.

(** X7. [processFiles] rejects only on one of the two fatal errors: the
    traversal of a dropped entry meets a failure, or the content of a
    document that is not hidden cannot be read. No failure of an asset, of
    the parser or of a lookup makes it reject. *)
Theorem ingestion_rejects_only_on_fatal_errors (items : Items) err :
  processFiles items = Rejected err ->
  (exists list item entry,
     items = DataTransferItemList list /\ item ∈ list /\
     webkitGetAsEntry item = Some entry /\ TraversalFails entry) \/
  (exists allFiles file,
     collectFiles items = Ok allFiles /\ file ∈ allFiles /\
     isHidden file = false /\ isSvg file = true /\ isOk (text file) = false).
Proof.
  unfold processFiles. intros H.
  destruct (collectFiles items) as [allFiles|err'] eqn:Hcollect; simpl in H.
  - right.
    set (kept := List.filter (λ f, negb (isHidden f)) allFiles) in *.
    destruct (buildRegistry_Ok (completion (List.filter (λ f, negb (isSvg f)) kept)))
      as (reg & Hreg).
    rewrite Hreg in H. simpl in H.
    destruct (processSvgFiles reg O (List.filter isSvg kept)) as [pages|err''] eqn:Hp;
      simpl in H; [discriminate|].
    apply processSvgFiles_Rejected in Hp as (file & Hin & Hread).
    apply list_elem_of_In, filter_In in Hin as [Hin Hsvg].
    apply filter_In in Hin as [Hin Hhid].
    exists allFiles, file. split; [reflexivity|].
    split; [apply list_elem_of_In; exact Hin|].
    split; [destruct (isHidden file); [discriminate | reflexivity]|].
    split; assumption.
  - left. destruct items as [list|files]; [|discriminate].
    simpl in Hcollect.
    pose proof (collectItems_from list) as Hfrom.
    destruct (collectItems list) as [entries direct]. simpl in Hfrom.
    destruct (traverseAll entries) as [traversed|err''] eqn:Hall; simpl in Hcollect;
      [discriminate|].
    apply traverseAll_Rejected in Hall as (entry & Hin & Hentry).
    destruct (Hfrom entry Hin) as (item & Hitem & He).
    exists list, item, entry. split; [reflexivity|]. split; [exact Hitem|].
    split; [exact He|]. eapply traverseFileTree_Rejected. exact Hentry.
Qed.

(** X8. The pages are the documents: when [processFiles] returns, the names
    of its pages are, up to their order, the names of the collected files
    that are not hidden and are SVG documents, one page for each. A hidden
    file and an asset never become a page, and no document is dropped,
    whatever the parser made of it. *)
Theorem pages_are_the_visible_documents (items : Items) pages :
  processFiles items = Ok pages ->
  exists allFiles,
    collectFiles items = Ok allFiles /\
    Permutation (List.map name pages)
      (List.map fileName
         (List.filter isSvg (List.filter (λ f, negb (isHidden f)) allFiles))).
Proof.
  intros H. apply processFiles_Ok in H as (allFiles & reg & processed & Hc & Hp & ->).
  exists allFiles. split; [exact Hc|].
  apply processSvgFiles_inv in Hp.
  set (svgFiles := List.filter isSvg _) in *.
  assert (Hnames : List.map fileName svgFiles = List.map name processed).
  { induction Hp as [|file page files pages' (Hn & _) _ IH]; simpl; [reflexivity|].
    rewrite Hn, IH. reflexivity. }
  rewrite Hnames.
  pose proof (sequencePages_Permutation processed) as Hperm.
  apply (Permutation_map name) in Hperm.
  rewrite !List.map_map in Hperm. exact Hperm.
Qed.

(** X9. Every page [processFiles] returns has a width and a height that are
    truthy: neither is 0 or NaN, whatever the document declared. *)
Theorem pages_have_truthy_dimensions (items : Items) pages page :
  processFiles items = Ok pages -> page ∈ pages ->
  falsyNum (width page) = false /\ falsyNum (height page) = false.
Proof.
  intros H Hin. apply processFiles_Ok in H as (allFiles & reg & processed & _ & Hp & ->).
  apply processSvgFiles_inv in Hp.
  assert (Hall : Forall (λ p, falsyNum (width p) = false /\ falsyNum (height p) = false)
                   processed).
  { clear Hin. induction Hp as [|file p files pages' (_ & Hd) _ IH]; constructor; assumption. }
  pose proof (sequencePages_Permutation processed) as Hperm.
  assert (Hin' : In (setIndex 0 page) (List.map (setIndex 0) processed)).
  { eapply Permutation_in; [exact Hperm|].
    apply in_map, list_elem_of_In. exact Hin. }
  apply in_map_iff in Hin' as (p0 & Heq & Hp0).
  rewrite Forall_forall in Hall. specialize (Hall p0 ltac:(apply list_elem_of_In; exact Hp0)).
  unfold setIndex in Heq. injection Heq as _ _ _ Hw Hh. rewrite <- Hw, <- Hh. exact Hall.
Qed.

End IngestionFacts.

Lemma ingestion_rejects_only_on_fatal_errors_witness :
  let host := ExampleHost.exampleHost in
  let a := mkFile (js "a.svg") (js "image/svg+xml") (Rejected (js "NotReadableError")) (Ok []) in
  (exists list item entry,
     FileList [a] = DataTransferItemList list /\ item ∈ list /\
     webkitGetAsEntry item = Some entry /\ TraversalFails entry) \/
  (exists allFiles file,
     collectFiles (FileList [a]) = Ok allFiles /\ file ∈ allFiles /\
     isHidden file = false /\ isSvg file = true /\ isOk (text file) = false).
Proof.
  intros host a.
  exact (ingestion_rejects_only_on_fatal_errors (FileList [a]) (js "NotReadableError")
           eq_refl).
Defined.

Lemma pages_are_the_visible_documents_witness :
  let host := ExampleHost.exampleHost in
  let files :=
    [mkFile (js ".hidden.svg") (js "image/svg+xml") (Rejected (js "gone")) (Ok []);
     mkFile (js "b.svg") [] (Ok (js "<svg/>")) (Ok []);
     mkFile (js "a.SVG") [] (Ok (js "not a document")) (Ok []);
     mkFile (js "paper.png") (js "image/png") (Ok [])
            (Ok (js "data:image/png;base64,AAAA"))] in
  exists pages,
    processFiles (FileList files) = Ok pages /\
    Permutation (List.map name pages) [js "b.svg"; js "a.SVG"].
Proof.
  intros host files.
  destruct (processFiles (FileList files)) as [pages|err] eqn:Hp;
    [|vm_compute in Hp; discriminate].
  exists pages. split; [reflexivity|].
  destruct (pages_are_the_visible_documents (FileList files) pages Hp)
    as (allFiles & Hc & Hperm).
  injection Hc as <-. exact Hperm.
Defined.

Lemma pages_have_truthy_dimensions_witness :
  let host := ExampleHost.exampleHost in
  let files := [mkFile (js "b.svg") [] (Ok (js "<svg viewBox='0 0 0 0'/>")) (Ok [])] in
  match processFiles (FileList files) with
  | Ok (page :: _) => falsyNum (width page) = false /\ falsyNum (height page) = false
  | _ => False
  end.
Proof.
  intros host files.
  destruct (processFiles (FileList files)) as [[|page pages]|err] eqn:Hp;
    [vm_compute in Hp; discriminate| |vm_compute in Hp; discriminate].
  apply (pages_have_truthy_dimensions (FileList files) (page :: pages) page Hp). left.
Defined.

Lemma traverseAll_files files :
  traverseAll (List.map (λ file, FileEntry (Ok file)) files) = Ok files.
Proof.
  induction files as [|file files IH]; simpl; [reflexivity|].
  rewrite IH. reflexivity.
Qed.

Section DropFacts.
Context {host : Host}.

(** X10. Flat input is one input: a drop whose items are file entries, in
    a browser that gives entries, and a drop whose items give their files
    directly, in one that does not, are processed as the file list of the
    same files is. *)
Theorem flat_drop_is_a_file_list (items : list DataTransferItem) (files : list File) :
  Forall2 (λ item file, webkitGetAsEntry item = Some (FileEntry (Ok file))) items files \/
  Forall2 (λ item file, webkitGetAsEntry item = None /\ kind item = js "file" /\
                        getAsFile item = Some file) items files ->
  processFiles (DataTransferItemList items) = processFiles (FileList files).
Proof.
  intros H. unfold processFiles.
  assert (Hc : collectFiles (DataTransferItemList items) = Ok files); [|rewrite Hc; reflexivity].
  simpl. destruct H as [H|H].
  - assert (Hi : collectItems items = (List.map (λ file, FileEntry (Ok file)) files, [])).
    { induction H as [|item file items files He _ IH]; simpl; [reflexivity|].
      rewrite IH, He. reflexivity. }
    rewrite Hi, traverseAll_files. reflexivity.
  - assert (Hi : collectItems items = ([], files)).
    { induction H as [|item file items files (He & Hk & Hf) _ IH]; simpl; [reflexivity|].
      rewrite IH, He, Hk, Hf. reflexivity. }
    rewrite Hi. simpl. rewrite app_nil_r. reflexivity.
Qed.

(** X11. A dropped folder is processed as its entries are: when the listing
    of a directory entry succeeds, dropping the directory gives what
    dropping the listed entries themselves gives. The folders of a drop
    play no part in its result. *)
Theorem dropped_folder_is_its_entries (item : DataTransferItem)
    (dirReader : list (result (list Entry))) (entries : list Entry) :
  webkitGetAsEntry item = Some (DirectoryEntry dirReader) ->
  readAllEntries dirReader = Ok entries ->
  processFiles (DataTransferItemList [item]) =
  processFiles (DataTransferItemList
                  (List.map (λ entry, mkItem (Some entry) (kind item) (getAsFile item))
                            entries)).
Proof.
  intros He Hread. unfold processFiles.
  assert (Hc : collectFiles (DataTransferItemList [item]) =
               collectFiles (DataTransferItemList
                  (List.map (λ entry, mkItem (Some entry) (kind item) (getAsFile item))
                            entries))); [|rewrite Hc; reflexivity].
  cbn [collectFiles collectItems]. rewrite He.
  assert (Hi : collectItems
                 (List.map (λ entry, mkItem (Some entry) (kind item) (getAsFile item)) entries)
               = (entries, [])).
  { clear. induction entries as [|e entries IH]; simpl; [reflexivity|].
    rewrite IH. reflexivity. }
  rewrite Hi. cbn [traverseAll]. rewrite traverseFileTree_directory, Hread.
  simpl. destruct (traverseAll entries); simpl; [|reflexivity].
  rewrite app_nil_r. reflexivity.
Qed.

(** X12. A book that is loaded opens at its cover: when [processFiles]
    returns at least one page, the state [handleDrop] leaves is not
    loading, and the reader shows the page of index 0 alone, on the right,
    whatever the index and the two toggles were before the drop. *)
Theorem loaded_book_opens_at_cover (items : Items) (st : AppState.BookState) pages :
  processFiles items = Ok pages -> pages <> [] ->
  let st' := AppState.handleDrop items st in
  AppState.isLoading st' = false /\
  AppState.pages st' = pages /\
  exists cover,
    AppState.displayed st' = mkDisplayed None (Some cover) (Some true) (Some false) /\
    index cover = 0.
Proof.
  intros Hp Hne st'. subst st'. unfold AppState.handleDrop. rewrite Hp.
  split; [reflexivity|]. split; [reflexivity|].
  apply processFiles_Ok in Hp as (allFiles & reg & processed & _ & _ & ->).
  unfold sequencePages in *.
  destruct (imap_setIndex (sort comparePages processed)) as (Hi & _ & _).
  destruct (imap setIndex (sort comparePages processed)) as [|cover rest] eqn:Hs;
    [contradiction|].
  exists cover. split; [reflexivity|].
  destruct (sort comparePages processed); simpl in Hi; [discriminate|].
  injection Hi as Hi _. exact Hi.
Qed.

(** X13. A drop that fails leaves the application loading: when
    [processFiles] rejects, [handleDrop] and [handleFileInput] keep the
    pages, the index and the toggles, the loading flag stays set, and no
    handler of the navigation, of the toggles or of the reset clears it. *)
Theorem failed_drop_keeps_loading (items : Items) (files : list File)
    (st : AppState.BookState) err :
  processFiles items = Rejected err ->
  (items = FileList files -> files <> [] ->
   AppState.handleFileInput (Some files) st = AppState.handleDrop items st) /\
  let st' := AppState.handleDrop items st in
  st' = AppState.mkState (AppState.pages st) (AppState.spreadIndex st)
          (AppState.hasCover st) (AppState.useSpacer st) true /\
  forall key,
    AppState.isLoading (AppState.handlePrev st') = true /\
    AppState.isLoading (AppState.handleNext st') = true /\
    AppState.isLoading (AppState.handleKeyDown key st') = true /\
    AppState.isLoading (AppState.toggleCover st') = true /\
    AppState.isLoading (AppState.toggleSpacer st') = true /\
    AppState.isLoading (AppState.handleReset st') = true.
Proof.
  intros Hp. split.
  - intros -> Hne. destruct files as [|f fs]; [contradiction|]. reflexivity.
  - unfold AppState.handleDrop. rewrite Hp. split; [reflexivity|].
    intros key. unfold AppState.handleKeyDown.
    destruct (eqStr key (js "ArrowRight") || eqStr key (js " "));
      [|destruct (eqStr key (js "ArrowLeft"))]; repeat split.
Qed.

End DropFacts.

Lemma flat_drop_is_a_file_list_witness :
  let host := ExampleHost.exampleHost in
  let a := mkFile (js "a.svg") (js "image/svg+xml") (Ok (js "<svg/>")) (Ok []) in
  let b := mkFile (js "b.png") (js "image/png") (Ok []) (Ok (js "data:image/png;base64,AAAA")) in
  processFiles (DataTransferItemList
                  [mkItem (Some (FileEntry (Ok a))) (js "file") None;
                   mkItem (Some (FileEntry (Ok b))) (js "file") None])
  = processFiles (FileList [a; b]).
Proof.
  intros host a b. apply flat_drop_is_a_file_list. left.
  repeat constructor.
Defined.

Lemma dropped_folder_is_its_entries_witness :
  let host := ExampleHost.exampleHost in
  let a := mkFile (js "a.svg") (js "image/svg+xml") (Ok (js "<svg/>")) (Ok []) in
  let b := mkFile (js "b.svg") (js "image/svg+xml") (Ok (js "<svg/>")) (Ok []) in
  let folder := DirectoryEntry [Ok [FileEntry (Ok b)]; Ok [FileEntry (Ok a)]; Ok []] in
  processFiles (DataTransferItemList [mkItem (Some folder) (js "file") None])
  = processFiles (DataTransferItemList
                    [mkItem (Some (FileEntry (Ok b))) (js "file") None;
                     mkItem (Some (FileEntry (Ok a))) (js "file") None]).
Proof.
  intros host a b folder.
  exact (dropped_folder_is_its_entries (mkItem (Some folder) (js "file") None)
           [Ok [FileEntry (Ok b)]; Ok [FileEntry (Ok a)]; Ok []]
           [FileEntry (Ok b); FileEntry (Ok a)] eq_refl eq_refl).
Defined.

Lemma loaded_book_opens_at_cover_witness :
  let host := ExampleHost.exampleHost in
  let a := mkFile (js "a.svg") (js "image/svg+xml") (Ok (js "<svg/>")) (Ok []) in
  let st := AppState.mkState [] (-1) false false false in
  AppState.isLoading (AppState.handleDrop (FileList [a]) st) = false.
Proof.
  intros host a st.
  destruct (processFiles (FileList [a])) as [[|page pages]|err] eqn:Hp;
    [vm_compute in Hp; discriminate| |vm_compute in Hp; discriminate].
  exact (proj1 (loaded_book_opens_at_cover (FileList [a]) st (page :: pages) Hp
                  ltac:(discriminate))).
Defined.

Lemma failed_drop_keeps_loading_witness :
  let host := ExampleHost.exampleHost in
  let a := mkFile (js "a.svg") (js "image/svg+xml") (Rejected (js "NotReadableError")) (Ok []) in
  AppState.isLoading (AppState.handleDrop (FileList [a]) AppState.initial) = true.
Proof.
  intros host a.
  pose proof (failed_drop_keeps_loading (FileList [a]) [a] AppState.initial
                (js "NotReadableError") eq_refl) as [_ [H _]].
  rewrite H. reflexivity.
Defined.


(** ** The registry, entry by entry *)

Section RegistryEntries.
Context {host : Host}.

Lemma registerAll_app l1 l2 : forall reg,
  registerAll reg (l1 ++ l2) = reg' ← registerAll reg l1; registerAll reg' l2.
Proof.
  induction l1 as [|file l1 IH]; intros reg; simpl; [reflexivity|].
  rewrite registerAsset_Ok. simpl. apply IH.
Qed.

(** The assets that are read under other keys leave an entry as it is. *)
Lemma registerAll_keeps assetFiles key : forall reg reg',
  registerAll reg assetFiles = Ok reg' ->
  ((forall file, file ∈ assetFiles -> readable file = true -> fileName file <> key) ->
   assetMap reg' !! key = assetMap reg !! key) /\
  ((forall file, file ∈ assetFiles -> readable file = true ->
      toLowerCase (fileName file) <> key) ->
   assetMapLower reg' !! key = assetMapLower reg !! key).
Proof.
  induction assetFiles as [|file rest IH]; intros reg reg'; simpl.
  - intros Heq. injection Heq as <-. auto.
  - rewrite registerAsset_Ok. simpl. intros Hall.
    destruct (IH _ _ Hall) as [Hexact Hlower].
    split; intros Hother.
    + rewrite Hexact by (intros f Hf; apply Hother; right; exact Hf).
      specialize (Hother file ltac:(left)). unfold readable in Hother.
      destruct (dataURL file); [|reflexivity]. simpl.
      apply lookup_insert_ne. apply Hother. reflexivity.
    + rewrite Hlower by (intros f Hf; apply Hother; right; exact Hf).
      specialize (Hother file ltac:(left)). unfold readable in Hother.
      destruct (dataURL file); [|reflexivity]. simpl.
      apply lookup_insert_ne. apply Hother. reflexivity.
Qed.

(** X14. On a collision the asset that is read last wins: the entry of a
    name is the data of the last asset, in the order the reads complete,
    that was read under that name, and the entry of a lowercased name is
    the data of the last asset read whose lowercased name it is. *)
Theorem last_asset_read_wins (before after : list File) (file : File) dataUrl reg :
  buildRegistry (before ++ file :: after) = Ok reg ->
  dataURL file = Ok dataUrl ->
  ((forall later, later ∈ after -> readable later = true ->
      fileName later <> fileName file) ->
   assetMap reg !! fileName file = Some dataUrl) /\
  ((forall later, later ∈ after -> readable later = true ->
      toLowerCase (fileName later) <> toLowerCase (fileName file)) ->
   assetMapLower reg !! toLowerCase (fileName file) = Some dataUrl).
Proof.
  unfold buildRegistry. rewrite registerAll_app. intros Hall Hread.
  apply bind_Ok in Hall as (reg1 & _ & Hall).
  simpl in Hall. rewrite registerAsset_Ok, Hread in Hall. simpl in Hall.
  destruct (registerAll_keeps _ (fileName file) _ _ Hall) as [Hexact _].
  destruct (registerAll_keeps _ (toLowerCase (fileName file)) _ _ Hall) as [_ Hlower].
  split; intros Hother.
  - rewrite (Hexact Hother). simpl. apply lookup_insert_eq.
  - rewrite (Hlower Hother). simpl. apply lookup_insert_eq.
Qed.

(** X15. References are found without regard to case: once the registry is
    built from assets whose data is not empty, a filename whose lowercased
    form is the lowercased name of an asset that was read is found by the
    lookup of the attributes and by the lookup of the [url(...)] pass, and
    both give the same data: that of an asset read under this name, or
    under a name of the same lowercased form. *)
Theorem lookups_ignore_case (assetFiles : list File) reg (file : File) filename :
  buildRegistry assetFiles = Ok reg ->
  (forall asset dataUrl, asset ∈ assetFiles -> dataURL asset = Ok dataUrl -> dataUrl <> []) ->
  file ∈ assetFiles -> readable file = true ->
  toLowerCase filename = toLowerCase (fileName file) ->
  exists asset dataUrl,
    asset ∈ assetFiles /\ dataURL asset = Ok dataUrl /\
    (fileName asset = filename \/ toLowerCase (fileName asset) = toLowerCase filename) /\
    lookupCssUrl reg filename = Some dataUrl /\
    lookupAttribute reg filename = Some dataUrl.
Proof.
  unfold buildRegistry. intros Hall Hdata Hin Hread Hcase.
  destruct (registerAll_spec assetFiles emptyRegistry)
    as (reg' & Hall' & _ & Hkeys & _ & _ & Hfrom & HfromL).
  rewrite Hall in Hall'. injection Hall' as <-.
  assert (Htruthy : forall asset dataUrl, asset ∈ assetFiles -> dataURL asset = Ok dataUrl ->
                      truthyStr (Some dataUrl) = true).
  { intros asset dataUrl Ha Hd. specialize (Hdata asset dataUrl Ha Hd).
    destruct dataUrl; [contradiction | reflexivity]. }
  assert (Hhit : exists asset dataUrl,
             asset ∈ assetFiles /\ dataURL asset = Ok dataUrl /\
             (fileName asset = filename \/
              toLowerCase (fileName asset) = toLowerCase filename) /\
             lookupCssUrl reg filename = Some dataUrl).
  { unfold lookupCssUrl, orElse.
    destruct (assetMap reg !! filename) as [exact|] eqn:Hexact.
    - destruct (Hfrom _ _ Hexact) as [Hold|(asset & Ha & Hd & Hn)];
        [simpl in Hold; rewrite lookup_empty in Hold; discriminate|].
      exists asset, exact. rewrite (Htruthy asset exact Ha Hd). auto.
    - simpl.
      destruct (Hkeys file Hin Hread) as [_ [lower Hlower]].
      rewrite <- Hcase in Hlower. rewrite Hlower.
      destruct (HfromL _ _ Hlower) as [Hold|(asset & Ha & Hd & Hn)];
        [simpl in Hold; rewrite lookup_empty in Hold; discriminate|].
      exists asset, lower. auto. }
  destruct Hhit as (asset & dataUrl & Ha & Hd & Hname & Hcss).
  exists asset, dataUrl. repeat split; try assumption.
  rewrite lookupCssUrl_hit; [exact Hcss|].
  rewrite Hcss. eapply Htruthy; eassumption.
Qed.

End RegistryEntries.

Lemma last_asset_read_wins_witness :
  let host := ExampleHost.exampleHost in
  let first := mkFile (js "logo.png") (js "image/png") (Ok []) (Ok (js "data:,first")) in
  let second := mkFile (js "Logo.PNG") (js "image/png") (Ok []) (Ok (js "data:,second")) in
  let lost := mkFile (js "LOGO.png") (js "image/png") (Ok []) (Rejected []) in
  exists reg,
    buildRegistry [first; second; lost] = Ok reg /\
    assetMapLower reg !! js "logo.png" = Some (js "data:,second").
Proof.
  intros host first second lost.
  destruct (buildRegistry_Ok [first; second; lost]) as [reg Hreg].
  exists reg. split; [exact Hreg|].
  apply (proj2 (last_asset_read_wins [first] [lost] second (js "data:,second") reg
                  Hreg eq_refl)).
  intros later Hin Hread.
  apply elem_of_cons in Hin as [->|Hin]; [discriminate | inversion Hin].
Defined.

Lemma lookups_ignore_case_witness :
  let host := ExampleHost.exampleHost in
  let asset := mkFile (js "Logo.PNG") (js "image/png") (Ok []) (Ok (js "data:,logo")) in
  exists reg found dataUrl,
    buildRegistry [asset] = Ok reg /\
    found ∈ [asset] /\ dataURL found = Ok dataUrl /\
    (fileName found = js "logo.png" \/
     toLowerCase (fileName found) = toLowerCase (js "logo.png")) /\
    lookupCssUrl reg (js "logo.png") = Some dataUrl /\
    lookupAttribute reg (js "logo.png") = Some dataUrl.
Proof.
  intros host asset.
  destruct (buildRegistry_Ok [asset]) as [reg Hreg].
  destruct (lookups_ignore_case [asset] reg asset (js "logo.png") Hreg)
    as (found & dataUrl & H);
    [|left|reflexivity|reflexivity|exists reg, found, dataUrl; split; [exact Hreg | exact H]].
  intros a d Ha Hd. apply elem_of_cons in Ha as [->|Ha]; [|inversion Ha].
  injection Hd as <-. discriminate.
Defined.

(** ** Reference resolution: what is written, and what is left *)

(** What the callback writes is read back as the groups it was written
    from. *)
Lemma matchUrl_plain quote url rest :
  isQuoteGroup quote = true -> forallb plainUnit url = true ->
  matchUrl (urlText quote url ++ rest) = Some (quote, url, rest).
Proof.
  intros Hq Hplain.
  pose proof (plain_noLineTerminator url Hplain) as Hlt.
  pose proof (plain_closingFree quote url ((quote ++ closeParen) ++ rest) Hq Hplain) as Hfree.
  unfold matchUrl, urlText. rewrite <- !app_assoc, stripPrefix_app.
  apply isQuoteGroup_cases in Hq as [->|(c & -> & Hc)].
  - cbn [app] in *.
    rewrite (lazyUntil_intro closeParen url rest Hlt Hfree).
    destruct url as [|d url']; [reflexivity|].
    cbn [app]. simpl in Hplain. apply andb_true_iff in Hplain as [Hd _].
    apply plainUnit_spec in Hd as (-> & _ & _). reflexivity.
  - cbn [app] in *. rewrite Hc.
    change (url ++ c :: closeParen ++ rest) with (url ++ (c :: closeParen) ++ rest).
    rewrite (lazyUntil_intro (c :: closeParen) url rest Hlt Hfree). reflexivity.
Qed.

Lemma replaceFrom_identity callback :
  (forall quote url, callback quote url = urlText quote url) ->
  forall s, replaceFrom callback O s = s.
Proof.
  intros Hcb s. remember (length s) as n eqn:Hn. revert s Hn.
  induction n as [n IH] using lt_wf_ind. intros [|c s] Hn; [reflexivity|].
  rewrite replaceFrom_unfold.
  destruct (matchUrl (c :: s)) as [[[quote url] rest]|] eqn:Hm.
  - apply matchUrl_Some in Hm as (Heq & _ & _).
    rewrite Hcb, Heq at 1. f_equal.
    + apply (IH (length rest)); [|reflexivity].
      rewrite Hn, Heq, length_app. unfold urlText. rewrite !length_app, js_url. simpl. lia.
  - f_equal. apply (IH (length s)); [simpl in Hn; lia | reflexivity].
Qed.

Lemma getAt_processResources {host : Host} reg p : forall doc n,
  getAt p doc = Some n -> getAt p (processResources reg doc) = Some (processResources reg n).
Proof.
  induction p as [|i p IH]; intros doc n; simpl; [congruence|].
  destruct doc as [q a children| |]; try discriminate. simpl.
  rewrite lookup_map. destruct (children !! i) as [c|]; [|discriminate]. simpl.
  apply IH.
Qed.

Section AttributeSteps.
Variables (P Q : Attr -> bool) (resolve : jsstring -> option jsstring).
Hypothesis P_byName : byName P.
Hypothesis Q_byName : byName Q.

(** The first attribute of [Q] after the value of the first one of [P]
    changed: the same attribute, changed when the two are one. *)
Lemma find_changeFirst_which value attrs b :
  List.find Q (changeFirst P value attrs) = Some b ->
  exists a, List.find Q attrs = Some a /\
            (b = a \/ b = mkAttr (attrNS a) (attrName a) value /\ List.find P attrs = Some a).
Proof.
  induction attrs as [|a attrs IH]; simpl; [discriminate|].
  destruct (P a) eqn:Ha; simpl.
  - rewrite Q_byName. destruct (Q a); [|eauto].
    intros [= <-]. eauto.
  - destruct (Q a); [eauto|]. intros Hb.
    destruct (IH Hb) as (a' & Hf & [->|[-> HP]]); eauto.
Qed.

Lemma rewriteFirst_other attrs a :
  List.find Q attrs = Some a ->
  exists a', List.find Q (rewriteFirst P resolve attrs) = Some a' /\
             (attrValue a' = attrValue a \/ resolve (attrValue a) = Some (attrValue a')).
Proof.
  intros Hf. unfold rewriteFirst.
  destruct (List.find P attrs) as [aP|] eqn:HP; [|eauto].
  destruct (resolve (attrValue aP)) as [u|] eqn:Hr; [|eauto].
  pose proof (find_changeFirst_other P Q Q_byName u attrs) as Ho.
  destruct (List.find Q (changeFirst P u attrs)) as [b|] eqn:Hb; [|congruence].
  exists b. split; [reflexivity|].
  destruct (find_changeFirst_which u attrs b Hb) as (a0 & Ha0 & [->|[-> HP']]).
  - left. congruence.
  - right. simpl. congruence.
Qed.

Lemma rewriteFirst_own attrs a :
  List.find P attrs = Some a ->
  exists a', List.find P (rewriteFirst P resolve attrs) = Some a' /\
             attrValue a' = default (attrValue a) (resolve (attrValue a)).
Proof.
  intros Hf. unfold rewriteFirst. rewrite Hf.
  destruct (resolve (attrValue a)) as [u|] eqn:Hr; [|eauto].
  rewrite (find_changeFirst_same P P_byName), Hf. simpl. eauto.
Qed.

End AttributeSteps.

Section ResolutionEffects.
Context {host : Host}.
Variable reg : Registry.

Lemma lookupAttribute_None :
  (forall key, assetMap reg !! key = None) ->
  (forall key, assetMapLower reg !! key = None) ->
  forall filename, lookupAttribute reg filename = None.
Proof.
  intros He Hl filename. unfold lookupAttribute. rewrite !He, !Hl. simpl.
  destruct (decodeURIComponent filename); [|reflexivity].
  rewrite He, Hl. reflexivity.
Qed.

Lemma processAttribute_miss name namespace attrs :
  (forall filename, lookupAttribute reg filename = None) ->
  processAttribute reg name namespace attrs = attrs.
Proof.
  intros Hmiss. unfold processAttribute.
  destruct (negb (truthyStr _)); [reflexivity|].
  destruct (negb (nonEmpty _)); [reflexivity|].
  rewrite Hmiss. reflexivity.
Qed.

Lemma processResources_miss doc :
  (forall filename, lookupAttribute reg filename = None) ->
  processResources reg doc = doc.
Proof.
  intros Hmiss.
  induction doc as [q a children IH|s|t d] using Node_induction; try reflexivity.
  simpl. unfold processElement. rewrite !processAttribute_miss by assumption. f_equal.
  induction IH as [|c children Hc _ IHc]; simpl; [reflexivity|].
  rewrite Hc, IHc. reflexivity.
Qed.

(** X16. Without an asset that could be read, the two resolution passes
    leave a document as it is: the pass over the attributes returns the
    tree it was given, and the pass over [url(...)] the text it was
    given. *)
Theorem nothing_resolves_without_assets (assetFiles : list File) doc content :
  Forall (λ file, readable file = false) assetFiles ->
  buildRegistry assetFiles = Ok reg ->
  processResources reg doc = doc /\ replaceCssUrls reg content = content.
Proof.
  intros Hnone Hreg. unfold buildRegistry in Hreg.
  destruct (registerAll_spec assetFiles emptyRegistry)
    as (reg' & Hall & _ & _ & _ & _ & Hfrom & HfromL).
  rewrite Hreg in Hall. injection Hall as <-.
  rewrite Forall_forall in Hnone.
  assert (He : forall key, assetMap reg !! key = None).
  { intros key. destruct (assetMap reg !! key) as [v|] eqn:Hk; [|reflexivity].
    destruct (Hfrom _ _ Hk) as [Hold|(f & Hf & Hd & _)];
      [simpl in Hold; rewrite lookup_empty in Hold; discriminate|].
    specialize (Hnone f Hf). unfold readable in Hnone. rewrite Hd in Hnone. discriminate. }
  assert (Hl : forall key, assetMapLower reg !! key = None).
  { intros key. destruct (assetMapLower reg !! key) as [v|] eqn:Hk; [|reflexivity].
    destruct (HfromL _ _ Hk) as [Hold|(f & Hf & Hd & _)];
      [simpl in Hold; rewrite lookup_empty in Hold; discriminate|].
    specialize (Hnone f Hf). unfold readable in Hnone. rewrite Hd in Hnone. discriminate. }
  split.
  - apply processResources_miss, lookupAttribute_None; assumption.
  - unfold replaceCssUrls. apply replaceFrom_identity.
    intros quote url. unfold replaceUrl, lookupCssUrl. rewrite He, Hl. simpl.
    destruct (nonEmpty (getFilenameFromPath url)); reflexivity.
Qed.

(** X17. A reference in [url(...)] that is found is embedded between the
    quotes it had: where the text starts with [url(], an optional quote, a
    value without quote, parenthesis or line terminator, the quote again
    and [)], and the filename of the value is found in the registry, the
    pass writes the data in the place of the value and goes on with the
    text after the closing parenthesis. *)
Theorem found_url_is_embedded quote url rest dataUrl :
  isQuoteGroup quote = true -> forallb plainUnit url = true ->
  getFilenameFromPath url <> [] ->
  lookupCssUrl reg (getFilenameFromPath url) = Some dataUrl -> dataUrl <> [] ->
  replaceCssUrls reg (urlText quote url ++ rest)
  = urlText quote dataUrl ++ replaceCssUrls reg rest.
Proof.
  intros Hq Hplain Hname Hfound Hdata. unfold replaceCssUrls.
  pose proof (matchUrl_plain quote url rest Hq Hplain) as Hm.
  destruct (urlText quote url ++ rest) as [|c s] eqn:Hs;
    [unfold urlText in Hs; rewrite js_url in Hs; discriminate|].
  rewrite replaceFrom_unfold, Hm. f_equal.
  unfold replaceUrl. rewrite Hfound.
  destruct (getFilenameFromPath url); [contradiction|].
  destruct dataUrl; [contradiction|]. reflexivity.
Qed.

Hypothesis reg_embedded : registryEmbedded reg.

(** X18. An attribute that resolves is embedded: on a registry of embedded
    data, when an element of the document has an attribute [href], [src]
    or [xlink:href] whose value has a filename that the lookup of the
    attributes finds, the element at the same place of the processed
    document has the data found as the value of that attribute. *)
Theorem found_attribute_is_embedded doc p q attrs children name val dataUrl :
  name = js "href" \/ name = js "src" \/ name = js "xlink:href" ->
  getAt p doc = Some (Elem q attrs children) ->
  getAttribute name attrs = Some val ->
  getFilenameFromPath val <> [] ->
  lookupAttribute reg (getFilenameFromPath val) = Some dataUrl ->
  exists attrs' children',
    getAt p (processResources reg doc) = Some (Elem q attrs' children') /\
    getAttribute name attrs' = Some dataUrl.
Proof.
  intros Hname Hget Hattr Hfile Hfound.
  rewrite (getAt_processResources reg p doc _ Hget). simpl.
  eexists _, _. split; [reflexivity|].
  pose proof (lookupAttribute_embedded reg reg_embedded _ _ Hfound) as Hemb.
  set (r := resolveReference reg).
  assert (Hval : r val = Some dataUrl).
  { unfold r, resolveReference.
    assert (nonEmpty val = true) as ->.
    { destruct val; [|reflexivity]. exfalso. apply Hfile. reflexivity. }
    destruct (getFilenameFromPath val); [contradiction|]. simpl. rewrite Hfound.
    apply embedded_safe in Hemb. unfold safe in Hemb.
    destruct dataUrl; [discriminate | reflexivity]. }
  assert (Hdone : r dataUrl = None) by (eapply resolveReference_once; eassumption).
  set (P := hasName name).
  assert (HP : byName P) by apply hasName_byName.
  (* a call for another test leaves the attribute pending or done *)
  assert (Hother : forall Q l, byName Q ->
            (exists a, List.find P l = Some a /\ (attrValue a = val \/ attrValue a = dataUrl)) ->
            exists a, List.find P (rewriteFirst Q r l) = Some a /\
                      (attrValue a = val \/ attrValue a = dataUrl)).
  { intros Q l HQ (a & Ha & Hv).
    destruct (rewriteFirst_other Q P r HP l a Ha) as (a' & Ha' & Hv').
    exists a'. split; [exact Ha'|].
    destruct Hv as [Hv|Hv], Hv' as [Hv'|Hv']; rewrite Hv in Hv';
      first [left; congruence | right; congruence]. }
  (* the call for the attribute itself leaves it done *)
  assert (Hown : forall l,
            (exists a, List.find P l = Some a /\ (attrValue a = val \/ attrValue a = dataUrl)) ->
            exists a, List.find P (rewriteFirst P r l) = Some a /\ attrValue a = dataUrl).
  { intros l (a & Ha & Hv).
    destruct (rewriteFirst_own P r HP l a Ha) as (a' & Ha' & Hv').
    exists a'. split; [exact Ha'|].
    destruct Hv as [Hv|Hv]; rewrite Hv in Hv'; [rewrite Hval in Hv' | rewrite Hdone in Hv'];
      exact Hv'. }
  (* once done, it stays *)
  assert (Hstay : forall Q l, byName Q ->
            (exists a, List.find P l = Some a /\ attrValue a = dataUrl) ->
            exists a, List.find P (rewriteFirst Q r l) = Some a /\ attrValue a = dataUrl).
  { intros Q l HQ (a & Ha & Hv).
    destruct (rewriteFirst_other Q P r HP l a Ha) as (a' & Ha' & Hv').
    exists a'. split; [exact Ha'|].
    destruct Hv' as [Hv'|Hv']; congruence. }
  assert (Hstart : exists a, List.find P attrs = Some a /\
                             (attrValue a = val \/ attrValue a = dataUrl)).
  { unfold getAttribute in Hattr. fold P in Hattr.
    destruct (List.find P attrs) as [a|]; [|discriminate].
    injection Hattr as Hattr. eauto. }
  assert (Hend : exists a, List.find P (processElement reg attrs) = Some a /\
                           attrValue a = dataUrl).
  { unfold processElement.
    rewrite !processAttribute_plain, !processAttribute_xlink. fold r.
    pose proof (hasName_byName (js "href")) as B1.
    pose proof (hasName_byName (js "src")) as B2.
    pose proof (hasNameNS_byName XLINK_NS (js "href")) as B3.
    pose proof (hasName_byName (js "xlink:href")) as B4.
    destruct Hname as [Hn|[Hn|Hn]]; subst name; fold P.
    - apply Hstay, Hstay, Hstay, Hown; assumption.
    - apply Hstay, Hstay, Hown, Hother; assumption.
    - apply Hown, Hother, Hother, Hother; assumption. }
  destruct Hend as (a & Ha & Hv). unfold getAttribute. fold P. rewrite Ha. simpl.
  f_equal. exact Hv.
Qed.

End ResolutionEffects.

Lemma nothing_resolves_without_assets_witness :
  let host := ExampleHost.exampleHost in
  let lost := mkFile (js "logo.png") (js "image/png") (Ok []) (Rejected []) in
  let doc := Elem (js "svg") [] [Elem (js "image") [mkAttr None (js "href") (js "logo.png")] []] in
  let content := js "<svg style='background:url(logo.png)'/>" in
  exists reg,
    buildRegistry [lost] = Ok reg /\
    processResources reg doc = doc /\ replaceCssUrls reg content = content.
Proof.
  intros host lost doc content.
  destruct (buildRegistry_Ok [lost]) as [reg Hreg].
  exists reg. split; [exact Hreg|].
  apply (nothing_resolves_without_assets reg [lost] doc content); [|exact Hreg].
  repeat constructor.
Defined.

Lemma found_url_is_embedded_witness :
  let host := ExampleHost.exampleHost in
  let data := js "data:image/png;base64,AAAA" in
  let reg := mkRegistry {[ js "Logo.png" := data ]} {[ js "logo.png" := data ]} in
  replaceCssUrls reg (urlText (js "'") (js "img/LOGO.png?v=2") ++ js ";}")
  = urlText (js "'") data ++ replaceCssUrls reg (js ";}").
Proof.
  intros host data reg.
  apply (found_url_is_embedded reg (js "'") (js "img/LOGO.png?v=2") (js ";}") data);
    [reflexivity | reflexivity | discriminate | vm_compute; reflexivity | discriminate].
Defined.

Lemma found_attribute_is_embedded_witness :
  let host := ExampleHost.exampleHost in
  let data := js "data:image/png;base64,AAAA" in
  let reg := mkRegistry {[ js "Logo.png" := data ]} {[ js "logo.png" := data ]} in
  let image := Elem (js "image")
                 [mkAttr None (js "width") (js "10");
                  mkAttr (Some XLINK_NS) (js "xlink:href") (js "img/Logo.png")] [] in
  let doc := Elem (js "svg") [] [Elem (js "g") [] [image]] in
  exists attrs' children',
    getAt [0; 0]%nat (processResources reg doc) = Some (Elem (js "image") attrs' children') /\
    getAttribute (js "xlink:href") attrs' = Some data.
Proof.
  intros host data reg image doc.
  assert (Hreg : registryEmbedded reg).
  { intros key value [H|H]; simpl in H;
      apply lookup_singleton_Some in H as [_ <-]; vm_compute; reflexivity. }
  apply (found_attribute_is_embedded reg Hreg doc [0; 0]%nat (js "image")
           [mkAttr None (js "width") (js "10");
            mkAttr (Some XLINK_NS) (js "xlink:href") (js "img/Logo.png")] []
           (js "xlink:href") (js "img/Logo.png") data);
    [right; right; reflexivity | reflexivity | reflexivity | discriminate
    | vm_compute; reflexivity].
Defined.

(** ** Redaction: what is spared *)

Lemma sameLabel_trans n m k : sameLabel n m -> sameLabel m k -> sameLabel n k.
Proof.
  destruct n, m, k; simpl; try contradiction; try congruence.
  - intros [-> ->] [-> ->]. auto.
  - intros [-> ->] [-> ->]. auto.
Qed.

Lemma sameLabel_tags {host : Host} n m :
  sameLabel n m ->
  hasDataTags m = hasDataTags n /\ isRedactTagged m = isRedactTagged n.
Proof.
  destruct n, m; simpl; try contradiction; auto.
  - intros [-> ->]. auto.
Qed.

Lemma alter_same {A} (f : A -> A) (l : list A) i :
  (forall x, l !! i = Some x -> f x = x) -> alter f i l = l.
Proof.
  revert i. induction l as [|a l IH]; intros [|i] Hf; simpl; try reflexivity.
  - rewrite (Hf a eq_refl). reflexivity.
  - f_equal. apply IH. exact Hf.
Qed.

(** An update that changes nothing at its place changes nothing. *)
Lemma updateAt_same f p : forall n,
  (forall x, getAt p n = Some x -> f x = x) -> updateAt f p n = n.
Proof.
  induction p as [|i p IH]; intros n Hf; simpl; [apply Hf; reflexivity|].
  destruct n as [q a children| |]; try reflexivity.
  f_equal. apply alter_same. intros c Hc. apply IH.
  intros x Hx. apply Hf. simpl. rewrite Hc. exact Hx.
Qed.

(** An update leaves the label of every node that is not at its place or
    below it. *)
Lemma updateAt_label f p1 : forall p n x,
  (forall z, p <> p1 ++ z) -> getAt p n = Some x ->
  exists x', getAt p (updateAt f p1 n) = Some x' /\ sameLabel x x'.
Proof.
  induction p1 as [|i p1 IH]; intros p n x Hp Hx.
  - exfalso. apply (Hp p). reflexivity.
  - destruct n as [q a children| |]; simpl;
      try (exists x; split; [exact Hx | apply sameLabel_refl]).
    destruct p as [|j p].
    + simpl in Hx. injection Hx as <-. eexists. split; [reflexivity|]. simpl. auto.
    + simpl in Hx |- *.
      destruct (children !! j) as [c|] eqn:Hc; [|discriminate]. simpl in Hx.
      destruct (decide (i = j)) as [->|Hne].
      * rewrite list_lookup_alter_eq, Hc. simpl.
        apply IH; [|exact Hx]. intros z ->. apply (Hp z). reflexivity.
      * rewrite list_lookup_alter_ne, Hc by exact Hne. simpl.
        exists x. split; [exact Hx | apply sameLabel_refl].
Qed.

(** The place of a node above a relocated one is the relocation of the
    place of a node above it. *)
Lemma relocate_prefix filterId doc p p1 z :
  relocate filterId doc p = p1 ++ z ->
  exists p0 y, p = p0 ++ y /\ p1 = relocate filterId doc p0.
Proof.
  unfold relocate.
  destruct (appendToFirst isDefs (blurFilter filterId) doc).
  - intros ->. eauto.
  - destruct p as [|i p].
    + intros H. symmetry in H. apply app_eq_nil in H as [-> ->]. exists [], []. auto.
    + destruct p1 as [|j p1]; simpl.
      * intros _. exists [], (i :: p). auto.
      * intros [= <- ->]. exists (i :: p1), z. auto.
Qed.

Section RedactionSpares.
Context {host : Host}.
Variable filterId : jsstring.

Lemma redactElement_untagged c :
  isRedactTagged c = false -> redactElement filterId c = c.
Proof. intros H. unfold redactElement. rewrite H. reflexivity. Qed.

(** The loop over the tagged elements leaves the label of a node that is
    not at the place of a redacted element or below one. *)
Lemma redaction_fold_label doc1 p n paths : forall d,
  within filterId doc1 d ->
  (forall p1, p1 ∈ paths -> exists x, getAt p1 doc1 = Some x /\ hasDataTags x = true) ->
  (forall p1 x z, p1 ∈ paths -> getAt p1 doc1 = Some x -> isRedactTagged x = true ->
     p <> p1 ++ z) ->
  (exists x, getAt p d = Some x /\ sameLabel n x) ->
  exists x, getAt p (foldl (λ d p, updateAt (redactElement filterId) p d) d paths) = Some x /\
            sameLabel n x.
Proof.
  induction paths as [|p1 paths IH]; intros d Hw Hpaths Hapart Hx; simpl; [exact Hx|].
  destruct (Hpaths p1 ltac:(left)) as (x1 & Hx1 & Hd1).
  destruct (related_getAt _ _ p1 _ _ _ Hw Hx1) as (c1 & Hc1 & Hwc1).
  destruct (within_tags filterId x1 c1 Hwc1) as [Hdc Htc].
  apply IH.
  - eapply within_trans; [exact Hw|].
    apply updateAt_related; [apply attrsWithin_refl | apply textWithin_refl|].
    intros x Hx'. assert (x = c1) as -> by congruence.
    apply redactElement_within. congruence.
  - intros p2 Hp2. apply Hpaths. right. exact Hp2.
  - intros p2 x z Hp2. apply Hapart. right. exact Hp2.
  - destruct Hx as (x & Hx & Hlabel).
    destruct (isRedactTagged x1) eqn:Ht1.
    + destruct (updateAt_label (redactElement filterId) p1 p d x) as (x' & Hx' & Hl');
        [|exact Hx|].
      * intros z. eapply Hapart; [left | exact Hx1 | exact Ht1].
      * exists x'. split; [exact Hx' | eapply sameLabel_trans; eassumption].
    + rewrite updateAt_same; [eauto|].
      intros y Hy. assert (y = c1) as -> by congruence.
      apply redactElement_untagged. congruence.
Qed.

(** X19. The redaction spares what is not tagged. A document none of whose
    classified elements is tagged for redaction comes out as it was, with
    no filter added. In any other document, a node that is neither a
    redacted element nor below one is found at its place (one further when
    a [defs] was inserted before it) with the kind, the name, the
    attributes and the text it had. *)
Theorem redaction_spares_untagged_content (doc : Node) :
  let final := processRedactions filterId doc in
  ((forall p e, getAt p doc = Some e -> hasDataTags e = true -> isRedactTagged e = false) ->
   final = doc) /\
  (forall pe e p n,
     getAt pe doc = Some e -> hasDataTags e = true -> isRedactTagged e = true ->
     getAt p doc = Some n ->
     (forall p0 y x, p = p0 ++ y -> getAt p0 doc = Some x -> hasDataTags x = true ->
                     isRedactTagged x = false) ->
     exists n', getAt (relocate filterId doc p) final = Some n' /\ sameLabel n n').
Proof.
  intros final. subst final. unfold processRedactions. split.
  - intros Hnone.
    destruct (List.existsb _ (selectPaths hasDataTags doc)) eqn:Hneeds; [|reflexivity].
    apply existsb_exists in Hneeds as (p & Hp & Ht).
    apply list_elem_of_In, selectPaths_elem in Hp as (q & a & ch & Hget & Hd).
    rewrite Hget in Ht. simpl in Ht. rewrite (Hnone _ _ Hget Hd) in Ht. discriminate.
  - intros pe e p n He Hde Hte Hn Hfree.
    assert (Hneeds : List.existsb (λ p, from_option isRedactTagged false (getAt p doc))
                       (selectPaths hasDataTags doc) = true).
    { apply existsb_exists. exists pe. split.
      - destruct e as [qe ae che| |]; try discriminate.
        apply list_elem_of_In, selectPaths_elem. eauto.
      - rewrite He. exact Hte. }
    rewrite Hneeds.
    assert (Hdoc : exists q a children, doc = Elem q a children).
    { destruct e as [qe ae che| |]; try discriminate.
      destruct doc as [q a children| |]; [eauto|..]; destruct pe; discriminate. }
    destruct Hdoc as (q0 & a0 & ch0 & ->).
    set (doc := Elem q0 a0 ch0) in *.
    apply (redaction_fold_label (installFilter filterId doc) (relocate filterId doc p) n).
    + apply within_refl.
    + intros p1 Hp1. apply selectPaths_elem in Hp1 as (q & a & ch & Hget & Hd). eauto.
    + intros p1 x z Hp1 Hx Ht Heq.
      apply selectPaths_elem in Hp1 as (q & a & ch & Hget & Hd).
      assert (x = Elem q a ch) as -> by congruence.
      apply relocate_prefix in Heq as (p0 & y & -> & ->).
      rewrite getAt_app in Hn.
      destruct (getAt p0 doc) as [x0|] eqn:Hx0; [|discriminate].
      destruct (installFilter_keeps filterId q0 a0 ch0 p0 x0 Hx0) as (x0' & Hx0' & Hl).
      fold doc in Hx0'. rewrite Hget in Hx0'. injection Hx0' as <-.
      apply sameLabel_tags in Hl as [Hl1 Hl2].
      rewrite Hd in Hl1. rewrite Ht in Hl2.
      rewrite (Hfree p0 y x0 eq_refl Hx0 (eq_sym Hl1)) in Hl2. discriminate.
    + apply (installFilter_keeps filterId q0 a0 ch0 p n Hn).
Qed.

End RedactionSpares.

Lemma redaction_spares_untagged_content_witness :
  let host := ExampleHost.exampleHost in
  let filterId := js "redact-blur-k3x9q0z1a" in
  let secret :=
    Elem (js "g") [mkAttr None (js "data-tags") (js "redact")]
         [Elem (js "text") [] [Text (js "Jane Doe")]] in
  let public :=
    Elem (js "g") [mkAttr None (js "data-tags") (js "caption")]
         [Elem (js "text") [] [Text (js "Figure 1")]] in
  let doc := Elem (js "svg") [] [secret; public] in
  exists n',
    getAt [2; 0; 0]%nat (processRedactions filterId doc) = Some n' /\
    sameLabel (Text (js "Figure 1")) n'.
Proof.
  intros host filterId secret public doc.
  apply (proj2 (redaction_spares_untagged_content filterId doc)
           [0]%nat secret [1; 0; 0]%nat (Text (js "Figure 1")));
    try reflexivity.
  intros p0 y x Hp Hx Hd.
  destruct p0 as [|a [|b [|c [|d p0]]]]; simpl in Hp;
    [|injection Hp as <- _|injection Hp as <- <- _|injection Hp as <- <- <- _
     |discriminate Hp];
    simpl in Hx; injection Hx as <-;
    first [discriminate Hd | vm_compute; reflexivity].
Defined.

(** X20. Redacting the text twice is redacting it once: [redactTextNodes]
    leaves a subtree that it has redacted as it is. *)
Theorem redactTextNodes_idempotent (n : Node) :
  redactTextNodes (redactTextNodes n) = redactTextNodes n.
Proof.
  induction n as [q a children IH|s|t d] using Node_induction; simpl.
  - f_equal. rewrite List.map_map.
    induction IH as [|c children Hc _ IHc]; simpl; [reflexivity|].
    rewrite Hc, IHc. reflexivity.
  - destruct s as [|c s]; [reflexivity|].
    cbn [nonEmpty]. change (redactText (c :: s))
      with ((if isWhiteSpace c then c else blockGlyph) :: redactText s).
    cbn [nonEmpty redactTextNodes]. f_equal.
    change ((if isWhiteSpace c then c else blockGlyph) :: redactText s)
      with (redactText (c :: s)).
    apply redactText_idempotent.
  - reflexivity.
Qed.

(** ** Documents the parser refuses *)

Section UnparsableDocuments.
Context {host : Host}.

Lemma processSvgFiles_each reg (R : File -> ProcessedPage -> Prop) :
  (forall k file page, processSvg reg k file = Ok page -> R file page) ->
  forall svgFiles k pages,
    processSvgFiles reg k svgFiles = Ok pages -> Forall2 R svgFiles pages.
Proof.
  intros HR. induction svgFiles as [|file rest IH]; intros k pages; simpl.
  - intros Heq. injection Heq as <-. constructor.
  - intros Hall. apply bind_Ok in Hall as (page & Hpage & Hall).
    apply bind_Ok in Hall as (more & Hmore & Heq). injection Heq as <-.
    constructor; [eapply HR; exact Hpage | eapply IH; exact Hmore].
Qed.

Lemma sequencePages_elem processedPages page :
  page ∈ sequencePages processedPages ->
  exists page0, page0 ∈ processedPages /\ setIndex 0 page = setIndex 0 page0.
Proof.
  intros Hin.
  assert (Hin' : In (setIndex 0 page) (List.map (setIndex 0) processedPages)).
  { eapply Permutation_in; [apply sequencePages_Permutation|].
    apply in_map, list_elem_of_In. exact Hin. }
  apply in_map_iff in Hin' as (page0 & Heq & Hin').
  exists page0. split; [apply list_elem_of_In; exact Hin' | congruence].
Qed.

(** X21. A document that cannot be parsed is a page all the same, of the
    default size: when the parser throws on the content of every collected
    document of a name, or answers with a document that holds a
    [parsererror], the page of that name is 595 wide and 842 high. *)
Theorem unparsable_document_gets_default_size (items : Items) allFiles pages page :
  processFiles items = Ok pages ->
  collectFiles items = Ok allFiles ->
  page ∈ pages ->
  (forall file content,
     file ∈ allFiles -> fileName file = name page -> text file = Ok content ->
     match parseFromString content with
     | Ok doc => getElementsByTagName (js "parsererror") doc <> []
     | Rejected _ => True
     end) ->
  width page = Fin 595 /\ height page = Fin 842.
Proof.
  intros Hp Hc Hin Hbad.
  apply processFiles_Ok in Hp as (allFiles' & reg & processed & Hc' & Hp & ->).
  rewrite Hc in Hc'. injection Hc' as <-.
  apply sequencePages_elem in Hin as (page0 & Hin & Heq).
  unfold setIndex in Heq. injection Heq as _ Hname _ Hw Hh.
  rewrite Hw, Hh, Hname in *. clear Hw Hh Hname.
  pose proof (processSvgFiles_each reg
    (λ file p, name p = fileName file /\
               exists content, text file = Ok content /\
                 (match parseFromString content with
                  | Ok doc => getElementsByTagName (js "parsererror") doc <> []
                  | Rejected _ => True
                  end -> width p = Fin 595 /\ height p = Fin 842))) as Heach.
  apply Heach in Hp; clear Heach.
  - apply list_elem_of_lookup in Hin as [i Hi].
    destruct (Forall2_lookup_r _ _ _ _ _ Hp Hi) as (file & Hfile & Hn & content & Ht & Hdims).
    apply Hdims, (Hbad file content); [|symmetry; exact Hn|exact Ht].
    apply list_elem_of_lookup_2 in Hfile.
    apply list_elem_of_In, filter_In in Hfile as [Hfile _].
    apply filter_In in Hfile as [Hfile _]. apply list_elem_of_In. exact Hfile.
  - intros k file p. unfold processSvg.
    destruct (text file) as [content|err]; simpl; [|discriminate].
    destruct (structuredPhase reg k content) as [content' dims] eqn:Hs.
    intros Heq. injection Heq as <-. simpl. split; [reflexivity|].
    exists content. split; [reflexivity|]. intros Hparse.
    unfold structuredPhase in Hs.
    destruct (parseFromString content) as [doc|err].
    + destruct (getElementsByTagName (js "parsererror") doc); [contradiction|].
      simpl in Hs. injection Hs as <- <-. auto.
    + injection Hs as <- <-. auto.
Qed.

End UnparsableDocuments.

Lemma unparsable_document_gets_default_size_witness :
  let host := ExampleHost.exampleHost in
  let files := [mkFile (js "torn.svg") [] (Ok (js "<svg viewBox='0 0 10 10'")) (Ok [])] in
  match processFiles (FileList files) with
  | Ok (page :: _) => width page = Fin 595 /\ height page = Fin 842
  | _ => False
  end.
Proof.
  intros host files.
  destruct (processFiles (FileList files)) as [[|page pages]|err] eqn:Hp;
    [vm_compute in Hp; discriminate| |vm_compute in Hp; discriminate].
  apply (unparsable_document_gets_default_size (FileList files) files (page :: pages) page
           Hp eq_refl); [left|].
  intros file content _ _ _. exact I.
Defined.

(** ** The files of a tree *)

Lemma traverseAll_elem entries : forall files,
  traverseAll entries = Ok files ->
  (forall child, child ∈ entries -> forall childFiles,
     traverseFileTree child = Ok childFiles ->
     forall file, file ∈ childFiles <-> FileOf child file) ->
  forall file, file ∈ files <-> exists child, child ∈ entries /\ FileOf child file.
Proof.
  induction entries as [|c entries IH]; simpl; intros files Hall Hchild file.
  - injection Hall as <-. split; [intros H; inversion H|].
    intros (child & H & _). inversion H.
  - apply bind_Ok in Hall as (childFiles & Hc & Hall).
    apply bind_Ok in Hall as (more & Hmore & Heq). injection Heq as <-.
    rewrite elem_of_app, (Hchild c ltac:(left) childFiles Hc file),
      (IH more Hmore ltac:(intros child Hin; apply Hchild; right; exact Hin) file).
    split.
    + intros [H|(child & Hin & H)]; [exists c; split; [left | exact H]|].
      exists child. split; [right; exact Hin | exact H].
    + intros (child & Hin & H). apply elem_of_cons in Hin as [->|Hin]; [left; exact H|].
      right. eauto.
Qed.

(** X22. The traversal returns the files of the tree, all of them and no
    other: when [traverseFileTree] returns, a file is in its list exactly
    when it is the file of a file entry that is reached from the entry
    through the listings of its directories. *)
Theorem traversal_returns_the_files_of_the_tree (entry : Entry) : forall files,
  traverseFileTree entry = Ok files ->
  forall file, file ∈ files <-> FileOf entry file.
Proof.
  induction entry as [outcome|dirReader IH|] using Entry_induction; intros files.
  - destruct outcome as [f|err]; simpl; [|discriminate].
    intros [= <-] file. split.
    + intros Hin. apply elem_of_cons in Hin as [->|Hin]; [constructor | inversion Hin].
    + intros H. inversion H; subst. left.
  - rewrite traverseFileTree_directory. intros Hall file.
    apply bind_Ok in Hall as (entries & Hread & Hall).
    rewrite (traverseAll_elem entries files Hall).
    + split.
      * intros (child & Hin & H).
        eapply file_of_child; [eapply readAllEntries_Listed; eassumption | exact H].
      * intros H. inversion H as [|r child f HL Hf]; subst.
        exists child. split; [eapply readAllEntries_listed; eassumption | exact Hf].
    + intros child Hin. apply IH. eapply readAllEntries_Listed; eassumption.
  - intros [= <-] file. split; intros H; inversion H.
Qed.

Lemma traversal_returns_the_files_of_the_tree_witness :
  let a := mkFile (js "a.svg") [] (Ok []) (Ok []) in
  let b := mkFile (js "b.png") [] (Ok []) (Ok []) in
  let tree := DirectoryEntry [Ok [FileEntry (Ok a); DirectoryEntry [Ok [FileEntry (Ok b)]]]] in
  b ∈ [a; b] <-> FileOf tree b.
Proof.
  intros a b tree.
  exact (traversal_returns_the_files_of_the_tree tree [a; b] eq_refl b).
Defined.

(** ** Items that are no files *)

Section IgnoredItems.
Context {host : Host}.

(** X23. The items of a drop that give neither an entry nor a file (a
    dragged text, say) play no part: the drop is processed as the drop
    without them. *)
Theorem items_that_are_no_files_are_ignored (items : list DataTransferItem) :
  processFiles (DataTransferItemList items) =
  processFiles
    (DataTransferItemList
       (List.filter
          (λ item, match webkitGetAsEntry item with
                   | Some _ => true
                   | None => eqStr (kind item) (js "file")
                             && match getAsFile item with Some _ => true | None => false end
                   end) items)).
Proof.
  unfold processFiles.
  match goal with
  | |- collectFiles ?a ≫= _ = collectFiles ?b ≫= _ =>
      assert (Hc : collectFiles a = collectFiles b); [|rewrite Hc; reflexivity]
  end.
  simpl.
  match goal with
  | |- (let '(_, _) := collectItems ?a in _) = (let '(_, _) := collectItems ?b in _) =>
      assert (Hi : collectItems a = collectItems b); [|rewrite Hi; reflexivity]
  end.
  induction items as [|item items IH]; simpl; [reflexivity|].
  destruct (webkitGetAsEntry item) as [entry|] eqn:He; simpl.
  - rewrite He, IH. reflexivity.
  - destruct (eqStr (kind item) (js "file")) eqn:Hk; simpl.
    + destruct (getAsFile item) as [file|] eqn:Hf; simpl.
      * rewrite He, Hk, Hf, IH. reflexivity.
      * rewrite <- IH. destruct (collectItems items); reflexivity.
    + rewrite <- IH. destruct (collectItems items); reflexivity.
Qed.

End IgnoredItems.

(** ** The spacer *)

(** X24. The blank filler is drawn on one spread only, the first content
    spread, and only with the spacer on: in a book that has pages, on a
    spread of index 0 or more, the left slot is the spacer exactly when the
    spacer is on and the spread is the one after the cover or, without a
    cover, the first one. *)
Theorem spacer_is_on_the_first_content_spread pages spreadIndex hasCover useSpacer :
  pages <> [] -> 0 <= spreadIndex ->
  leftSlot (displayedPages pages spreadIndex hasCover useSpacer) = SlotSpacer <->
  useSpacer = true /\ spreadIndex = (if hasCover then 1 else 0).
Proof.
  intros Hne Hs.
  assert (Hlen : Z.of_nat (length pages) <> 0) by (destruct pages; simpl in *; [congruence | lia]).
  unfold displayedPages, leftSlot.
  destruct (Z.eqb_spec (Z.of_nat (length pages)) 0) as [|_]; [contradiction|].
  destruct hasCover, useSpacer; simpl;
    repeat match goal with
    | |- context [Z.eqb ?a ?b] => destruct (Z.eqb_spec a b); simpl
    | |- context [Z.ltb ?a ?b] => destruct (Z.ltb_spec a b); simpl
    end.
  all: split.
  all: try (intros [Hu Hsi]; try discriminate Hu; try lia; subst spreadIndex; reflexivity).
  all: intros Hslot.
  all: repeat match type of Hslot with
       | context [pageAt ?p ?i] => destruct (pageAt p i)
       end.
  all: try discriminate Hslot.
  all: try (split; [reflexivity | lia]).
Qed.

Lemma spacer_is_on_the_first_content_spread_witness :
  let p := mkPage [] [] [] 0 NaN NaN in
  leftSlot (displayedPages [p; p; p] 1 true true) = SlotSpacer <->
  true = true /\ 1 = 1.
Proof.
  intros p.
  exact (spacer_is_on_the_first_content_spread [p; p; p] 1 true true
           ltac:(discriminate) ltac:(lia)).
Defined.

(** ** A list that is in order *)

Lemma sort_sorted {A} (compare : A -> A -> Z) l :
  Sorted (inOrder compare) l -> sort compare l = l.
Proof.
  induction 1 as [|x l Hs IH Hhd]; [reflexivity|].
  unfold sort in *. cbn [foldr]. rewrite IH.
  destruct Hhd as [|y l Hxy]; simpl; [reflexivity|].
  unfold inOrder in Hxy. destruct (Z.leb_spec (compare x y) 0); [reflexivity | lia].
Qed.

(** X25. Pages that come in the order of their names keep it: the
    sequencer returns them as they are, each with its position as index.
    Pages of equal names stay in the order they were collected in. *)
Theorem pages_in_order_keep_their_order {host : Host} (processedPages : list ProcessedPage) :
  Sorted (inOrder localeCompare) (List.map name processedPages) ->
  sequencePages processedPages = imap setIndex processedPages.
Proof.
  intros Hs. unfold sequencePages. f_equal. apply sort_sorted.
  induction processedPages as [|p l IH]; simpl in *; [constructor|].
  inversion Hs as [|? ? Hl Hhd]; subst. constructor; [apply IH; exact Hl|].
  destruct l; simpl in *; constructor. inversion Hhd; subst. assumption.
Qed.

Lemma pages_in_order_keep_their_order_witness :
  let host := ExampleHost.exampleHost in
  let page n i := mkPage (js i) (js n) [] 7 (Fin 595) (Fin 842) in
  sequencePages [page "p2.svg" "first"; page "P2.SVG" "second"; page "p10.svg" "third"]%string
  = [mkPage (js "first") (js "p2.svg") [] 0 (Fin 595) (Fin 842);
     mkPage (js "second") (js "P2.SVG") [] 1 (Fin 595) (Fin 842);
     mkPage (js "third") (js "p10.svg") [] 2 (Fin 595) (Fin 842)].
Proof.
  intros host page.
  apply (pages_in_order_keep_their_order
           [page "p2.svg" "first"; page "P2.SVG" "second"; page "p10.svg" "third"]%string).
  repeat constructor; vm_compute; discriminate.
Defined.
